(** * allennlp.steps.step: Steps, step caches and the step-graph resolver

    A shallow embedding of [allennlp/steps/step.py].

    - Python objects that the module passes around are modelled by the
      inductive type [value]; a [Step] instance is a node of that tree.  A
      Step's kwargs exist before the Step is constructed, so the object
      graph hanging off a Step is a DAG; every comparison the module makes
      between Steps ([__eq__], [__hash__], set and dict membership) looks
      only at [unique_id()], so a Step that is shared by two parents is
      represented by the same subtree occurring twice.
    - Methods that change the object they are called on return it:
      [unique_id] fills the memo field, [_run_with_temp_dir] sets and
      clears the guard.  Methods that may raise return a [pyresult].
    - What lies outside the module is a parameter: [hash_object], the
      Formats, the [run] method of a Step and the temporary directories of
      the operating system, [Step.from_params].  The random integer a
      non-deterministic Step hashes is a field of the instance.
    - The directory cache lives on a small file system, a finite map from
      paths to nodes, and every operation of a cache write may fail.
    - Log messages are not modelled. *)

From Stdlib Require Import String Ascii ZArith List Bool Lia.
From stdpp Require Import base option gmap strings pretty list fin_maps.

Set Warnings "-register-all".
Set Default Proof Using "Type".

Local Open Scope string_scope.
Local Open Scope list_scope.

(** ** Exceptions and fallible results *)

Inductive pyexn : Type :=
| ConfigurationError (msg : string)
| ValueError (msg : string)
| AssertionError (msg : string)
| AttributeError (msg : string)
| KeyError (key : string)
| TypeError (msg : string)
| OSError (msg : string)
| NotImplementedError
| MissingStepError (ref : string).

Inductive pyresult (A : Type) : Type :=
| Ok (a : A)
| Raise (e : pyexn).

Arguments Ok {A} a.
Arguments Raise {A} e.

(** ** Class-level constants of a Step subclass *)

Record StepClass : Type := mkStepClass {
  cls_name : string;            (* [self.__class__.__name__] *)
  DETERMINISTIC : bool;         (* default [False] *)
  CACHEABLE : option bool;      (* default [None] *)
  VERSION : option string;      (* default [None] *)
  FORMAT : string               (* names a Format; default [DillFormat(gz)] *)
}.

(** ** Instance attributes of a Step other than its kwargs *)

Record StepAttrs : Type := mkStepAttrs {
  step_class : StepClass;
  name : string;
  unique_id_cache : option string;
  (* the integer [random.getrandbits] hands to this instance when a
     non-deterministic Step first asks for its unique id *)
  rand_bits : Z;
  cache_results : bool;
  produce_results : bool;
  format : string;
  temp_dir_for_run : option (list string)
}.

(** ** Python values

    [VIter] is a single-pass iterator (an object with [__next__]), as a
    Step's [run] may return one; [VDict] keeps insertion order and allows
    any value as a key. *)

Inductive value : Type :=
| VNone
| VBool (b : bool)
| VInt (n : Z)
| VStr (s : string)
| VList (l : list value)
| VSet (l : list value)
| VDict (l : list (value * value))
| VIter (l : list value)
| VStep (s : step)
with step : Type :=
| MkStep (attrs : StepAttrs) (kwargs : list (string * value)).

Definition attrs (s : step) : StepAttrs :=
  match s with MkStep a _ => a end.

Definition kwargs (s : step) : list (string * value) :=
  match s with MkStep _ kw => kw end.

Definition class_of (s : step) : StepClass := step_class (attrs s).

Definition set_unique_id_cache (u : option string) (a : StepAttrs) : StepAttrs :=
  {| step_class := step_class a; name := name a; unique_id_cache := u;
     rand_bits := rand_bits a; cache_results := cache_results a;
     produce_results := produce_results a; format := format a;
     temp_dir_for_run := temp_dir_for_run a |}.

Definition set_temp_dir_for_run (d : option (list string)) (a : StepAttrs) : StepAttrs :=
  {| step_class := step_class a; name := name a;
     unique_id_cache := unique_id_cache a;
     rand_bits := rand_bits a; cache_results := cache_results a;
     produce_results := produce_results a; format := format a;
     temp_dir_for_run := d |}.

Definition set_name (n : string) (a : StepAttrs) : StepAttrs :=
  {| step_class := step_class a; name := n;
     unique_id_cache := unique_id_cache a;
     rand_bits := rand_bits a; cache_results := cache_results a;
     produce_results := produce_results a; format := format a;
     temp_dir_for_run := temp_dir_for_run a |}.

(** A Python dict with string keys; the kwargs of a Step are one. *)
Definition str_dict (kw : list (string * value)) : value :=
  VDict (map (fun kv => (VStr (fst kv), snd kv)) kw).

(** ** An induction principle that reaches through the containers *)

Section value_step_ind.
Variable P : value -> Prop.
Variable Q : step -> Prop.
Hypothesis HNone : P VNone.
Hypothesis HBool : forall b, P (VBool b).
Hypothesis HInt : forall n, P (VInt n).
Hypothesis HStr : forall s, P (VStr s).
Hypothesis HList : forall l, Forall P l -> P (VList l).
Hypothesis HSet : forall l, Forall P l -> P (VSet l).
Hypothesis HDict :
  forall l, Forall (fun kv => P (fst kv) /\ P (snd kv)) l -> P (VDict l).
Hypothesis HIter : forall l, Forall P l -> P (VIter l).
Hypothesis HStep : forall s, Q s -> P (VStep s).
Hypothesis HMk :
  forall a kw, Forall (fun kv => P (snd kv)) kw -> Q (MkStep a kw).

Fixpoint value_nested_ind (v : value) : P v :=
  match v with
  | VNone => HNone
  | VBool b => HBool b
  | VInt n => HInt n
  | VStr s => HStr s
  | VList l =>
      HList l ((fix go (l : list value) : Forall P l :=
                  match l with
                  | [] => @List.Forall_nil _ P
                  | x :: r => @List.Forall_cons _ _ x r (value_nested_ind x) (go r)
                  end) l)
  | VSet l =>
      HSet l ((fix go (l : list value) : Forall P l :=
                 match l with
                 | [] => @List.Forall_nil _ P
                 | x :: r => @List.Forall_cons _ _ x r (value_nested_ind x) (go r)
                 end) l)
  | VDict l =>
      HDict l ((fix go (l : list (value * value))
                  : Forall (fun kv => P (fst kv) /\ P (snd kv)) l :=
                  match l with
                  | [] => @List.Forall_nil _ _
                  | (k, x) :: r =>
                      @List.Forall_cons _ _ (k, x) r
                        (conj (value_nested_ind k) (value_nested_ind x)) (go r)
                  end) l)
  | VIter l =>
      HIter l ((fix go (l : list value) : Forall P l :=
                  match l with
                  | [] => @List.Forall_nil _ P
                  | x :: r => @List.Forall_cons _ _ x r (value_nested_ind x) (go r)
                  end) l)
  | VStep s => HStep s (step_nested_ind s)
  end
with step_nested_ind (s : step) : Q s :=
  match s with
  | MkStep a kw =>
      HMk a kw ((fix go (l : list (string * value))
                   : Forall (fun kv => P (snd kv)) l :=
                   match l with
                   | [] => @List.Forall_nil _ _
                   | (k, x) :: r => @List.Forall_cons _ _ (k, x) r (value_nested_ind x) (go r)
                   end) kw)
  end.

Definition value_step_mutind : (forall v, P v) /\ (forall s, Q s) :=
  conj value_nested_ind step_nested_ind.

End value_step_ind.

(** ** Building a Python set

    A set comprehension or [set(...)] keeps one element of every class of
    [==]-equal elements.  Among the hashable values that are not Steps,
    [None], booleans, integers and strings compare by content ([True == 1]);
    any other object is equal only to itself. *)

Definition py_prim_eqb (x y : value) : bool :=
  match x, y with
  | VNone, VNone => true
  | VBool a, VBool b => Bool.eqb a b
  | VInt a, VInt b => Z.eqb a b
  | VBool a, VInt b | VInt b, VBool a => Z.eqb b (if a then 1 else 0)
  | VStr a, VStr b => String.eqb a b
  | _, _ => false
  end.

Fixpoint dedup_by {A} (eqb : A -> A -> bool) (seen l : list A) : list A :=
  match l with
  | [] => []
  | x :: r =>
      if existsb (eqb x) seen then dedup_by eqb seen r
      else x :: dedup_by eqb (x :: seen) r
  end.

Definition py_set (l : list value) : value := VSet (dedup_by py_prim_eqb [] l).

(** ** Fingerprints: [Step.unique_id]

    [hash_object] comes from [allennlp.common.util]; the module only needs
    that it maps an object to a string. *)

Section Engine.

Variable hash_object : value -> string.

Definition id_prefix (c : StepClass) : string :=
  (cls_name c +:+ match VERSION c with
                  | Some v => "-" +:+ v
                  | None => ""
                  end) +:+ "-".

(** A comprehension [f(i) for i in items] in which evaluating [f(i)] may
    fill memo fields inside [i]: the results, and the items as the
    evaluation leaves them. *)
Definition comprehension {A B : Type} (f : A -> B * A)
    : list A -> list B * list A :=
  fix each (items : list A) : list B * list A :=
    match items with
    | [] => ([], [])
    | i :: r =>
        let '(b, i') := f i in
        let '(bs, r') := each r in
        (b :: bs, i' :: r')
    end.

(** [unique_id s] is the string the call returns together with the object
    as the call leaves it: the memo field of [s], and of every Step the
    call had to ask for its own id, is filled in. *)
Fixpoint unique_id (s : step) : string * step :=
  match s with
  | MkStep a kw =>
      match unique_id_cache a with
      | Some u => (u, s)
      | None =>
          if DETERMINISTIC (step_class a) then
            let '(h, kw') :=
              comprehension
                (fun '(k, v) =>
                   let '(hv, v') := replace_steps_with_hashes v in
                   ((VStr k, hv), (k, v')))
                kw in
            let u := id_prefix (step_class a)
                     +:+ substring 0 32 (hash_object (VDict h)) in
            (u, MkStep (set_unique_id_cache (Some u) a) kw')
          else
            let u := id_prefix (step_class a)
                     +:+ substring 0 32 (hash_object (VInt (rand_bits a))) in
            (u, MkStep (set_unique_id_cache (Some u) a) kw)
      end
  end
with replace_steps_with_hashes (o : value) : value * value :=
  match o with
  | VStep s => let '(u, s') := unique_id s in (VStr u, VStep s')
  | VList l =>
      let '(h, l') := comprehension replace_steps_with_hashes l in
      (VList h, VList l')
  | VSet l =>
      let '(h, l') := comprehension replace_steps_with_hashes l in
      (py_set h, VSet l')
  | VDict l =>
      let '(h, l') :=
        comprehension
          (fun '(k, v) =>
             let '(hv, v') := replace_steps_with_hashes v in
             ((k, hv), (k, v')))
          l in
      (VDict h, VDict l')
  | _ => (o, o)
  end.

(** The string [s.unique_id()] evaluates to. *)
Definition uid (s : step) : string := fst (unique_id s).

(** The results of [n] successive calls of [unique_id] on one instance. *)
Fixpoint unique_id_calls (n : nat) (s : step) : list string :=
  match n with
  | O => []
  | S n' => let '(u, s') := unique_id s in u :: unique_id_calls n' s'
  end.

(** *** The fingerprint as the specification words it

    Class tag, optional version and, for a deterministic Step, the first 32
    characters of the hash of the kwargs in which every nested Step is
    replaced by its own fingerprint, recursing through sequences, sets and
    mappings.  No memo field is read. *)
Fixpoint fingerprint (s : step) : string :=
  match s with
  | MkStep a kw =>
      id_prefix (step_class a) +:+
      substring 0 32
        (hash_object
           (if DETERMINISTIC (step_class a)
            then VDict (map (fun '(k, v) => (VStr k, canonical v)) kw)
            else VInt (rand_bits a)))
  end
with canonical (o : value) : value :=
  match o with
  | VStep s => VStr (fingerprint s)
  | VList l => VList (map canonical l)
  | VSet l => py_set (map canonical l)
  | VDict l => VDict (map (fun '(k, v) => (k, canonical v)) l)
  | _ => o
  end.

(** A memo field is either empty or holds what [unique_id] would compute;
    only [unique_id] ever writes the field, so every object the module
    builds satisfies this. *)
Fixpoint memo_ok (s : step) : bool :=
  match s with
  | MkStep a kw =>
      match unique_id_cache a with
      | None => true
      | Some u => String.eqb u (fingerprint s)
      end
      && forallb (fun '(_, v) => memo_ok_value v) kw
  end
with memo_ok_value (o : value) : bool :=
  match o with
  | VStep s => memo_ok s
  | VList l => forallb memo_ok_value l
  | VSet l => forallb memo_ok_value l
  | VDict l => forallb (fun '(_, v) => memo_ok_value v) l
  | _ => true
  end.

(** ** Construction: [Step.__init__]

    [_version_re] is [^[a-zA-Z0-9]+$]; in Python [$] also matches just
    before a newline that ends the string. *)

Definition is_alnum (c : ascii) : bool :=
  let n := nat_of_ascii c in
  (Nat.leb 48 n && Nat.leb n 57) || (Nat.leb 65 n && Nat.leb n 90)
  || (Nat.leb 97 n && Nat.leb n 122).

Fixpoint alnum_run (s : string) : bool :=
  match s with
  | EmptyString => true
  | String c EmptyString => is_alnum c || Ascii.eqb c "010"%char
  | String c r => is_alnum c && alnum_run r
  end.

Definition version_re_match (v : string) : bool :=
  match v with
  | EmptyString => false
  | String c _ => is_alnum c && alnum_run v
  end.

(** [not x] for an [Optional[bool]]. *)
Definition py_not_optbool (x : option bool) : bool :=
  match x with
  | Some true => false
  | Some false => true
  | None => true
  end.

(** [c] is the class being instantiated; [nonce] the integer the random
    generator will give this instance; [cache_results_arg] whatever object
    the caller passed for [cache_results] ([VNone] when omitted).  Log
    messages are not modelled. *)
Definition Step_init (c : StepClass) (nonce : Z)
    (step_name : option string) (cache_results_arg : value)
    (step_format : option string) (produce : bool)
    (kw : list (string * value)) : pyresult step :=
  if match VERSION c with
     | Some v => negb (version_re_match v)
     | None => false
     end
  then Raise (AssertionError
                ("Invalid characters in version '" +:+
                 default "" (VERSION c) +:+ "'"))
  else
    let a0 := {| step_class := c; name := ""; unique_id_cache := None;
                 rand_bits := nonce; cache_results := false;
                 produce_results := produce;
                 format := default (FORMAT c) step_format;
                 temp_dir_for_run := None |} in
    let s1 :=
      match step_name with
      | Some n => MkStep (set_name n a0) kw
      | None =>
          let '(u, s') := unique_id (MkStep a0 kw) in
          MkStep (set_name u (attrs s')) (kwargs s')
      end in
    let finish (b : bool) : pyresult step :=
      Ok (MkStep {| step_class := c; name := name (attrs s1);
                    unique_id_cache := unique_id_cache (attrs s1);
                    rand_bits := nonce; cache_results := b;
                    produce_results := produce;
                    format := default (FORMAT c) step_format;
                    temp_dir_for_run := None |} (kwargs s1)) in
    match cache_results_arg with
    | VBool true =>
        if py_not_optbool (CACHEABLE c)
        then Raise (ConfigurationError
                      ("Step " +:+ name (attrs s1) +:+
                       " is configured to use the cache, but it's not a cacheable step."))
        else finish true
    | VBool false => finish false
    | VNone =>
        match DETERMINISTIC c, CACHEABLE c with
        | false, None => finish false
        | true, None => finish true
        | false, Some false => finish false
        | true, Some false => finish false
        | false, Some true => finish true
        | true, Some true => finish true
        end
    | _ =>
        Raise (ConfigurationError
                 ("Step " +:+ default "None" step_name +:+
                  "'s cache_results parameter is set to an invalid value."))
    end.

(** ** Equality and hashing of Steps *)

Definition isinstance_Step (o : value) : bool :=
  match o with VStep _ => true | _ => false end.

Definition py_type_name (o : value) : string :=
  match o with
  | VNone => "NoneType"
  | VBool _ => "bool"
  | VInt _ => "int"
  | VStr _ => "str"
  | VList _ => "list"
  | VSet _ => "set"
  | VDict _ => "dict"
  | VIter _ => "generator"
  | VStep s => cls_name (class_of s)
  end.

(** The method call [o.unique_id()] on an arbitrary object. *)
Definition call_unique_id (o : value) : pyresult string :=
  match o with
  | VStep s => Ok (uid s)
  | _ => Raise (AttributeError
                  ("'" +:+ py_type_name o +:+
                   "' object has no attribute 'unique_id'"))
  end.

(** [Step.__eq__(self, other)]; [s == x] with a Step [s] on the left calls
    it with [self = s]. *)
Definition Step_eq (self other : value) : pyresult bool :=
  if isinstance_Step self then
    match call_unique_id self with
    | Raise e => Raise e
    | Ok a =>
        match call_unique_id other with
        | Raise e => Raise e
        | Ok b => Ok (String.eqb a b)
        end
    end
  else Ok false.

(** [hash(s)] is the hash of the string [uid s]; a set or dict of Steps
    therefore holds at most one Step for each unique id. *)
Definition step_eqb (a b : step) : bool := String.eqb (uid a) (uid b).

Definition step_set (l : list step) : list step := dedup_by step_eqb [] l.

(** ** Dependencies *)

Definition isinstance_str (o : value) : bool :=
  match o with VStr _ => true | _ => false end.

Definition isinstance_Iterable (o : value) : bool :=
  match o with
  | VStr _ | VList _ | VSet _ | VDict _ | VIter _ => true
  | _ => false
  end.

Definition isinstance_Dict (o : value) : bool :=
  match o with VDict _ => true | _ => false end.

(** The items of [for i in o]: iterating a dict yields its keys, iterating
    a string its characters. *)
Definition py_iter (o : value) : list value :=
  match o with
  | VList l | VSet l | VIter l => l
  | VDict l => map fst l
  | VStr s => map (fun c => VStr (String c EmptyString)) (list_ascii_of_string s)
  | _ => []
  end.

Definition dict_values (o : value) : list value :=
  match o with
  | VDict l => map snd l
  | _ => []
  end.

(** The [isinstance] chain of [dependencies_internal] is Step, str,
    Iterable, Dict.  Lists, sets, iterators and dicts are all Iterable, and
    iterating a dict yields its keys; a dict is therefore handled by the
    Iterable branch and the Dict branch below it is never reached
    ([dependencies_internal_chain] gives the function in that form). *)
Fixpoint dependencies_internal (o : value) : list step :=
  match o with
  | VStep s => [s]
  | VStr _ => []
  | VList l => flat_map dependencies_internal l
  | VSet l => flat_map dependencies_internal l
  | VIter l => flat_map dependencies_internal l
  | VDict l => flat_map (fun '(k, _) => dependencies_internal k) l
  | _ => []
  end.

(** [set(dependencies_internal(self.kwargs.values()))]: the argument is the
    dict's values view, an Iterable of the values. *)
Definition dependencies (s : step) : list step :=
  step_set (flat_map (fun '(_, v) => dependencies_internal v) (kwargs s)).

(** ** Dry run

    [cached_steps] is a mutable set of Steps; it is represented by the set
    of the unique ids of its members.  The generator is consumed to its
    end; the second component is the set as the walk leaves it. *)

(** [itertools.chain.from_iterable(walk(i) for i in items)]: the walks run
    one after the other, on the same set. *)
Definition chain_from_iterable {A B : Type}
    (walk : A -> gset string -> list B * gset string)
    : list A -> gset string -> list B * gset string :=
  fix chain (items : list A) (cs : gset string) : list B * gset string :=
    match items with
    | [] => ([], cs)
    | i :: r =>
        let '(o1, cs1) := walk i cs in
        let '(o2, cs2) := chain r cs1 in
        (o1 ++ o2, cs2)
    end.

Fixpoint dry_run (s : step) (cached_steps : gset string)
    : list (string * bool) * gset string :=
  match s with
  | MkStep a kw =>
      if decide (uid s ∈ cached_steps) then ([(name a, true)], cached_steps)
      else
        let '(out, cached') :=
          chain_from_iterable (fun '(_, v) => find_steps_from_inputs v)
            kw cached_steps in
        (out ++ [(name a, false)], cached' ∪ {[uid s]})
  end
with find_steps_from_inputs (o : value) (cached_steps : gset string)
    : list (string * bool) * gset string :=
  match o with
  | VStep s => dry_run s cached_steps
  | VList l => chain_from_iterable find_steps_from_inputs l cached_steps
  | VSet l => chain_from_iterable find_steps_from_inputs l cached_steps
  | VDict l =>
      chain_from_iterable (fun '(_, v) => find_steps_from_inputs v)
        l cached_steps
  | _ => ([], cached_steps)
  end.

(** The same walk, recording the Step that yields instead of its name. *)
Fixpoint dry_run_visits (s : step) (cached_steps : gset string)
    : list (step * bool) * gset string :=
  match s with
  | MkStep a kw =>
      if decide (uid s ∈ cached_steps) then ([(s, true)], cached_steps)
      else
        let '(out, cached') :=
          chain_from_iterable (fun '(_, v) => visits_from_inputs v)
            kw cached_steps in
        (out ++ [(s, false)], cached' ∪ {[uid s]})
  end
with visits_from_inputs (o : value) (cached_steps : gset string)
    : list (step * bool) * gset string :=
  match o with
  | VStep s => dry_run_visits s cached_steps
  | VList l => chain_from_iterable visits_from_inputs l cached_steps
  | VSet l => chain_from_iterable visits_from_inputs l cached_steps
  | VDict l =>
      chain_from_iterable (fun '(_, v) => visits_from_inputs v)
        l cached_steps
  | _ => ([], cached_steps)
  end.

(** The Steps the walk of [dry_run] can reach from a Step (itself
    included), resp. from a value. *)
Fixpoint steps_of (s : step) : list step :=
  match s with
  | MkStep a kw => s :: flat_map (fun '(_, v) => steps_in v) kw
  end
with steps_in (o : value) : list step :=
  match o with
  | VStep s => steps_of s
  | VList l => flat_map steps_in l
  | VSet l => flat_map steps_in l
  | VDict l => flat_map (fun '(_, v) => steps_in v) l
  | _ => []
  end.

(** ** Paths and the file system

    A path is the list of its components.  [with_suffix] follows
    [pathlib]: the suffix of a name starts at its last dot, unless that dot
    is the first or the last character, and [with_suffix] puts the new
    suffix in the place of the old one. *)

Definition path_join (p : list string) (c : string) : list string := p ++ [c].

Definition path_str (p : list string) : string := String.concat "/" p.

Fixpoint rfind_dot (s : string) (i : nat) (found : option nat) : option nat :=
  match s with
  | EmptyString => found
  | String c r =>
      rfind_dot r (S i) (if Ascii.eqb c "."%char then Some i else found)
  end.

Definition name_suffix (n : string) : string :=
  match rfind_dot n 0 None with
  | Some i =>
      if Nat.ltb 0 i && Nat.ltb i (String.length n - 1)
      then substring i (String.length n - i) n
      else ""
  | None => ""
  end.

Definition name_with_suffix (n suffix : string) : string :=
  substring 0 (String.length n - String.length (name_suffix n)) n +:+ suffix.

Fixpoint with_suffix (p : list string) (suffix : string) : list string :=
  match p with
  | [] => []
  | [n] => [name_with_suffix n suffix]
  | c :: r => c :: with_suffix r suffix
  end.

Inductive content : Type :=
| Bytes (b : string)
| Json (fields : list (string * string)).

Inductive fnode : Type :=
| Dir
| File (c : content).

Definition path_exists (disk : gmap (list string) fnode) (p : list string) : bool :=
  bool_decide (is_Some (disk !! p)).

(** [mkdir(parents=True, exist_ok=True)]: [done] is the part of the path
    already known to be a directory. *)
Fixpoint mkdir_parents (disk : gmap (list string) fnode)
    (done todo : list string) : pyresult (gmap (list string) fnode) :=
  match todo with
  | [] => Ok disk
  | c :: r =>
      let p := done ++ [c] in
      match disk !! p with
      | Some (File _) => Raise (OSError ("File exists: " +:+ path_str p))
      | Some Dir => mkdir_parents disk p r
      | None => mkdir_parents (<[p := Dir]> disk) p r
      end
  end.

(** [src.rename(dst)] moves the file in one step. *)
Definition fs_rename (src dst : list string) (disk : gmap (list string) fnode)
    : gmap (list string) fnode :=
  match disk !! src with
  | Some n => <[dst := n]> (delete src disk)
  | None => disk
  end.

(** What the environment does to the operations of one cache write.  A
    failing [format.write] may leave part of the payload behind. *)
Inductive write_outcome : Type :=
| WriteCompletes
| WriteFailsLeaving (partial : option string).

Record io_faults : Type := mk_io_faults {
  mkdir_fails : bool;
  format_write : write_outcome;
  checksum_fails : bool;
  open_temp_fails : bool;
  json_dump_fails : bool;
  rename_fails : bool;
  unlink_fails : bool
}.

Definition no_faults : io_faults :=
  {| mkdir_fails := false; format_write := WriteCompletes;
     checksum_fails := false; open_temp_fails := false;
     json_dump_fails := false; rename_fails := false;
     unlink_fails := false |}.

(** ** Formats

    [allennlp.steps.format] is an external collaborator: a Format writes a
    value into a directory, reads it back and gives a checksum of what is
    there.  A Format is taken to own one payload file in the directory. *)
Record FormatImpl : Type := mkFormat {
  payload_name : string;
  dumps : value -> string;
  loads : string -> pyresult value;
  checksum_of : string -> string
}.

Variable formats : string -> FormatImpl.

Definition format_of (s : step) : FormatImpl := formats (format (attrs s)).

(** ** Step caches *)

Class StepCache (C : Type) : Type := {
  contains : C -> value -> bool;
  getitem : C -> step -> pyresult value * C;
  setitem : C -> step -> value -> pyresult unit * C;
  path_for_step : C -> step -> option (list string)
}.

(** *** MemoryStepCache *)

Record MemoryStepCache : Type := mkMemoryStepCache {
  mem_cache : gmap string value
}.

Definition MemoryStepCache_init : MemoryStepCache :=
  {| mem_cache := ∅ |}.

Definition MemoryStepCache_getitem (c : MemoryStepCache) (s : step)
    : pyresult value * MemoryStepCache :=
  match mem_cache c !! uid s with
  | Some v => (Ok v, c)
  | None => (Raise (KeyError (uid s)), c)
  end.

(** A Step that is not to be cached is skipped (with a warning). *)
Definition MemoryStepCache_setitem (c : MemoryStepCache) (s : step) (v : value)
    : pyresult unit * MemoryStepCache :=
  if cache_results (attrs s)
  then (Ok tt, {| mem_cache := <[uid s := v]> (mem_cache c) |})
  else (Ok tt, c).

Definition MemoryStepCache_contains (c : MemoryStepCache) (o : value) : bool :=
  match o with
  | VStep s => bool_decide (is_Some (mem_cache c !! uid s))
  | _ => false
  end.

Definition MemoryStepCache_len (c : MemoryStepCache) : nat := size (mem_cache c).

#[export] Instance MemoryStepCache_ops : StepCache MemoryStepCache := {
  contains := MemoryStepCache_contains;
  getitem := MemoryStepCache_getitem;
  setitem := MemoryStepCache_setitem;
  path_for_step := fun _ _ => None
}.

(** *** DirectoryStepCache

    [cache] is the [WeakValueDictionary]: an entry is there as long as
    somebody else keeps the value alive.  The field holds the entries that
    are alive at that moment; the value a put or a lookup has just handled
    is among them, since the caller still holds it.  Once the caller lets
    go of a value its entry is gone: [collect] takes any set of entries
    away, and what is said about a later operation has to hold after any
    [collect].

    Only objects that can be weakly referenced may be stored in the
    dictionary.  Of the values modelled here, sets, generators and Steps
    (instances of a class) can be; [None], numbers, strings, lists and
    dicts cannot.  (Other objects Python can refer to weakly, such as
    instances of other classes, are not part of [value].) *)

Record DirectoryStepCache : Type := mkDirectoryStepCache {
  dir : list string;
  cache : gmap string value;
  disk : gmap (list string) fnode
}.

Definition weakly_referenceable (v : value) : bool :=
  match v with
  | VSet _ | VIter _ | VStep _ => true
  | _ => false
  end.

Definition weak_insert (k : string) (v : value) (m : gmap string value)
    : pyresult (gmap string value) :=
  if weakly_referenceable v then Ok (<[k := v]> m)
  else Raise (TypeError ("cannot create weak reference to '" +:+
                         py_type_name v +:+ "' object")).

(** The garbage collector drops the entries whose values died. *)
Definition collect (dead : gset string) (c : DirectoryStepCache)
    : DirectoryStepCache :=
  {| dir := dir c; cache := filter (fun kv => kv.1 ∉ dead) (cache c);
     disk := disk c |}.

Definition DirectoryStepCache_init (d : list string)
    (disk0 : gmap (list string) fnode) : pyresult DirectoryStepCache :=
  match mkdir_parents disk0 [] d with
  | Raise e => Raise e
  | Ok disk1 => Ok {| dir := d; cache := ∅; disk := disk1 |}
  end.

Definition DirectoryStepCache_path_for_step (c : DirectoryStepCache) (s : step)
    : list string :=
  path_join (dir c) (uid s).

Definition DirectoryStepCache_contains (c : DirectoryStepCache) (o : value)
    : bool :=
  match o with
  | VStep s =>
      if bool_decide (is_Some (cache c !! uid s)) then true
      else path_exists (disk c)
             (path_join (DirectoryStepCache_path_for_step c s) "metadata.json")
  | _ => false
  end.

Definition format_read (f : FormatImpl) (disk : gmap (list string) fnode)
    (location : list string) : pyresult value :=
  match disk !! path_join location (payload_name f) with
  | Some (File (Bytes b)) => loads f b
  | _ => Raise (OSError ("cannot read " +:+ path_str location))
  end.

Definition DirectoryStepCache_getitem (c : DirectoryStepCache) (s : step)
    : pyresult value * DirectoryStepCache :=
  match cache c !! uid s with
  | Some v => (Ok v, c)
  | None =>
      if negb (DirectoryStepCache_contains c (VStep s))
      then (Raise (KeyError (uid s)), c)
      else
        match format_read (format_of s) (disk c)
                (DirectoryStepCache_path_for_step c s) with
        | Raise e => (Raise e, c)
        | Ok r =>
            match weak_insert (uid s) r (cache c) with
            | Raise e => (Raise e, c)
            | Ok m => (Ok r, {| dir := dir c; cache := m; disk := disk c |})
            end
        end
  end.

(** The body of the [try] block of [__setitem__]: every operation may
    fail, and what it did before failing stays done. *)
Definition DirectoryStepCache_write (io : io_faults) (c : DirectoryStepCache)
    (s : step) (v : value) (location temp_metadata_location
    metadata_location : list string)
    : pyresult unit * DirectoryStepCache :=
  let f := format_of s in
  let payload := path_join location (payload_name f) in
  match format_write io with
  | WriteFailsLeaving None =>
      (Raise (OSError "write failed"), c)
  | WriteFailsLeaving (Some part) =>
      (Raise (OSError "write failed"),
       {| dir := dir c; cache := cache c;
          disk := <[payload := File (Bytes part)]> (disk c) |})
  | WriteCompletes =>
      let disk1 := <[payload := File (Bytes (dumps f v))]> (disk c) in
      let c1 := {| dir := dir c; cache := cache c; disk := disk1 |} in
      if checksum_fails io then (Raise (OSError "checksum failed"), c1)
      else
        let metadata := [("step", uid s); ("checksum", checksum_of f (dumps f v))] in
        if open_temp_fails io then (Raise (OSError "open failed"), c1)
        else if json_dump_fails io then
          (Raise (OSError "write failed"),
           {| dir := dir c; cache := cache c;
              disk := <[temp_metadata_location := File (Json [])]> disk1 |})
        else
          let disk2 := <[temp_metadata_location := File (Json metadata)]> disk1 in
          let c2 := {| dir := dir c; cache := cache c; disk := disk2 |} in
          match weak_insert (uid s) v (cache c) with
          | Raise e => (Raise e, c2)
          | Ok m =>
              let c3 := {| dir := dir c; cache := m; disk := disk2 |} in
              if rename_fails io then (Raise (OSError "rename failed"), c3)
              else
                (Ok tt,
                 {| dir := dir c; cache := m;
                    disk := fs_rename temp_metadata_location
                              metadata_location disk2 |})
          end
  end.

Definition DirectoryStepCache_setitem (io : io_faults) (c : DirectoryStepCache)
    (s : step) (v : value) : pyresult unit * DirectoryStepCache :=
  let location := DirectoryStepCache_path_for_step c s in
  if mkdir_fails io then (Raise (OSError "mkdir failed"), c)
  else
    match mkdir_parents (disk c) [] location with
    | Raise e => (Raise e, c)
    | Ok disk1 =>
        let c1 := {| dir := dir c; cache := cache c; disk := disk1 |} in
        let metadata_location := path_join location "metadata.json" in
        if path_exists disk1 metadata_location
        then (Raise (ValueError (path_str metadata_location +:+
                                 " already exists! Will not overwrite.")), c1)
        else
          let temp_metadata_location := with_suffix metadata_location ".temp" in
          match DirectoryStepCache_write io c1 s v location
                  temp_metadata_location metadata_location with
          | (Ok _, c2) => (Ok tt, c2)
          | (Raise e, c2) =>
              (* except: unlink(missing_ok=True); raise *)
              if unlink_fails io then (Raise (OSError "unlink failed"), c2)
              else
                (Raise e,
                 {| dir := dir c2; cache := cache c2;
                    disk := delete temp_metadata_location (disk c2) |})
          end
    end.

#[export] Instance DirectoryStepCache_ops (io : io_faults)
    : StepCache DirectoryStepCache := {
  contains := DirectoryStepCache_contains;
  getitem := DirectoryStepCache_getitem;
  setitem := DirectoryStepCache_setitem io;
  path_for_step := fun c s => Some (DirectoryStepCache_path_for_step c s)
}.

(** [self.dir.glob("*/metadata.json")] *)
Definition is_metadata_of (d p : list string) : bool :=
  match rev p with
  | n :: _ :: rd => String.eqb n "metadata.json" && bool_decide (rev rd = d)
  | _ => false
  end.

Definition DirectoryStepCache_len (c : DirectoryStepCache) : nat :=
  length (List.filter (fun kv => is_metadata_of (dir c) (fst kv))
            (map_to_list (disk c))).

(** *** The membership test a cache inherits

    [StepCache.__contains__] of the base class asks [__getitem__] and takes
    a [KeyError] for a no; any other exception comes out of the test, and
    whatever the lookup did to the cache stays done. *)
Definition StepCache_contains {C} `{StepCache C} (c : C) (o : value)
    : pyresult bool * C :=
  match o with
  | VStep s =>
      match getitem c s with
      | (Ok _, c') => (Ok true, c')
      | (Raise (KeyError _), c') => (Ok false, c')
      | (Raise e, c') => (Raise e, c')
      end
  | _ => (Ok false, c)
  end.

(** ** Running a Step

    What a Step computes, and the temporary directories of the operating
    system, are outside the module: [run] is the user's method (it gets
    [self] as the call sees it and the keyword arguments), and the three
    directory operations act on the same outside world. *)

Variable World : Type.
Variable run : step -> list (string * value) -> World -> pyresult value * World.
Variable TemporaryDirectory :
  string -> string -> World -> pyresult (list string) * World.
Variable cleanup : list string -> World -> pyresult unit * World.
Variable mkdir : list string -> World -> pyresult unit * World.

(** The state a materialization threads: the cache, the world, and a log
    of the entries into [run] (the receiver of each call, oldest first). *)
Record exec_state (C : Type) : Type := mk_exec_state {
  st_cache : C;
  st_world : World;
  run_log : list step
}.

Arguments mk_exec_state {C} _ _ _.
Arguments st_cache {C} _.
Arguments st_world {C} _.
Arguments run_log {C} _.

Definition with_cache {C} (c : C) (st : exec_state C) : exec_state C :=
  mk_exec_state c (st_world st) (run_log st).

Definition with_temp_dir (d : option (list string)) (s : step) : step :=
  MkStep (set_temp_dir_for_run d (attrs s)) (kwargs s).

Definition one_run_at_a_time : pyexn :=
  ValueError "You can only run a Step's run() method once at a time.".

(** The result, the receiver as the call leaves it, and the state. *)
Definition _run_with_temp_dir {C} `{StepCache C} (self : step)
    (kw : list (string * value)) (st : exec_state C)
    : pyresult value * step * exec_state C :=
  match temp_dir_for_run (attrs self) with
  | Some _ =>
      (Raise one_run_at_a_time, self, st)
  | None =>
      match path_for_step (st_cache st) self with
      | None =>
          match TemporaryDirectory (uid self +:+ "-") ".temp" (st_world st) with
          | (Raise e, w) =>
              (Raise e, self, mk_exec_state (st_cache st) w (run_log st))
          | (Ok temp_dir, w) =>
              let self1 := with_temp_dir (Some temp_dir) self in
              let '(r, w1) := run self1 kw w in
              (* finally: *)
              let self2 := with_temp_dir None self1 in
              let '(rc, w2) := cleanup temp_dir w1 in
              (match rc with Ok _ => r | Raise e => Raise e end,
               self2,
               mk_exec_state (st_cache st) w2 (run_log st ++ [self1]))
          end
      | Some step_dir =>
          let self1 := with_temp_dir (Some (path_join step_dir "run")) self in
          match mkdir (path_join step_dir "run") (st_world st) with
          | (Raise e, w) =>
              (* finally: *)
              (Raise e, with_temp_dir None self1,
               mk_exec_state (st_cache st) w (run_log st))
          | (Ok _, w) =>
              let '(r, w1) := run self1 kw w in
              (* finally: *)
              (r, with_temp_dir None self1,
               mk_exec_state (st_cache st) w1 (run_log st ++ [self1]))
          end
      end
  end.

Definition temp_dir (self : step) : option (list string) :=
  temp_dir_for_run (attrs self).

(** Elements of a set must be hashable, and equal elements are merged;
    Steps are equal when their unique ids are. *)
Definition py_hashable (v : value) : bool :=
  match v with
  | VList _ | VSet _ | VDict _ => false
  | _ => true
  end.

Definition py_eqb (x y : value) : bool :=
  match x, y with
  | VStep a, VStep b => step_eqb a b
  | _, _ => py_prim_eqb x y
  end.

(** [set.add] of one element of a set comprehension: an element that
    cannot be hashed raises as soon as it has been computed, before the
    next element is evaluated. *)
Definition set_add {S : Type} (r : pyresult value * S) : pyresult value * S :=
  match r with
  | (Ok b, st) =>
      if py_hashable b then (Ok b, st)
      else (Raise (TypeError ("unhashable type: '" +:+ py_type_name b +:+ "'")),
            st)
  | (Raise e, st) => (Raise e, st)
  end.

(** [hasattr(result, "__next__")] and [list(result)]. *)
Definition materialize (v : value) : value :=
  match v with
  | VIter l => VList l
  | _ => v
  end.

(** A comprehension [f(i) for i in items] over a computation that
    changes the state and may raise: the first exception ends it. *)
Definition traverse {A B S : Type} (f : A -> S -> pyresult B * S)
    : list A -> S -> pyresult (list B) * S :=
  fix each (items : list A) (st : S) : pyresult (list B) * S :=
    match items with
    | [] => (Ok [], st)
    | i :: r =>
        match f i st with
        | (Raise e, st') => (Raise e, st')
        | (Ok b, st') =>
            match each r st' with
            | (Raise e, st'') => (Raise e, st'')
            | (Ok bs, st'') => (Ok (b :: bs), st'')
            end
        end
    end.

Definition with_key {K B S : Type} (k : K) (r : pyresult B * S)
    : pyresult (K * B) * S :=
  match r with
  | (Ok b, st) => (Ok (k, b), st)
  | (Raise e, st) => (Raise e, st)
  end.

Section Materialization.

Context {C : Type} `{StepCache C}.

(** [cache] is the cache of the state; the module-level default is a
    [MemoryStepCache]. *)
Fixpoint result (self : step) (st : exec_state C)
    : pyresult value * exec_state C :=
  match self with
  | MkStep a kw =>
      if contains (st_cache st) (VStep self) then
        let '(r, c') := getitem (st_cache st) self in (r, with_cache c' st)
      else
        let '(rk, st1) :=
          traverse
            (fun '(k, v) st => with_key k (_replace_steps_with_results v st))
            kw st in
        match rk with
        | Raise e => (Raise e, st1)
        | Ok kwargs' =>
            let '(r, _, st2) := _run_with_temp_dir self kwargs' st1 in
            match r with
            | Raise e => (Raise e, st2)
            | Ok v =>
                if cache_results a then
                  let v' := materialize v in
                  let '(rp, c') := setitem (st_cache st2) self v' in
                  match rp with
                  | Raise e => (Raise e, with_cache c' st2)
                  | Ok _ => (Ok v', with_cache c' st2)
                  end
                else (Ok v, st2)
            end
        end
  end
with _replace_steps_with_results (o : value) (st : exec_state C)
    : pyresult value * exec_state C :=
  match o with
  | VStep s => result s st
  | VList l =>
      let '(rl, st1) := traverse _replace_steps_with_results l st in
      (match rl with Ok l' => Ok (VList l') | Raise e => Raise e end, st1)
  | VSet l =>
      let '(rl, st1) :=
        traverse (fun i st => set_add (_replace_steps_with_results i st))
          l st in
      (match rl with
       | Ok l' => Ok (VSet (dedup_by py_eqb [] l'))
       | Raise e => Raise e
       end, st1)
  | VDict l =>
      let '(rl, st1) :=
        traverse
          (fun '(k, v) st => with_key k (_replace_steps_with_results v st))
          l st in
      (match rl with Ok l' => Ok (VDict l') | Raise e => Raise e end, st1)
  | _ => (Ok o, st)
  end.

End Materialization.

(** [ensure_result] computes and stores the result without returning it. *)
Definition ensure_result {C} `{StepCache C} (self : step) (st : exec_state C)
    : pyresult unit * exec_state C :=
  if negb (cache_results (attrs self)) then
    (Raise (ValueError
              "It does not make sense to call ensure_result() on a step that's not cacheable."),
     st)
  else if contains (st_cache st) (VStep self) then (Ok tt, st)
  else
    let '(rk, st1) :=
      traverse
        (fun '(k, v) st => with_key k (_replace_steps_with_results v st))
        (kwargs self) st in
    match rk with
    | Raise e => (Raise e, st1)
    | Ok kwargs' =>
        let '(r, _, st2) := _run_with_temp_dir self kwargs' st1 in
        match r with
        | Raise e => (Raise e, st2)
        | Ok v =>
            let '(rp, c') := setitem (st_cache st2) self (materialize v) in
            (rp, with_cache c' st2)
        end
    end.

(** ** Recursive dependencies

    The Steps that sit below a Step along [dependencies]: what the walk of
    [dependencies_internal] finds in the kwargs, and below those. *)
Fixpoint below (s : step) : list step :=
  match s with
  | MkStep _ kw => flat_map (fun '(_, v) => below_in v) kw
  end
with below_in (o : value) : list step :=
  match o with
  | VStep s => s :: below s
  | VList l => flat_map below_in l
  | VSet l => flat_map below_in l
  | VIter l => flat_map below_in l
  | VDict l => flat_map (fun '(k, _) => below_in k) l
  | _ => []
  end.

(** The [while] loop of [recursive_dependencies], for at most [fuel]
    rounds.  [steps] is the list the loop uses as a stack, its top (the
    end of the Python list, where [pop] takes and [extend] appends) first;
    [seen] is the set, in insertion order. *)
Fixpoint recursive_dependencies_loop (fuel : nat) (seen steps : list step)
    : option (list step) :=
  match steps with
  | [] => Some seen
  | step :: rest =>
      match fuel with
      | O => None
      | S fuel' =>
          if existsb (step_eqb step) seen
          then recursive_dependencies_loop fuel' seen rest
          else recursive_dependencies_loop fuel' (seen ++ [step])
                 (rev (dependencies step) ++ rest)
      end
  end.

(** Every round pops one Step, and only a Step whose id is new pushes its
    dependencies: with [n] Steps below [self], [n * (n + 2)] rounds are
    enough. *)
Definition recursive_dependencies (self : step) : option (list step) :=
  let n := length (below self) in
  recursive_dependencies_loop (S (n * (n + 2))) [] (rev (dependencies self)).

(** ** The registry and [_RefStep]

    [Step.register(name)] enters a class into the registry of [Step] under
    a name of the caller's choice; a configuration names a class by that
    name.  The module registers one class, [_RefStep], under ["ref"]; it
    sets none of the class constants. *)
Definition _RefStep : StepClass :=
  {| cls_name := "_RefStep"; DETERMINISTIC := false; CACHEABLE := None;
     VERSION := None; FORMAT := "dill.gz" |}.

Definition Step_registry : list (string * StepClass) := [("ref", _RefStep)].

(** ** The step-graph resolver

    A Python dict whose order matters is a list of entries in insertion
    order: [popitem] takes the entry inserted last, an assignment to a new
    key appends. *)

Definition dict_contains {V} (k : string) (d : list (string * V)) : bool :=
  existsb (fun kv => String.eqb (fst kv) k) d.

Fixpoint dict_set {V} (k : string) (v : V) (d : list (string * V))
    : list (string * V) :=
  match d with
  | [] => [(k, v)]
  | (k', v') :: r =>
      if String.eqb k' k then (k, v) :: r else (k', v') :: dict_set k v r
  end.

Definition dict_popitem {V} (d : list (string * V))
    : option ((string * V) * list (string * V)) :=
  match rev d with
  | [] => None
  | kv :: r => Some (kv, rev r)
  end.

(** [Step.from_params] builds a Step from raw parameters with the help of
    the registry and of [allennlp.common.from_params]; the resolver only
    looks at how the call ends.  [Params] values are immutable here, so the
    backup copy of the parameters is the parameters. *)
Variable Params : Type.
Variable from_params :
  Params -> list (string * step) -> string -> pyresult step.

Record resolver_state : Type := mk_resolver_state {
  unparsed_steps : list (string * Params);
  next_unparsed_steps : list (string * Params);
  parsed_steps : list (string * step);
  steps_parsed : nat
}.

Definition cannot_parse (next : list (string * Params)) : pyexn :=
  ConfigurationError
    ("Cannot parse steps " +:+ String.concat "," (map fst next) +:+
     ". Do you have a " +:+
     "circle in your steps, or are you referring to a step that doesn't exist?").

(** The part of the loop body that runs when the unparsed queue is empty. *)
Definition refill (st : resolver_state) : pyresult resolver_state :=
  match unparsed_steps st with
  | [] =>
      if Nat.leb (steps_parsed st) 0
      then Raise (cannot_parse (next_unparsed_steps st))
      else Ok {| unparsed_steps := next_unparsed_steps st;
                 next_unparsed_steps := [];
                 parsed_steps := parsed_steps st;
                 steps_parsed := 0 |}
  | _ :: _ => Ok st
  end.

(** The rest of the loop body: take one entry and try to parse it. *)
Definition parse_one (st : resolver_state) : pyresult resolver_state :=
  match dict_popitem (unparsed_steps st) with
  | None => Raise (KeyError "popitem(): dictionary is empty")
  | Some ((step_name, step_params), rest) =>
      if dict_contains step_name (parsed_steps st)
      then Raise (ConfigurationError ("Duplicate step name " +:+ step_name))
      else
        match from_params step_params (parsed_steps st) step_name with
        | Ok s =>
            Ok {| unparsed_steps := rest;
                  next_unparsed_steps := next_unparsed_steps st;
                  parsed_steps := dict_set step_name s (parsed_steps st);
                  steps_parsed := S (steps_parsed st) |}
        | Raise (MissingStepError _) =>
            Ok {| unparsed_steps := rest;
                  next_unparsed_steps :=
                    dict_set step_name step_params (next_unparsed_steps st);
                  parsed_steps := parsed_steps st;
                  steps_parsed := steps_parsed st |}
        | Raise e => Raise e
        end
  end.

Definition loop_body (st : resolver_state) : pyresult resolver_state :=
  match refill st with
  | Raise e => Raise e
  | Ok st1 => parse_one st1
  end.

(** The [while] loop, for at most [fuel] rounds. *)
Fixpoint resolver_loop (fuel : nat) (st : resolver_state)
    : option (pyresult (list (string * step))) :=
  match unparsed_steps st, next_unparsed_steps st with
  | [], [] => Some (Ok (parsed_steps st))
  | _, _ =>
      match fuel with
      | O => None
      | S fuel' =>
          match loop_body st with
          | Raise e => Some (Raise e)
          | Ok st' => resolver_loop fuel' st'
          end
      end
  end.

Definition resolver_start (params : list (string * Params)) : resolver_state :=
  {| unparsed_steps := params; next_unparsed_steps := [];
     parsed_steps := []; steps_parsed := 0 |}.

(** A pass over [n] entries takes [n] rounds and each pass but the last is
    shorter than the one before: [n + (n - 1) + ... + 1] rounds are enough.
    The closing check of the graph only logs a warning. *)
Fixpoint rounds_needed (n : nat) : nat :=
  match n with
  | O => O
  | S k => n + rounds_needed k
  end.

Definition step_graph_from_params (params : list (string * Params))
    : option (pyresult (list (string * step))) :=
  resolver_loop (S (rounds_needed (length params))) (resolver_start params).

(** ** Vocabulary of the statements *)

(** [VERSION], when there is one, passes the assertion of [__init__]. *)
Definition version_valid (c : StepClass) : bool :=
  match VERSION c with
  | Some v => version_re_match v
  | None => true
  end.

(** What the engine relies on in a cache: a successful put of a Step that
    is to be cached makes [contains] true, and a lookup does not make it
    false. *)
Class LawfulStepCache (C : Type) `{StepCache C} : Prop := {
  setitem_contains :
    forall (c c' : C) (s : step) (v : value),
      cache_results (attrs s) = true ->
      setitem c s v = (Ok tt, c') -> contains c' (VStep s) = true;
  getitem_contains :
    forall (c c' : C) (s : step) (r : pyresult value),
      contains c (VStep s) = true ->
      getitem c s = (r, c') -> contains c' (VStep s) = true
}.

(** The scratch directory [_run_with_temp_dir] obtains before it enters
    [run]: the directory [run] of the Step's directory when the cache has
    one ([mkdir] creates it), a fresh temporary directory when not. *)
Definition obtain_scratch {C} `{StepCache C} (self : step)
    (st : exec_state C) : pyresult (list string) * World :=
  match path_for_step (st_cache st) self with
  | Some step_dir =>
      match mkdir (path_join step_dir "run") (st_world st) with
      | (Ok _, w) => (Ok (path_join step_dir "run"), w)
      | (Raise e, w) => (Raise e, w)
      end
  | None => TemporaryDirectory (uid self +:+ "-") ".temp" (st_world st)
  end.

(** The state after the deferred queue has been made the unparsed one. *)
Definition swapped (st : resolver_state) : resolver_state :=
  {| unparsed_steps := next_unparsed_steps st; next_unparsed_steps := [];
     parsed_steps := parsed_steps st; steps_parsed := 0 |}.

(** The same environment, except that the rename raises: a put in it
    stops at the rename, and shows the disk as it is at that moment. *)
Definition stop_at_rename (io : io_faults) : io_faults :=
  {| mkdir_fails := mkdir_fails io; format_write := format_write io;
     checksum_fails := checksum_fails io;
     open_temp_fails := open_temp_fails io;
     json_dump_fails := json_dump_fails io; rename_fails := true;
     unlink_fails := unlink_fails io |}.

(** The node that [json.dump(metadata, f)] leaves on the disk. *)
Definition metadata_json (s : step) (v : value) : fnode :=
  File (Json [("step", uid s);
              ("checksum", checksum_of (format_of s) (dumps (format_of s) v))]).

(** What [dry_run] yields for a visit. *)
Definition label (e : step * bool) : string * bool := (name (attrs (fst e)), snd e).

(** The Steps a walk reported with flag false, and their ids. *)
Definition false_steps (vis : list (step * bool)) : list step :=
  map fst (List.filter (fun e => negb (snd e)) vis).

Definition added (vis : list (step * bool)) : gset string :=
  list_to_set (map uid (false_steps vis)).

(** Every pair carries the flag true exactly when the Step was in the set
    at that moment: in the initial set, or reported before. *)
Fixpoint flags_consistent (cs : gset string) (vis : list (step * bool)) : Prop :=
  match vis with
  | [] => True
  | (t, true) :: r => (uid t ∈ cs) /\ flags_consistent cs r
  | (t, false) :: r => (uid t ∉ cs) /\ flags_consistent (cs ∪ {[uid t]}) r
  end.

(** Fingerprints tell the Steps of the graph under [root] apart: two of
    them with the same unique id reach Steps with the same unique ids. *)
Definition fingerprints_faithful (root : step) : bool :=
  forallb
    (fun t1 =>
       forallb
         (fun t2 =>
            implb (String.eqb (uid t1) (uid t2))
              (bool_decide (map uid (steps_of t1) = map uid (steps_of t2))))
         (steps_of root))
    (steps_of root).

(** *** Vocabulary of the further properties *)

(** The number of commit markers [dir.glob("*/metadata.json")] finds. *)
Definition commits (d : list string) (m : gmap (list string) fnode) : nat :=
  length (List.filter (fun kv => is_metadata_of d (fst kv)) (map_to_list m)).

(** Every directory on the way to [done ++ todo] below [done] is there. *)
Fixpoint all_dirs (m : gmap (list string) fnode) (done todo : list string)
    : Prop :=
  match todo with
  | [] => True
  | c :: r => m !! (done ++ [c]) = Some Dir /\ all_dirs m (done ++ [c]) r
  end.

(** The memory cache of [st'] holds every entry of the one of [st]. *)
Definition cache_grows (st st' : exec_state MemoryStepCache) : Prop :=
  mem_cache (st_cache st) ⊆ mem_cache (st_cache st').

(** Between two states, the entries into [run] are the Steps a walk
    reported with flag false, and the cache holds what the walk says. *)
Definition runs_as_reported (st st' : exec_state MemoryStepCache)
    (w : list (step * bool) * gset string) : Prop :=
  exists entered,
    run_log st' = run_log st ++ entered
    /\ map (with_temp_dir None) entered = false_steps (fst w)
    /\ dom (mem_cache (st_cache st')) = snd w.

(** Every character is a letter or a digit. *)
Fixpoint all_alnum (s : string) : bool :=
  match s with
  | EmptyString => true
  | String c r => is_alnum c && all_alnum r
  end.

(** The names the resolver holds, in its three dicts. *)
Definition resolver_keys (st : resolver_state) : list string :=
  map fst (unparsed_steps st) ++ map fst (next_unparsed_steps st)
  ++ map fst (parsed_steps st).

(** The states the loop goes through, started on [params]. *)
Inductive resolver_reaches (params : list (string * Params))
    : resolver_state -> Prop :=
| reaches_start : resolver_reaches params (resolver_start params)
| reaches_round (st st' : resolver_state) :
    resolver_reaches params st -> loop_body st = Ok st' ->
    resolver_reaches params st'.

(** What holds between two rounds of the loop of
    [recursive_dependencies]. *)
Definition rd_inv (self : step) (seen steps : list step) : Prop :=
  incl seen (below self) /\ incl steps (below self)
  /\ List.NoDup (map uid seen)
  /\ forall d,
       In d (dependencies self ++ flat_map dependencies seen) ->
       In (uid d) (map uid seen) \/ In (uid d) (map uid steps).

(** What holds of the set [recursive_dependencies] returns. *)
Definition rd_post (self : step) (r : list step) : Prop :=
  incl r (below self)
  /\ List.NoDup (map uid r)
  /\ (forall d, In d (dependencies self) -> In (uid d) (map uid r))
  /\ (forall t d,
        In t r -> In d (dependencies t) -> In (uid d) (map uid r)).

(** Between two states the memory cache has only grown, and no Step that
    entered [run] had its unique id in the cache of the first. *)
Definition runs_only_uncached (st st' : exec_state MemoryStepCache) : Prop :=
  cache_grows st st'
  /\ exists entered,
       run_log st' = run_log st ++ entered
       /\ Forall (fun t => mem_cache (st_cache st) !! uid t = None) entered.

(* ------------------------------------------------------------------ *)

(** * Proofs *)

(** ** Fingerprints *)


(** What one call does to a value (resp. a Step) whose memo fields are
    consistent. *)
Definition replace_sound (v : value) : Prop :=
  memo_ok_value v = true ->
  fst (replace_steps_with_hashes v) = canonical v /\
  memo_ok_value (snd (replace_steps_with_hashes v)) = true /\
  canonical (snd (replace_steps_with_hashes v)) = canonical v.

Definition unique_id_sound (s : step) : Prop :=
  memo_ok s = true ->
  fst (unique_id s) = fingerprint s /\
  memo_ok (snd (unique_id s)) = true /\
  fingerprint (snd (unique_id s)) = fingerprint s /\
  unique_id_cache (attrs (snd (unique_id s))) = Some (fingerprint s).

Lemma comprehension_sound {A B : Type} (f : A -> B * A) (g : A -> B)
    (ok : A -> bool) (l : list A) :
  Forall (fun x => ok x = true ->
                   fst (f x) = g x /\ ok (snd (f x)) = true
                   /\ g (snd (f x)) = g x) l ->
  forallb ok l = true ->
  fst (comprehension f l) = map g l
  /\ forallb ok (snd (comprehension f l)) = true
  /\ map g (snd (comprehension f l)) = map g l.
Proof.
  induction 1 as [|x l Hx _ IH]; cbn [comprehension forallb map];
    intros Hok; [auto|].
  apply andb_prop in Hok as [Hokx Hokl].
  destruct (Hx Hokx) as (E1 & E2 & E3).
  destruct (IH Hokl) as (I1 & I2 & I3).
  destruct (f x) as [b x']. destruct (comprehension f l) as [bs l'].
  cbn [fst snd forallb map] in *. subst. rewrite E2, I2, E3, I3. auto.
Qed.

Lemma unique_id_replace_sound :
  (forall v, replace_sound v) /\ (forall s, unique_id_sound s).
Proof.
  apply value_step_mutind; unfold replace_sound, unique_id_sound.
  - simpl; auto.
  - simpl; auto.
  - simpl; auto.
  - simpl; auto.
  - intros l Hl Hok. cbn [memo_ok_value] in Hok.
    destruct (comprehension_sound replace_steps_with_hashes canonical
                memo_ok_value l Hl Hok) as (E1 & E2 & E3).
    cbn [replace_steps_with_hashes].
    destruct (comprehension replace_steps_with_hashes l) as [h l'].
    cbn [fst snd canonical memo_ok_value] in *. subst. rewrite E3. auto.
  - intros l Hl Hok. cbn [memo_ok_value] in Hok.
    destruct (comprehension_sound replace_steps_with_hashes canonical
                memo_ok_value l Hl Hok) as (E1 & E2 & E3).
    cbn [replace_steps_with_hashes].
    destruct (comprehension replace_steps_with_hashes l) as [h l'].
    cbn [fst snd canonical memo_ok_value] in *. subst. rewrite E3. auto.
  - intros l Hl Hok. cbn [memo_ok_value] in Hok.
    destruct (comprehension_sound
                (fun '(k, v) =>
                   let '(hv, v') := replace_steps_with_hashes v in
                   ((k, hv), (k, v')))
                (fun '(k, v) => (k, canonical v))
                (fun '(_, v) => memo_ok_value v) l) as (E1 & E2 & E3).
    { eapply List.Forall_impl; [|exact Hl]. intros [k v] [_ Hv] Hokv.
      cbn [fst snd] in Hv. destruct (Hv Hokv) as (F1 & F2 & F3).
      destruct (replace_steps_with_hashes v) as [hv v'].
      cbn [fst snd] in *. subst. rewrite F3. auto. }
    { exact Hok. }
    cbn [replace_steps_with_hashes].
    match goal with
    | |- context [let '(_, _) := ?t in _] => destruct t as [h l']
    end.
    cbn [fst snd canonical memo_ok_value] in *. subst. rewrite E3. auto.
  - simpl; auto.
  - intros s Hs Hok. simpl in Hok. destruct (Hs Hok) as (E1 & E2 & E3 & _).
    simpl. destruct (unique_id s) as [u s']. simpl in *. subst. rewrite E3. auto.
  - intros a kw Hkw Hok. cbn [memo_ok] in Hok.
    apply andb_prop in Hok as [Hmemo Hokkw].
    cbn [unique_id].
    destruct (unique_id_cache a) as [u|] eqn:Hc.
    + apply String.eqb_eq in Hmemo. subst u. cbn [fst snd attrs memo_ok].
      rewrite Hc, String.eqb_refl, Hokkw. auto.
    + destruct (DETERMINISTIC (step_class a)) eqn:Hd.
      * destruct (comprehension_sound
                    (fun '(k, v) =>
                       let '(hv, v') := replace_steps_with_hashes v in
                       ((VStr k, hv), (k, v')))
                    (fun '(k, v) => (VStr k, canonical v))
                    (fun '(_, v) => memo_ok_value v) kw) as (E1 & E2 & E3).
        { eapply List.Forall_impl; [|exact Hkw]. intros [k v] Hv Hokv.
          cbn [fst snd] in Hv. destruct (Hv Hokv) as (F1 & F2 & F3).
          destruct (replace_steps_with_hashes v) as [hv v'].
          cbn [fst snd] in *. subst. rewrite F3. auto. }
        { exact Hokkw. }
        match goal with
        | |- context [let '(_, _) := ?t in _] => destruct t as [h kw']
        end.
        cbn [fst snd attrs memo_ok fingerprint set_unique_id_cache
             unique_id_cache step_class rand_bits] in *.
        subst. rewrite Hd, E3, E2, String.eqb_refl. auto.
      * cbn [fst snd attrs memo_ok fingerprint set_unique_id_cache
             unique_id_cache step_class rand_bits].
        rewrite Hd, Hokkw, String.eqb_refl. auto.
Qed.

Lemma canonical_str_dict (kw : list (string * value)) :
  canonical (str_dict kw)
  = VDict (map (fun '(k, v) => (VStr k, canonical v)) kw).
Proof.
  unfold str_dict. cbn [canonical]. f_equal.
  rewrite map_map. apply map_ext. intros [k v]. reflexivity.
Qed.

(** A second call finds the memo field filled by the first. *)
Lemma unique_id_memoized (s : step) :
  unique_id (snd (unique_id s)) = unique_id s.
Proof.
  destruct s as [a kw]. cbn [unique_id].
  destruct (unique_id_cache a) as [u|] eqn:Hc.
  - cbn [snd unique_id]. rewrite Hc. reflexivity.
  - destruct (DETERMINISTIC (step_class a)).
    + destruct (comprehension _ kw) as [h kw']. reflexivity.
    + reflexivity.
Qed.

Lemma unique_id_calls_stable (n : nat) (s : step) :
  Forall (eq (fst (unique_id s))) (unique_id_calls n s).
Proof.
  revert s. induction n as [|n IH]; intros s; cbn [unique_id_calls];
    [constructor|].
  pose proof (unique_id_memoized s) as Hm. specialize (IH (snd (unique_id s))).
  destruct (unique_id s) as [u s']. cbn [fst snd] in *.
  constructor; [reflexivity|]. rewrite Hm in IH. exact IH.
Qed.

(** C6 (as the code has it). For a deterministic Step whose memo fields
    are consistent, [unique_id()] returns the name of the Python class of
    the instance ([self.__class__.__name__], not the name the class is
    registered under), then ["-"] and [VERSION] when
    there is one, then ["-"] and the first 32 characters of the hash of the
    kwargs in which every nested Step has been replaced by its own
    fingerprint (lists, sets and the values of dicts being recursed into);
    and, for any Step, any number of successive calls on the instance
    return the same string. *)
Theorem unique_id_deterministic_format (s : step) :
  (memo_ok s = true ->
   DETERMINISTIC (class_of s) = true ->
   fst (unique_id s)
   = ((cls_name (class_of s) +:+
       match VERSION (class_of s) with
       | Some v => "-" +:+ v
       | None => ""
       end) +:+ "-") +:+
     substring 0 32 (hash_object (canonical (str_dict (kwargs s)))))
  /\ forall n, Forall (eq (fst (unique_id s))) (unique_id_calls n s).
Proof.
  split.
  - intros Hok Hdet.
    destruct (proj2 unique_id_replace_sound s Hok) as (E1 & _).
    rewrite E1, canonical_str_dict.
    destruct s as [a kw]. unfold class_of in *. simpl in *.
    rewrite Hdet. reflexivity.
  - intros n. apply unique_id_calls_stable.
Qed.

(** ** Equality *)

(** C10. With a Step on the left, [==] always takes the branch that asks
    the other operand for its unique id: the comparison with a Step is the
    comparison of the two ids, and the comparison with anything else
    raises [AttributeError]; it never answers [False] through the
    [else] branch. *)
Theorem Step_eq_always_asks_other (s : step) (x : value) :
  Step_eq (VStep s) x
  = match x with
    | VStep t => Ok (String.eqb (uid s) (uid t))
    | _ => Raise (AttributeError
                    ("'" +:+ py_type_name x +:+
                     "' object has no attribute 'unique_id'"))
    end.
Proof.
  unfold Step_eq. cbn [isinstance_Step call_unique_id].
  destruct x; reflexivity.
Qed.

(** ** Cache policy *)


(** C3. What the code does with [cache_results=True]: construction
    succeeds, and resolves [cache_results] to true, exactly when the class
    sets [CACHEABLE] to true; when [CACHEABLE] is false or is left unset it
    fails with the "not a cacheable step" configuration error.  The guard
    is [if not self.CACHEABLE], and [not None] is true: a class that
    leaves [CACHEABLE] unset is rejected like one that sets it to false,
    where the claim has the construction succeed. *)
Theorem explicit_cache_results_requires_cacheable (c : StepClass) (nonce : Z)
    (step_name : option string) (step_format : option string)
    (produce : bool) (kw : list (string * value)) :
  version_valid c = true ->
  match CACHEABLE c with
  | Some true =>
      exists s,
        Step_init c nonce step_name (VBool true) step_format produce kw = Ok s
        /\ cache_results (attrs s) = true
  | _ =>
      exists n,
        Step_init c nonce step_name (VBool true) step_format produce kw
        = Raise (ConfigurationError
                   ("Step " +:+ n +:+
                    " is configured to use the cache, but it's not a cacheable step."))
  end.
Proof.
  unfold version_valid, Step_init. intros Hv.
  destruct (VERSION c) as [v|]; [rewrite Hv|]; simpl;
    destruct (CACHEABLE c) as [[|]|]; simpl; eauto.
Qed.

(** ** Dependencies *)

(** [dependencies_internal] as the chain of [isinstance] tests of the
    source. *)
Lemma dependencies_internal_chain (o : value) :
  dependencies_internal o
  = match o with
    | VStep s => [s]
    | _ =>
        if isinstance_str o then []
        else if isinstance_Iterable o
             then flat_map dependencies_internal (py_iter o)
        else if isinstance_Dict o
             then flat_map dependencies_internal (dict_values o)
        else []
    end.
Proof.
  destruct o; try reflexivity.
  cbn [dependencies_internal isinstance_str isinstance_Iterable py_iter].
  induction l as [|[k v] r IH]; [reflexivity|].
  cbn [flat_map map fst]. rewrite IH. reflexivity.
Qed.

(** The branch for dicts comes after the branch for Iterables, and every
    dict is an Iterable. *)
Lemma dict_branch_is_dead (o : value) :
  isinstance_Dict o = true -> isinstance_Iterable o = true.
Proof. destruct o; simpl; congruence. Qed.

Lemma dependencies_internal_str_dict (m : list (string * value)) :
  dependencies_internal (str_dict m) = [].
Proof.
  unfold str_dict. cbn [dependencies_internal].
  induction m as [|[k v] r IH]; [reflexivity|].
  cbn [map flat_map fst snd dependencies_internal app]. exact IH.
Qed.

(** C1 (what the code does). Whatever a dict with string keys holds as
    its values, a kwarg that is such a dict contributes nothing to the
    dependencies: the dict is walked as an Iterable, that is through its
    keys, so a Step stored as one of its values is not a member of
    [dependencies()]. *)
Theorem dependencies_skips_dict_values (a : StepAttrs) (n : string)
    (m : list (string * value)) :
  dependencies (MkStep a [(n, str_dict m)]) = [].
Proof.
  unfold dependencies. cbn [kwargs flat_map].
  rewrite dependencies_internal_str_dict. reflexivity.
Qed.

Example dependencies_of_nested_mapping (a : StepAttrs) (inner : step) :
  dependencies (MkStep a [("x", VDict [(VStr "k", VStep inner)])]) = [].
Proof. reflexivity. Qed.

(** The sibling walk of [dry_run] does reach such a Step. *)
Lemma dry_run_reaches_dict_values (a : StepAttrs) (n k : string)
    (inner : step) :
  In (inner, false)
     (fst (dry_run_visits (MkStep a [(n, VDict [(VStr k, VStep inner)])]) ∅)).
Proof.
  cbn [dry_run_visits visits_from_inputs chain_from_iterable].
  destruct (decide _) as [Hin|_];
    [apply not_elem_of_empty in Hin; contradiction|].
  destruct inner as [ai kwi].
  cbn [dry_run_visits].
  destruct (decide _) as [Hin|_];
    [apply not_elem_of_empty in Hin; contradiction|].
  destruct (chain_from_iterable _ kwi ∅) as [o cs].
  cbn [fst app]. rewrite !app_nil_r.
  apply in_or_app. left. apply in_or_app. right. left. reflexivity.
Qed.

(** ** The run guard *)


Lemma with_temp_dir_restore (d : list string) (self : step) :
  temp_dir_for_run (attrs self) = None ->
  with_temp_dir None (with_temp_dir (Some d) self) = self.
Proof.
  destruct self as [[c n u rb cr pr f t] kw]. simpl. intros ->. reflexivity.
Qed.

Lemma guard_set_rejects {C} `{StepCache C} (self : step)
    (kw : list (string * value)) (st : exec_state C) :
  temp_dir_for_run (attrs self) <> None ->
  _run_with_temp_dir self kw st = (Raise one_run_at_a_time, self, st).
Proof.
  unfold _run_with_temp_dir.
  destruct (temp_dir_for_run (attrs self)); [reflexivity | congruence].
Qed.

(** C9. Entering [_run_with_temp_dir] while [temp_dir_for_run] is set
    fails at once, before anything else happens.  With the guard clear,
    the call first obtains its scratch directory; if that fails, [run] is
    not entered and the failure comes out.  Once the directory is there,
    [run] is entered, exactly once, on the instance with the guard set to
    that directory, so that any further entry during that run is rejected;
    what [run] returns or raises is what the call returns or raises (after
    the temporary directory has been cleaned up, when there is one; a
    failing cleanup takes the place of the outcome).  However the call
    ends, it hands the instance back as it found it, the guard clear: the
    next call on it is admitted in the same way. *)
Theorem run_is_never_reentered {C} `{StepCache C} (self : step)
    (kw : list (string * value)) (st : exec_state C) :
  match temp_dir_for_run (attrs self) with
  | Some _ =>
      _run_with_temp_dir self kw st = (Raise one_run_at_a_time, self, st)
  | None =>
      match obtain_scratch self st with
      | (Raise e, w) =>
          _run_with_temp_dir self kw st
          = (Raise e, self, mk_exec_state (st_cache st) w (run_log st))
      | (Ok d, w) =>
          let self1 := with_temp_dir (Some d) self in
          let '(r, w1) := run self1 kw w in
          _run_with_temp_dir self kw st
          = match path_for_step (st_cache st) self with
            | Some _ =>
                (r, self,
                 mk_exec_state (st_cache st) w1 (run_log st ++ [self1]))
            | None =>
                let '(rc, w2) := cleanup d w1 in
                (match rc with Ok _ => r | Raise e => Raise e end, self,
                 mk_exec_state (st_cache st) w2 (run_log st ++ [self1]))
            end
          /\ temp_dir self1 = Some d
          /\ forall kw2 (st2 : exec_state C),
               _run_with_temp_dir self1 kw2 st2
               = (Raise one_run_at_a_time, self1, st2)
      end
  end.
Proof.
  destruct (temp_dir_for_run (attrs self)) as [d0|] eqn:Hg.
  - apply guard_set_rejects. congruence.
  - unfold _run_with_temp_dir, obtain_scratch. rewrite Hg.
    destruct (path_for_step (st_cache st) self) as [step_dir|].
    + destruct (mkdir _ _) as [[[]|e] w].
      * destruct (run _ _ _) as [r w1].
        rewrite with_temp_dir_restore by exact Hg.
        split; [reflexivity|]. split.
        -- destruct self as [a kw0]. reflexivity.
        -- intros kw2 st2. apply guard_set_rejects.
           destruct self as [a kw0]. simpl. discriminate.
      * rewrite with_temp_dir_restore by exact Hg. reflexivity.
    + destruct (TemporaryDirectory _ _ _) as [[d|e] w]; [|reflexivity].
      destruct (run _ _ _) as [r w1].
      destruct (cleanup _ _) as [rc w2].
      rewrite with_temp_dir_restore by exact Hg.
      split; [reflexivity|]. split.
      * destruct self as [a kw0]. reflexivity.
      * intros kw2 st2. apply guard_set_rejects.
        destruct self as [a kw0]. simpl. discriminate.
Qed.

(** ** Materialization *)



Lemma weak_insert_lookup (k : string) (v : value) (m m' : gmap string value) :
  weak_insert k v m = Ok m' -> m' !! k = Some v.
Proof.
  unfold weak_insert. destruct (weakly_referenceable v); [|discriminate].
  intros [= <-]. apply lookup_insert_eq.
Qed.

Lemma DirectoryStepCache_write_ok (io : io_faults) (c c' : DirectoryStepCache)
    (s : step) (v : value) (loc tmp meta : list string) :
  DirectoryStepCache_write io c s v loc tmp meta = (Ok tt, c') ->
  dir c' = dir c /\ cache c' !! uid s = Some v.
Proof.
  unfold DirectoryStepCache_write.
  destruct (format_write io) as [|[part|]]; [|discriminate..].
  destruct (checksum_fails io); [discriminate|].
  destruct (open_temp_fails io); [discriminate|].
  destruct (json_dump_fails io); [discriminate|].
  destruct (weak_insert _ _ _) as [m|e] eqn:Hw; [|discriminate].
  destruct (rename_fails io); [discriminate|].
  intros [= <-]. simpl. split; [reflexivity|].
  eapply weak_insert_lookup, Hw.
Qed.

#[export] Instance DirectoryStepCache_lawful (io : io_faults)
    : @LawfulStepCache DirectoryStepCache (DirectoryStepCache_ops io).
Proof.
  split.
  - intros c c' s v _.
    change (DirectoryStepCache_setitem io c s v = (Ok tt, c') ->
            DirectoryStepCache_contains c' (VStep s) = true).
    unfold DirectoryStepCache_setitem.
    destruct (mkdir_fails io); [discriminate|].
    destruct (mkdir_parents _ _ _) as [disk1|e]; [|discriminate].
    destruct (path_exists _ _); [discriminate|].
    destruct (DirectoryStepCache_write _ _ _ _ _ _ _) as [[[]|e] c2] eqn:Hw.
    + intros [= <-]. apply DirectoryStepCache_write_ok in Hw as [_ Hl].
      unfold DirectoryStepCache_contains. rewrite Hl.
      rewrite bool_decide_eq_true_2 by eauto. reflexivity.
    + destruct (unlink_fails io); discriminate.
  - intros c c' s r Hin. change (DirectoryStepCache_contains c (VStep s) = true) in Hin.
    change (DirectoryStepCache_getitem c s = (r, c') ->
            DirectoryStepCache_contains c' (VStep s) = true).
    unfold DirectoryStepCache_getitem.
    destruct (cache c !! uid s) as [v|] eqn:Hl; [intros [= _ <-]; exact Hin|].
    rewrite Hin. simpl.
    destruct (format_read _ _ _) as [x|e]; [|intros [= _ <-]; exact Hin].
    destruct (weak_insert _ _ _) as [m|e] eqn:Hw; [|intros [= _ <-]; exact Hin].
    intros [= _ <-]. unfold DirectoryStepCache_contains. simpl.
    rewrite (weak_insert_lookup _ _ _ _ Hw).
    rewrite bool_decide_eq_true_2 by eauto. reflexivity.
Qed.

Lemma result_when_cached {C} `{StepCache C} (s : step) (st : exec_state C) :
  contains (st_cache st) (VStep s) = true ->
  result s st
  = (fst (getitem (st_cache st) s),
     with_cache (snd (getitem (st_cache st) s)) st).
Proof.
  intros Hin. destruct s as [a kw]. cbn [result]. rewrite Hin.
  destruct (getitem _ _). reflexivity.
Qed.



(** X12. With the memory cache, a second call of [result] for a Step that
    is to be cached returns the value of the first call and leaves the
    state, cache, world and log, as it is. *)
Lemma result_again_same_value (s : step)
    (st st' : exec_state MemoryStepCache) (v : value) :
  cache_results (attrs s) = true ->
  result s st = (Ok v, st') ->
  result s st' = (Ok v, st').
Proof.
  intros Hcr Hres.
  assert (Hl : mem_cache (st_cache st') !! uid s = Some v).
  { revert Hres. destruct s as [a kw]. cbn [result]. simpl in Hcr.
    destruct (contains (st_cache st) (VStep (MkStep a kw))) eqn:Hin.
    - change (getitem (st_cache st) (MkStep a kw))
        with (MemoryStepCache_getitem (st_cache st) (MkStep a kw)).
      unfold MemoryStepCache_getitem.
      destruct (mem_cache (st_cache st) !! uid (MkStep a kw)) as [x|] eqn:Hx;
        intros [= <- <-]. exact Hx.
    - destruct (traverse _ kw st) as [[kw'|e] st1]; [|discriminate].
      destruct (_run_with_temp_dir _ _ _) as [[[v0|e] self'] st2]; [|discriminate].
      rewrite Hcr.
      change (setitem (st_cache st2) (MkStep a kw) (materialize v0))
        with (MemoryStepCache_setitem (st_cache st2) (MkStep a kw) (materialize v0)).
      unfold MemoryStepCache_setitem. cbn [attrs]. rewrite Hcr.
      intros [= <- <-]. cbn [with_cache st_cache mem_cache].
      apply lookup_insert_eq. }
  rewrite result_when_cached.
  - change (getitem (st_cache st') s)
      with (MemoryStepCache_getitem (st_cache st') s).
    unfold MemoryStepCache_getitem. rewrite Hl. cbn [fst snd].
    destruct st' as [c w l]. reflexivity.
  - change (MemoryStepCache_contains (st_cache st') (VStep s) = true).
    unfold MemoryStepCache_contains. rewrite Hl.
    apply bool_decide_eq_true_2. eauto.
Qed.

(** ** The resolver *)


(** C7. When the unparsed queue is empty and entries are still deferred:
    if no step was parsed in the last pass the resolver stops with the
    configuration error whose message lists the deferred names, joined by
    commas; otherwise it makes the deferred queue the unparsed one, resets
    the progress counter and goes on from there. *)
Theorem resolver_stuck_or_swaps (st : resolver_state) :
  unparsed_steps st = [] ->
  next_unparsed_steps st <> [] ->
  (steps_parsed st = 0 ->
   forall fuel,
     resolver_loop (S fuel) st
     = Some (Raise (ConfigurationError
                      ("Cannot parse steps " +:+
                       String.concat "," (map fst (next_unparsed_steps st)) +:+
                       ". Do you have a " +:+
                       "circle in your steps, or are you referring to a step that doesn't exist?"))))
  /\ (steps_parsed st <> 0 ->
      loop_body st = parse_one (swapped st)
      /\ forall fuel,
           resolver_loop (S fuel) st = resolver_loop (S fuel) (swapped st)).
Proof.
  intros Hu Hn. split.
  - intros Hp fuel. cbn [resolver_loop]. rewrite Hu.
    destruct (next_unparsed_steps st) as [|kv r] eqn:E; [congruence|].
    unfold loop_body, refill. rewrite Hu, Hp, E. reflexivity.
  - intros Hp.
    assert (Hb : loop_body st = parse_one (swapped st)).
    { unfold loop_body, refill. rewrite Hu.
      destruct (steps_parsed st); [congruence|]. reflexivity. }
    split; [exact Hb|]. intros fuel. cbn [resolver_loop]. rewrite Hu.
    destruct (next_unparsed_steps st) as [|kv r] eqn:E; [congruence|].
    cbn [swapped unparsed_steps next_unparsed_steps]. rewrite E.
    rewrite Hb. unfold loop_body, refill.
    cbn [swapped unparsed_steps]. rewrite E. reflexivity.
Qed.

(** *** The loop ends *)

Definition rounds_left (st : resolver_state) : nat :=
  let u := length (unparsed_steps st) in
  let t := u + length (next_unparsed_steps st) in
  u + rounds_needed (if Nat.ltb 0 (steps_parsed st) then t else t - 1).

Lemma rounds_needed_mono (a b : nat) : a <= b -> rounds_needed a <= rounds_needed b.
Proof.
  induction 1 as [|b _ IH]; [lia|]. cbn [rounds_needed]. lia.
Qed.

Lemma dict_popitem_length {V} (d rest : list (string * V)) (kv : string * V) :
  dict_popitem d = Some (kv, rest) -> length d = S (length rest).
Proof.
  unfold dict_popitem. destruct (rev d) as [|x r] eqn:E; [discriminate|].
  intros [= <- <-]. rewrite length_rev.
  rewrite <- (length_rev d), E. reflexivity.
Qed.

Lemma dict_popitem_nonempty {V} (d : list (string * V)) :
  d <> [] -> exists kv rest, dict_popitem d = Some (kv, rest).
Proof.
  intros Hd. unfold dict_popitem. destruct (rev d) as [|x r] eqn:E; [|eauto].
  apply (f_equal (@rev _)) in E. rewrite rev_involutive in E. contradiction.
Qed.

Lemma dict_set_length {V} (k : string) (v : V) (d : list (string * V)) :
  length (dict_set k v d) <= S (length d).
Proof.
  induction d as [|[k' v'] r IH]; simpl; [lia|].
  destruct (String.eqb k' k); simpl; lia.
Qed.

Lemma parse_one_rounds (st st' : resolver_state) :
  parse_one st = Ok st' ->
  length (unparsed_steps st) = S (length (unparsed_steps st'))
  /\ (steps_parsed st' = S (steps_parsed st)
      /\ next_unparsed_steps st' = next_unparsed_steps st
      \/ steps_parsed st' = steps_parsed st
         /\ length (next_unparsed_steps st')
            <= S (length (next_unparsed_steps st))).
Proof.
  unfold parse_one.
  destruct (dict_popitem (unparsed_steps st)) as [[[n p] rest]|] eqn:E;
    [|discriminate].
  apply dict_popitem_length in E.
  destruct (dict_contains n (parsed_steps st)); [discriminate|].
  destruct (from_params p (parsed_steps st) n) as [s|e].
  - intros [= <-]. simpl. auto.
  - destruct e; try discriminate. intros [= <-]. simpl. split; [exact E|].
    right. split; [reflexivity|]. apply dict_set_length.
Qed.

Lemma loop_body_rounds (st st' : resolver_state) :
  loop_body st = Ok st' -> rounds_left st' < rounds_left st.
Proof.
  unfold loop_body, refill.
  destruct (unparsed_steps st) as [|kv0 r0] eqn:Hu.
  - destruct (steps_parsed st) as [|p] eqn:Hp; [discriminate|].
    cbn [Nat.leb]. intros Hpo. apply parse_one_rounds in Hpo.
    cbn [unparsed_steps next_unparsed_steps steps_parsed] in Hpo.
    unfold rounds_left. rewrite Hu, Hp. cbn [length Nat.ltb Nat.leb].
    destruct Hpo as [Hl [[Hs Hn]|[Hs Hn]]]; rewrite Hs, ?Hn; cbn [Nat.ltb Nat.leb length];
      rewrite Hl; cbn [rounds_needed Nat.add].
    + rewrite Nat.add_0_r. lia.
    + simpl in Hn.
      assert (Hm := rounds_needed_mono
                      (length (unparsed_steps st')
                       + length (next_unparsed_steps st') - 1)
                      (length (unparsed_steps st'))).
      lia.
  - intros Hpo. apply parse_one_rounds in Hpo. rewrite Hu in Hpo.
    unfold rounds_left. rewrite Hu.
    destruct Hpo as [Hl [[Hs Hn]|[Hs Hn]]]; rewrite Hs, ?Hn; rewrite Hl.
    + replace (Nat.ltb 0 (S (steps_parsed st))) with true by reflexivity.
      set (m := length (next_unparsed_steps st)).
      set (u := length (unparsed_steps st')).
      assert (Hm := rounds_needed_mono (S u + m - 1) (S u + m)).
      replace (S u + m - 1) with (u + m) in * by lia.
      destruct (Nat.ltb 0 (steps_parsed st)); lia.
    + set (m := length (next_unparsed_steps st)) in *.
      set (m' := length (next_unparsed_steps st')) in *.
      set (u := length (unparsed_steps st')).
      assert (Hm1 := rounds_needed_mono (u + m') (S u + m)).
      assert (Hm2 := rounds_needed_mono (u + m' - 1) (S u + m - 1)).
      destruct (Nat.ltb 0 (steps_parsed st)); lia.
Qed.

Lemma resolver_loop_ends (fuel : nat) (st : resolver_state) :
  rounds_left st < fuel -> exists r, resolver_loop fuel st = Some r.
Proof.
  revert st. induction fuel as [|fuel IH]; intros st Hlt; [lia|].
  cbn [resolver_loop].
  destruct (loop_body st) as [st'|e] eqn:Hb.
  - apply loop_body_rounds in Hb. destruct (IH st') as [r Hr]; [lia|].
    rewrite Hr. destruct (unparsed_steps st), (next_unparsed_steps st); eauto.
  - destruct (unparsed_steps st), (next_unparsed_steps st); eauto.
Qed.

(** X18. The resolver ends on every input, whatever [from_params] does:
    for [n] configured steps, [n + (n - 1) + ... + 1] rounds of the loop and
    one more are enough for it to return a graph or raise. *)
Lemma step_graph_from_params_ends (params : list (string * Params)) :
  exists r, step_graph_from_params params = Some r.
Proof.
  apply resolver_loop_ends. unfold rounds_left, resolver_start.
  cbn [unparsed_steps next_unparsed_steps steps_parsed length Nat.ltb Nat.leb].
  rewrite Nat.add_0_r. destruct params as [|kv r]; cbn [length rounds_needed].
  - simpl. lia.
  - replace (S (length r) - 1) with (length r) by lia. lia.
Qed.

(** ** The directory cache *)

Lemma with_suffix_last (l : list string) (n suffix : string) :
  with_suffix (l ++ [n]) suffix = l ++ [name_with_suffix n suffix].
Proof.
  induction l as [|c l IH]; [reflexivity|].
  cbn [app with_suffix]. rewrite IH.
  destruct l; reflexivity.
Qed.

Lemma temp_metadata_location_name (location : list string) :
  with_suffix (path_join location "metadata.json") ".temp"
  = path_join location "metadata.temp".
Proof. unfold path_join. rewrite with_suffix_last. reflexivity. Qed.

Lemma path_join_inj (p : list string) (a b : string) :
  path_join p a = path_join p b -> a = b.
Proof.
  unfold path_join. intros E. apply app_inv_head in E. congruence.
Qed.

Lemma mkdir_parents_beyond (todo done p : list string)
    (d d' : gmap (list string) fnode) :
  mkdir_parents d done todo = Ok d' ->
  length done + length todo < length p ->
  d' !! p = d !! p.
Proof.
  revert done d. induction todo as [|c r IH]; intros done d; cbn [mkdir_parents].
  - intros [= <-] _. reflexivity.
  - intros Hm Hlen. cbn [length] in Hlen.
    assert (Hne : done ++ [c] <> p).
    { intros <-. rewrite length_app in Hlen. cbn [length] in Hlen. lia. }
    destruct (d !! (done ++ [c])) as [[|f]|]; [| discriminate |].
    + apply IH in Hm; [exact Hm|]. rewrite length_app. cbn [length]. lia.
    + apply IH in Hm; [|rewrite length_app; cbn [length]; lia].
      rewrite Hm. apply lookup_insert_ne. exact Hne.
Qed.

Lemma mkdir_parents_child (location : list string) (n : string)
    (d d' : gmap (list string) fnode) :
  mkdir_parents d [] location = Ok d' ->
  d' !! path_join location n = d !! path_join location n.
Proof.
  intros Hm. eapply mkdir_parents_beyond; [exact Hm|].
  unfold path_join. rewrite length_app. cbn [length]. lia.
Qed.


(** What a completed [try] block has done. *)
Lemma DirectoryStepCache_write_commits (io : io_faults)
    (c c' : DirectoryStepCache) (s : step) (v : value)
    (location : list string) :
  DirectoryStepCache_write io c s v location
    (path_join location "metadata.temp")
    (path_join location "metadata.json") = (Ok tt, c') ->
  exists disk2,
    disk2 = <[path_join location "metadata.temp" := metadata_json s v]>
              (<[path_join location (payload_name (format_of s))
                 := File (Bytes (dumps (format_of s) v))]> (disk c))
    /\ disk c' = fs_rename (path_join location "metadata.temp")
                   (path_join location "metadata.json") disk2
    /\ disk c' !! path_join location "metadata.json" = Some (metadata_json s v)
    /\ disk c' !! path_join location "metadata.temp" = None.
Proof.
  unfold DirectoryStepCache_write.
  destruct (format_write io) as [|[part|]]; [|discriminate..].
  destruct (checksum_fails io); [discriminate|].
  destruct (open_temp_fails io); [discriminate|].
  destruct (json_dump_fails io); [discriminate|].
  destruct (weak_insert _ _ _) as [m|e]; [|discriminate].
  destruct (rename_fails io); [discriminate|].
  intros [= <-]. cbn [disk]. eexists. split; [reflexivity|].
  split; [reflexivity|].
  unfold fs_rename, metadata_json. rewrite lookup_insert_eq. split.
  - apply lookup_insert_eq.
  - rewrite lookup_insert_ne, lookup_delete_eq; [reflexivity|].
    intros E. apply path_join_inj in E. discriminate.
Qed.

(** C5 (as the code has it). In every successful put the metadata object
    is first written to the file [metadata.temp] of the Step's directory
    (the name [Path.with_suffix] gives: the suffix [.json] is replaced),
    and that file is then renamed, in one step, to [metadata.json].  The
    order is seen by stopping the same put at the rename: at that moment
    [metadata.temp] holds the metadata and [metadata.json] does not hold
    it yet, and the disk the successful put leaves is that disk with
    [metadata.temp] renamed to [metadata.json]. *)
Theorem put_writes_temp_then_renames (io : io_faults)
    (c c' : DirectoryStepCache) (s : step) (v : value) :
  DirectoryStepCache_setitem io c s v = (Ok tt, c') ->
  let location := DirectoryStepCache_path_for_step c s in
  let metadata_location := path_join location "metadata.json" in
  let temp_metadata_location := path_join location "metadata.temp" in
  with_suffix metadata_location ".temp" = temp_metadata_location
  /\ exists disk1 at_rename,
       mkdir_parents (disk c) [] location = Ok disk1
       /\ DirectoryStepCache_write (stop_at_rename io)
            {| dir := dir c; cache := cache c; disk := disk1 |} s v
            location temp_metadata_location metadata_location
          = (Raise (OSError "rename failed"), at_rename)
       /\ disk at_rename !! temp_metadata_location
          = Some (metadata_json s v)
       /\ disk at_rename !! metadata_location <> Some (metadata_json s v)
       /\ disk c' = fs_rename temp_metadata_location metadata_location
                      (disk at_rename)
       /\ disk c' !! metadata_location = Some (metadata_json s v)
       /\ disk c' !! temp_metadata_location = None.
Proof.
  intros Hput location metadata_location temp_metadata_location.
  split; [apply temp_metadata_location_name|].
  revert Hput. unfold DirectoryStepCache_setitem.
  fold location. fold metadata_location.
  destruct (mkdir_fails io); [discriminate|].
  destruct (mkdir_parents _ _ _) as [disk1|e]; [|discriminate].
  unfold path_exists.
  destruct (bool_decide (is_Some (disk1 !! metadata_location))) eqn:Hex;
    [discriminate|].
  apply bool_decide_eq_false_1 in Hex.
  unfold metadata_location at 1. rewrite temp_metadata_location_name.
  fold temp_metadata_location. fold metadata_location.
  destruct (DirectoryStepCache_write io _ _ _ _ _ _) as [[[]|e] c2] eqn:Hw;
    [|destruct (unlink_fails io); discriminate].
  intros [= <-]. exists disk1.
  revert Hw. unfold DirectoryStepCache_write.
  cbn [stop_at_rename format_write checksum_fails open_temp_fails
       json_dump_fails rename_fails dir cache disk].
  destruct (format_write io) as [|[part|]]; [|discriminate..].
  destruct (checksum_fails io); [discriminate|].
  destruct (open_temp_fails io); [discriminate|].
  destruct (json_dump_fails io); [discriminate|].
  destruct (weak_insert _ _ _) as [m|e]; [|discriminate].
  destruct (rename_fails io); [discriminate|].
  intros [= <-]. eexists. split; [reflexivity|]. split; [reflexivity|].
  cbn [disk]. split; [apply lookup_insert_eq|]. split.
  - rewrite lookup_insert_ne
      by (intros E; apply path_join_inj in E; discriminate).
    destruct (decide (path_join location (payload_name (format_of s))
                      = metadata_location)) as [E|E].
    + rewrite E, lookup_insert_eq. unfold metadata_json. discriminate.
    + rewrite lookup_insert_ne by exact E. intros Hin. apply Hex.
      rewrite Hin. eauto.
  - split; [reflexivity|]. split.
    + unfold fs_rename. rewrite lookup_insert_eq. apply lookup_insert_eq.
    + unfold fs_rename. rewrite lookup_insert_eq.
      rewrite lookup_insert_ne
        by (intros E; apply path_join_inj in E; discriminate).
      apply lookup_delete_eq.
Qed.

(** A committed slot satisfies [contains] whatever the garbage collector
    does to the in-memory layer. *)
Lemma committed_survives_collect (dead : gset string)
    (c : DirectoryStepCache) (s : step) :
  path_exists (disk c)
    (path_join (DirectoryStepCache_path_for_step c s) "metadata.json") = true ->
  DirectoryStepCache_contains (collect dead c) (VStep s) = true.
Proof.
  intros Hm. unfold DirectoryStepCache_contains.
  destruct (bool_decide _); [reflexivity|]. exact Hm.
Qed.

(** What a failed [try] block leaves behind: the commit marker is as it
    was. *)
Lemma DirectoryStepCache_write_fails (io : io_faults)
    (c c' : DirectoryStepCache) (s : step) (v : value)
    (location : list string) (e : pyexn) :
  payload_name (format_of s) <> "metadata.json" ->
  DirectoryStepCache_write io c s v location
    (path_join location "metadata.temp")
    (path_join location "metadata.json") = (Raise e, c') ->
  disk c' !! path_join location "metadata.json"
  = disk c !! path_join location "metadata.json".
Proof.
  intros Hp. unfold DirectoryStepCache_write.
  assert (Hpm : path_join location (payload_name (format_of s))
                <> path_join location "metadata.json").
  { intros E. apply path_join_inj in E. contradiction. }
  assert (Htm : path_join location "metadata.temp"
                <> path_join location "metadata.json").
  { intros E. apply path_join_inj in E. discriminate. }
  destruct (format_write io) as [|[part|]].
  - destruct (checksum_fails io);
      [intros [= _ <-]; cbn [disk]; rewrite lookup_insert_ne; auto|].
    destruct (open_temp_fails io);
      [intros [= _ <-]; cbn [disk]; rewrite lookup_insert_ne; auto|].
    destruct (json_dump_fails io);
      [intros [= _ <-]; cbn [disk]; rewrite !lookup_insert_ne; auto|].
    destruct (weak_insert _ _ _) as [m|e'];
      [|intros [= _ <-]; cbn [disk]; rewrite !lookup_insert_ne; auto].
    destruct (rename_fails io); [|discriminate].
    intros [= _ <-]; cbn [disk]; rewrite !lookup_insert_ne; auto.
  - intros [= _ <-]; cbn [disk]; rewrite lookup_insert_ne; auto.
  - intros [= _ <-]. reflexivity.
Qed.

(** The outcomes of a put. *)
Lemma put_outcomes (io : io_faults)
    (c c' : DirectoryStepCache) (s : step) (v : value)
    (r : pyresult unit) :
  payload_name (format_of s) <> "metadata.json" ->
  payload_name (format_of s) <> "metadata.temp" ->
  DirectoryStepCache_setitem io c s v = (r, c') ->
  let location := DirectoryStepCache_path_for_step c s in
  let metadata_location := path_join location "metadata.json" in
  let temp_metadata_location := path_join location "metadata.temp" in
  let payload := path_join location (payload_name (format_of s)) in
  (is_Some (disk c !! metadata_location) ->
   (exists e, r = Raise e)
   /\ (forall disk1,
         mkdir_fails io = false ->
         mkdir_parents (disk c) [] location = Ok disk1 ->
         r = Raise (ValueError (path_str metadata_location +:+
                                " already exists! Will not overwrite."))))
  /\ (forall e, r = Raise e ->
        disk c' !! metadata_location = disk c !! metadata_location)
  /\ (forall e disk1,
        r = Raise e ->
        mkdir_fails io = false ->
        mkdir_parents (disk c) [] location = Ok disk1 ->
        disk c !! metadata_location = None ->
        unlink_fails io = false ->
        disk c' !! temp_metadata_location = None
        /\ fst (DirectoryStepCache_write io
                  {| dir := dir c; cache := cache c; disk := disk1 |} s v
                  location temp_metadata_location metadata_location)
           = Raise e)
  /\ (r = Ok tt ->
        disk c !! metadata_location = None
        /\ disk c' !! metadata_location = Some (metadata_json s v)
        /\ disk c' !! payload = Some (File (Bytes (dumps (format_of s) v)))
        /\ disk c' !! temp_metadata_location = None).
Proof.
  intros Hp1 Hp2 Hput location metadata_location temp_metadata_location payload.
  revert Hput. unfold DirectoryStepCache_setitem.
  rewrite (temp_metadata_location_name (DirectoryStepCache_path_for_step c s)).
  fold location. fold metadata_location. fold temp_metadata_location.
  destruct (mkdir_fails io) eqn:Hmk.
  { intros [= <- <-]. repeat split; eauto; try discriminate; congruence. }
  destruct (mkdir_parents (disk c) [] location) as [disk1|e0] eqn:Hmp.
  2:{ intros [= <- <-]. repeat split; eauto; try discriminate; congruence. }
  pose proof (mkdir_parents_child location "metadata.json" _ _ Hmp) as Hsame.
  fold metadata_location in Hsame.
  unfold path_exists.
  destruct (bool_decide (is_Some (disk1 !! metadata_location))) eqn:Hex.
  { apply bool_decide_eq_true_1 in Hex.
    intros [= <- <-]. cbn [disk]. repeat split; eauto; try discriminate.
    all: intros; exfalso; rewrite Hsame in Hex; destruct Hex; congruence. }
  apply bool_decide_eq_false_1 in Hex.
  assert (Hnone : disk c !! metadata_location = None).
  { rewrite <- Hsame. destruct (disk1 !! metadata_location) eqn:E; [|reflexivity].
    exfalso. apply Hex. eauto. }
  destruct (DirectoryStepCache_write _ _ _ _ _ _ _) as [[[]|e] c2] eqn:Hw.
  - intros [= <- <-].
    pose proof Hw as Hw'.
    apply DirectoryStepCache_write_commits in Hw'
      as (disk2 & -> & Hd & Hm & Ht).
    split; [intros [x Hx]; congruence|].
    split; [discriminate|]. split; [discriminate|].
    intros _. split; [exact Hnone|]. split; [exact Hm|]. split; [|exact Ht].
    rewrite Hd. unfold fs_rename. rewrite lookup_insert_eq.
    rewrite lookup_insert_ne, lookup_delete_ne, lookup_insert_ne, lookup_insert_eq.
    + reflexivity.
    + intros E. apply path_join_inj in E. congruence.
    + intros E. apply path_join_inj in E. congruence.
    + intros E. apply path_join_inj in E. congruence.
  - pose proof (DirectoryStepCache_write_fails _ _ _ _ _ _ _ Hp1 Hw) as Hkeep.
    cbn [disk] in Hkeep. fold metadata_location in Hkeep.
    destruct (unlink_fails io) eqn:Hun.
    + intros [= <- <-].
      split; [intros [x Hx]; congruence|]. split; [intros e' _; congruence|].
      split; [intros e' d1 _ _ _ _ Hf; discriminate|]. discriminate.
    + intros [= <- <-]. cbn [disk].
      split; [intros [x Hx]; congruence|]. split.
      { intros e' _. rewrite lookup_delete_ne; [congruence|].
        intros E. apply path_join_inj in E. discriminate. }
      split; [|discriminate].
      intros e' d1 [= <-] _ [= <-] _ _. split; [apply lookup_delete_eq|].
      rewrite Hw. reflexivity.
Qed.

(** C2 (as the code has it). A put fails when [metadata.json] is already
    there.  A put that fails, for whatever reason, leaves [metadata.json]
    as it was; when the failure is in the write itself the exception of the
    write is the one that comes out and, unless the unlink fails too, no
    temporary metadata file stays behind.  A put that succeeds found no
    [metadata.json], and leaves one next to the fully written payload.  So
    [metadata.json] is there after a put attempt only if it was there
    before or the result has been fully serialized. *)
Theorem put_commit_marker_discipline (io : io_faults)
    (c c' : DirectoryStepCache) (s : step) (v : value)
    (r : pyresult unit) :
  payload_name (format_of s) <> "metadata.json" ->
  payload_name (format_of s) <> "metadata.temp" ->
  DirectoryStepCache_setitem io c s v = (r, c') ->
  let location := DirectoryStepCache_path_for_step c s in
  let metadata_location := path_join location "metadata.json" in
  let temp_metadata_location := path_join location "metadata.temp" in
  let payload := path_join location (payload_name (format_of s)) in
  (is_Some (disk c !! metadata_location) ->
   (exists e, r = Raise e)
   /\ (forall disk1,
         mkdir_fails io = false ->
         mkdir_parents (disk c) [] location = Ok disk1 ->
         r = Raise (ValueError (path_str metadata_location +:+
                                " already exists! Will not overwrite."))))
  /\ (forall e, r = Raise e ->
        disk c' !! metadata_location = disk c !! metadata_location)
  /\ (forall e disk1,
        r = Raise e ->
        mkdir_fails io = false ->
        mkdir_parents (disk c) [] location = Ok disk1 ->
        disk c !! metadata_location = None ->
        unlink_fails io = false ->
        disk c' !! temp_metadata_location = None
        /\ fst (DirectoryStepCache_write io
                  {| dir := dir c; cache := cache c; disk := disk1 |} s v
                  location temp_metadata_location metadata_location)
           = Raise e)
  /\ (r = Ok tt ->
        disk c !! metadata_location = None
        /\ disk c' !! metadata_location = Some (metadata_json s v)
        /\ disk c' !! payload = Some (File (Bytes (dumps (format_of s) v)))
        /\ disk c' !! temp_metadata_location = None)
  /\ (is_Some (disk c' !! metadata_location) ->
      is_Some (disk c !! metadata_location)
      \/ (r = Ok tt
          /\ disk c' !! payload = Some (File (Bytes (dumps (format_of s) v))))).
Proof.
  intros Hp1 Hp2 Hput location metadata_location temp_metadata_location payload.
  destruct (put_outcomes io c c' s v r Hp1 Hp2 Hput) as (H1 & H2 & H3 & H4).
  fold location metadata_location temp_metadata_location payload in H1, H2, H3, H4.
  split; [exact H1|]. split; [exact H2|]. split; [exact H3|].
  split; [exact H4|].
  intros Hafter. destruct r as [[]|e].
  - right. split; [reflexivity|]. exact (proj1 (proj2 (proj2 (H4 eq_refl)))).
  - left. rewrite <- (H2 e eq_refl). exact Hafter.
Qed.

(** ** Dry run *)


Lemma chain_from_iterable_names {A : Type}
    (w : A -> gset string -> list (string * bool) * gset string)
    (wv : A -> gset string -> list (step * bool) * gset string)
    (items : list A) :
  Forall (fun i => forall cs,
            w i cs = (map label (fst (wv i cs)), snd (wv i cs))) items ->
  forall cs,
    chain_from_iterable w items cs
    = (map label (fst (chain_from_iterable wv items cs)),
       snd (chain_from_iterable wv items cs)).
Proof.
  induction 1 as [|i r Hi _ IH]; intros cs; cbn [chain_from_iterable];
    [reflexivity|].
  rewrite Hi. destruct (wv i cs) as [o1 cs1]. cbn [fst snd].
  rewrite IH. destruct (chain_from_iterable wv r cs1) as [o2 cs2].
  cbn [fst snd]. rewrite map_app. reflexivity.
Qed.

(** [dry_run] yields the names of the Steps [dry_run_visits] records. *)
Lemma dry_run_names :
  (forall v cs,
     find_steps_from_inputs v cs
     = (map label (fst (visits_from_inputs v cs)),
        snd (visits_from_inputs v cs)))
  /\ (forall s cs,
        dry_run s cs
        = (map label (fst (dry_run_visits s cs)), snd (dry_run_visits s cs))).
Proof.
  apply value_step_mutind; try (intros; reflexivity).
  - intros l Hl cs. cbn [find_steps_from_inputs visits_from_inputs].
    apply chain_from_iterable_names. exact Hl.
  - intros l Hl cs. cbn [find_steps_from_inputs visits_from_inputs].
    apply chain_from_iterable_names. exact Hl.
  - intros l Hl cs. cbn [find_steps_from_inputs visits_from_inputs].
    apply chain_from_iterable_names.
    eapply List.Forall_impl; [|exact Hl]. intros [k v] [_ Hv]. exact Hv.
  - intros s Hs cs. exact (Hs cs).
  - intros a kw Hkw cs. cbn [dry_run dry_run_visits].
    destruct (decide _); [reflexivity|].
    rewrite (chain_from_iterable_names
               (fun '(_, v) => find_steps_from_inputs v)
               (fun '(_, v) => visits_from_inputs v)).
    + destruct (chain_from_iterable _ kw cs) as [o c']. cbn [fst snd].
      rewrite map_app. reflexivity.
    + eapply List.Forall_impl; [|exact Hkw]. intros [k v] Hv. exact Hv.
Qed.


Lemma false_steps_app (v1 v2 : list (step * bool)) :
  false_steps (v1 ++ v2) = false_steps v1 ++ false_steps v2.
Proof. unfold false_steps. rewrite List.filter_app, map_app. reflexivity. Qed.

Lemma added_app (v1 v2 : list (step * bool)) :
  added (v1 ++ v2) = added v1 ∪ added v2.
Proof.
  unfold added. rewrite false_steps_app, map_app.
  apply set_eq. intros u. rewrite list_to_set_app. reflexivity.
Qed.

Lemma added_nil : added [] = ∅.
Proof. reflexivity. Qed.

Lemma added_cons_true (t : step) (r : list (step * bool)) :
  added ((t, true) :: r) = added r.
Proof. reflexivity. Qed.

Lemma added_cons_false (t : step) (r : list (step * bool)) :
  added ((t, false) :: r) = {[uid t]} ∪ added r.
Proof. reflexivity. Qed.

Lemma flags_consistent_app (v1 v2 : list (step * bool)) (cs : gset string) :
  flags_consistent cs (v1 ++ v2)
  <-> flags_consistent cs v1 /\ flags_consistent (cs ∪ added v1) v2.
Proof.
  revert cs. induction v1 as [|[t [|]] r IH]; intros cs; cbn [app flags_consistent].
  - rewrite added_nil, (right_id_L ∅ (∪)).
    split; [intros Hv; split; [exact I | exact Hv] | intros [_ Hv]; exact Hv].
  - rewrite IH, added_cons_true. apply and_assoc.
  - rewrite IH, added_cons_false, (assoc_L (∪)). apply and_assoc.
Qed.

Lemma elem_of_added (u : string) (vis : list (step * bool)) :
  u ∈ added vis <-> In u (map uid (false_steps vis)).
Proof. unfold added. rewrite elem_of_list_to_set. apply list_elem_of_In. Qed.

Lemma flags_consistent_nodup (vis : list (step * bool)) (cs : gset string) :
  flags_consistent cs vis ->
  List.NoDup (map uid (false_steps vis))
  /\ forall u, In u (map uid (false_steps vis)) -> u ∉ cs.
Proof.
  revert cs. induction vis as [|[t [|]] r IH]; intros cs; cbn [flags_consistent].
  - intros _. split; [constructor|]. intros u [].
  - intros [_ Hr]. apply IH in Hr. exact Hr.
  - intros [Ht Hr]. destruct (IH _ Hr) as [Hnd Hout].
    change (false_steps ((t, false) :: r)) with (t :: false_steps r).
    cbn [map]. split.
    + constructor; [|exact Hnd].
      intros Hin. apply (Hout _ Hin).
      apply elem_of_union_r, elem_of_singleton. reflexivity.
    + intros u [<-|Hu]; [exact Ht|].
      intros Hcs. apply (Hout _ Hu). apply elem_of_union_l, Hcs.
Qed.

(** *** Reachable Steps *)

Lemma flat_map_length_le {A B : Type} (f : A -> list B) (l : list A) (x : A) :
  In x l -> length (f x) <= length (flat_map f l).
Proof.
  induction l as [|y r IH]; [intros []|].
  cbn [flat_map]. rewrite length_app. intros [->|Hin]; [lia|].
  specialize (IH Hin). lia.
Qed.

(** A Step reachable from another one reaches no more Steps than it. *)
Lemma steps_of_length :
  (forall v t, In t (steps_in v) -> length (steps_of t) <= length (steps_in v))
  /\ (forall s t, In t (steps_of s) -> length (steps_of t) <= length (steps_of s)).
Proof.
  apply value_step_mutind; try (intros; cbn [steps_in] in *; contradiction).
  - intros l Hl t Hin. cbn [steps_in] in *.
    apply in_flat_map in Hin as (x & Hx & Ht).
    rewrite List.Forall_forall in Hl. specialize (Hl x Hx t Ht).
    pose proof (flat_map_length_le steps_in l x Hx). lia.
  - intros l Hl t Hin. cbn [steps_in] in *.
    apply in_flat_map in Hin as (x & Hx & Ht).
    rewrite List.Forall_forall in Hl. specialize (Hl x Hx t Ht).
    pose proof (flat_map_length_le steps_in l x Hx). lia.
  - intros l Hl t Hin. cbn [steps_in] in *.
    apply in_flat_map in Hin as ([k x] & Hx & Ht).
    rewrite List.Forall_forall in Hl. destruct (Hl _ Hx) as [_ Hv].
    specialize (Hv t Ht).
    pose proof (flat_map_length_le (fun '(_, v) => steps_in v) l (k, x) Hx).
    cbn [fst snd] in *. cbn beta iota in *. lia.
  - intros s Hs t Hin. exact (Hs t Hin).
  - intros a kw Hkw t Hin. cbn [steps_of] in Hin.
    destruct Hin as [<-|Hin]; [lia|].
    apply in_flat_map in Hin as ([k x] & Hx & Ht).
    rewrite List.Forall_forall in Hkw. specialize (Hkw _ Hx t Ht).
    pose proof (flat_map_length_le (fun '(_, v) => steps_in v) kw (k, x) Hx).
    cbn [steps_of length]. cbn [fst snd] in *. cbn beta iota in *. lia.
Qed.

Section Walk.

(** The Steps of the graph, and what it means that fingerprints tell them
    apart: Steps with the same unique id reach Steps with the same
    unique ids. *)
Variable U : step -> Prop.

Hypothesis faithful :
  forall t1 t2, U t1 -> U t2 -> uid t1 = uid t2 ->
                map uid (steps_of t1) = map uid (steps_of t2).

(** A set is closed when, with a Step, it holds all the Steps reachable
    from it. *)
Definition closed (cs : gset string) : Prop :=
  forall t, U t -> uid t ∈ cs -> forall t', In t' (steps_of t) -> uid t' ∈ cs.

(** What a walk over a part of the graph with reachable Steps [R] does. *)
Definition walk_spec (w : gset string -> list (step * bool) * gset string)
    (R : list step) : Prop :=
  forall cs,
    (forall t, In t R -> U t) ->
    flags_consistent cs (fst (w cs))
    /\ snd (w cs) = cs ∪ added (fst (w cs))
    /\ (forall t f, In (t, f) (fst (w cs)) -> In t R)
    /\ (closed cs ->
        closed (snd (w cs)) /\ forall t, In t R -> uid t ∈ snd (w cs)).

Lemma chain_from_iterable_spec {A : Type}
    (w : A -> gset string -> list (step * bool) * gset string)
    (reach : A -> list step) (items : list A) :
  Forall (fun i => walk_spec (w i) (reach i)) items ->
  walk_spec (chain_from_iterable w items) (flat_map reach items).
Proof.
  induction 1 as [|i r Hi _ IH]; intros cs HU; cbn [chain_from_iterable flat_map].
  - cbn [fst snd flags_consistent]. rewrite added_nil, (right_id_L ∅ (∪)).
    repeat split; auto; intros ? [].
  - destruct (Hi cs) as (Hc1 & He1 & Hr1 & Hcl1).
    { intros t Ht. apply HU. cbn [flat_map]. apply in_or_app. auto. }
    destruct (w i cs) as [o1 cs1]. cbn [fst snd] in *.
    destruct (IH cs1) as (Hc2 & He2 & Hr2 & Hcl2).
    { intros t Ht. apply HU. cbn [flat_map]. apply in_or_app. auto. }
    destruct (chain_from_iterable w r cs1) as [o2 cs2]. cbn [fst snd] in *.
    subst cs1 cs2. split; [|split; [|split]].
    + apply flags_consistent_app. auto.
    + rewrite added_app, (assoc_L (∪)). reflexivity.
    + intros t f Hin. apply in_app_or in Hin as [Hin|Hin]; apply in_or_app;
        [left; eapply Hr1 | right; eapply Hr2]; exact Hin.
    + intros Hcl. destruct (Hcl1 Hcl) as [Hcl1' Hin1].
      destruct (Hcl2 Hcl1') as [Hcl2' Hin2]. split; [exact Hcl2'|].
      intros t Ht. apply in_app_or in Ht as [Ht|Ht]; [|auto].
      apply elem_of_union_l. auto.
Qed.

Lemma dry_run_visits_spec :
  (forall v, walk_spec (visits_from_inputs v) (steps_in v))
  /\ (forall s, walk_spec (dry_run_visits s) (steps_of s)).
Proof using faithful.
  apply value_step_mutind.
  1-4, 8:
    (intros; intros cs HU; cbn [visits_from_inputs steps_in fst snd flags_consistent];
     rewrite added_nil, (right_id_L ∅ (∪));
     repeat split; auto; intros ? []).
  - intros l Hl. cbn [visits_from_inputs steps_in].
    apply chain_from_iterable_spec. exact Hl.
  - intros l Hl. cbn [visits_from_inputs steps_in].
    apply chain_from_iterable_spec. exact Hl.
  - intros l Hl. cbn [visits_from_inputs steps_in].
    apply chain_from_iterable_spec.
    eapply List.Forall_impl; [|exact Hl]. intros [k v] [_ Hv]. exact Hv.
  - intros s Hs. exact Hs.
  - intros a kw Hkw cs HU.
    assert (Hch : walk_spec
                    (chain_from_iterable (fun '(_, v) => visits_from_inputs v) kw)
                    (flat_map (fun '(_, v) => steps_in v) kw)).
    { apply chain_from_iterable_spec.
      eapply List.Forall_impl; [|exact Hkw]. intros [k v] Hv. exact Hv. }
    cbn [dry_run_visits].
    set (s := MkStep a kw) in *.
    assert (Hself : U s) by (apply HU; cbn [steps_of]; left; reflexivity).
    destruct (decide (uid s ∈ cs)) as [Hin|Hout]; cbn [fst snd].
    + cbn [flags_consistent]. rewrite added_cons_true, added_nil, (right_id_L ∅ (∪)).
      split; [auto|]. split; [reflexivity|]. split.
      * intros t f [[= <- <-]|[]]. cbn [steps_of]. left. reflexivity.
      * intros Hcl. split; [exact Hcl|]. intros t Ht. exact (Hcl s Hself Hin t Ht).
    + destruct (Hch cs) as (Hc & He & Hr & Hcl).
      { intros t Ht. apply HU. cbn [steps_of]. right. exact Ht. }
      destruct (chain_from_iterable _ kw cs) as [o cs1]. cbn [fst snd] in *.
      subst cs1.
      assert (Hfresh : uid s ∉ cs ∪ added o).
      { intros Hu. apply elem_of_union in Hu as [Hu|Hu]; [contradiction|].
        apply elem_of_added in Hu. apply in_map_iff in Hu as (t & Htu & Ht).
        unfold false_steps in Ht. apply in_map_iff in Ht as ([t' f] & <- & Ht).
        apply filter_In in Ht as [Ht _]. cbn [fst] in *.
        apply Hr in Ht.
        assert (HUt : U t') by (apply HU; cbn [steps_of]; right; exact Ht).
        pose proof (faithful t' s HUt Hself Htu) as Hsame.
        apply (f_equal (@length _)) in Hsame. rewrite !length_map in Hsame.
        apply in_flat_map in Ht as ([k x] & Hx & Ht).
        pose proof (proj1 steps_of_length x t' Ht) as Hle.
        pose proof (flat_map_length_le (fun '(_, v) => steps_in v) kw (k, x) Hx) as Hle2.
        subst s. cbn [steps_of length] in Hsame. cbn beta iota in *. lia. }
      split; [|split; [|split]].
      * apply flags_consistent_app. split; [exact Hc|].
        cbn [flags_consistent]. auto.
      * rewrite added_app, added_cons_false, added_nil, (right_id_L ∅ (∪)), (assoc_L (∪)).
        reflexivity.
      * intros t f Ht. apply in_app_or in Ht as [Ht|[[= <- <-]|[]]].
        -- cbn [steps_of]. right. eapply Hr, Ht.
        -- cbn [steps_of]. left. reflexivity.
      * intros Hcl0. destruct (Hcl Hcl0) as [Hcl1 Hin1].
        assert (Hcover : forall t, In t (steps_of s) ->
                                   uid t ∈ cs ∪ added o ∪ {[uid s]}).
        { intros t [<-|Ht].
          - apply elem_of_union_r, elem_of_singleton. reflexivity.
          - apply elem_of_union_l. auto. }
        split; [|exact Hcover].
        intros t HUt Htin t' Ht'.
        apply elem_of_union in Htin as [Htin|Htin].
        -- apply elem_of_union_l. exact (Hcl1 t HUt Htin t' Ht').
        -- apply elem_of_singleton in Htin.
           pose proof (faithful t s HUt Hself Htin) as Hsame.
           assert (Hu : In (uid t') (map uid (steps_of s))).
           { rewrite <- Hsame. apply in_map. exact Ht'. }
           apply in_map_iff in Hu as (t'' & <- & Ht'').
           apply Hcover. exact Ht''.
Qed.

End Walk.


Lemma fingerprints_faithful_spec (root t1 t2 : step) :
  fingerprints_faithful root = true ->
  In t1 (steps_of root) -> In t2 (steps_of root) -> uid t1 = uid t2 ->
  map uid (steps_of t1) = map uid (steps_of t2).
Proof.
  unfold fingerprints_faithful. rewrite forallb_forall.
  intros Hall H1 H2 Hu. specialize (Hall t1 H1).
  rewrite forallb_forall in Hall. specialize (Hall t2 H2).
  rewrite Hu, String.eqb_refl in Hall. cbn [implb] in Hall.
  apply bool_decide_eq_true_1 in Hall. exact Hall.
Qed.

(** C4 (as the code has it). In a graph whose fingerprints do not
    collide, a full walk of [dry_run] from a root emits a pair with flag
    true exactly when it arrives at a Step that is in the set at that
    moment (it was there at the start, or has been emitted before in this
    walk), and a pair with flag false otherwise, after which the Step is in
    the set: no Step is emitted with flag false twice.  Started with the
    empty set, the walk emits every Step reachable from the root exactly
    once with flag false.  A root that is in the set at the start is
    emitted with flag true and nothing below it is walked. *)
Theorem dry_run_emits_false_once (root : step) (cached_steps : gset string) :
  fingerprints_faithful root = true ->
  let vis := fst (dry_run_visits root cached_steps) in
  let cached' := snd (dry_run_visits root cached_steps) in
  dry_run root cached_steps = (map label vis, cached')
  /\ flags_consistent cached_steps vis
  /\ List.NoDup (map uid (false_steps vis))
  /\ cached' = cached_steps ∪ added vis
  /\ (cached_steps = ∅ ->
      forall t, In t (steps_of root) ->
                count_occ string_dec (map uid (false_steps vis)) (uid t) = 1)
  /\ (uid root ∈ cached_steps ->
      dry_run root cached_steps = ([(name (attrs root), true)], cached_steps)).
Proof.
  intros Hf vis cached'.
  destruct (proj2 (dry_run_visits_spec
                     (fun t => In t (steps_of root))
                     (fun t1 t2 => fingerprints_faithful_spec root t1 t2 Hf))
                  root cached_steps (fun t Ht => Ht))
    as (Hc & He & _ & Hcl).
  fold vis in Hc, He, Hcl. fold cached' in He, Hcl.
  destruct (flags_consistent_nodup vis cached_steps Hc) as [Hnd _].
  split; [apply (proj2 dry_run_names)|].
  split; [exact Hc|]. split; [exact Hnd|]. split; [exact He|]. split.
  - intros -> t Ht.
    destruct Hcl as [_ Hcover].
    { intros t0 _ Hin. apply not_elem_of_empty in Hin. contradiction. }
    specialize (Hcover t Ht). rewrite He in Hcover.
    apply elem_of_union in Hcover as [Hcover|Hcover];
      [apply not_elem_of_empty in Hcover; contradiction|].
    apply elem_of_added in Hcover.
    apply (count_occ_In string_dec) in Hcover.
    pose proof (proj1 (NoDup_count_occ string_dec _) Hnd (uid t)). lia.
  - intros Hin. destruct root as [a kw]. cbn [dry_run attrs].
    destruct (decide _) as [_|Hout]; [reflexivity | contradiction].
Qed.

(** * Further properties *)

(** ** The memory cache *)

(** X1. What a lookup finds after a put, in one equation: the value just
    put when the Step put is to be cached and the Step looked up has its
    unique id, and otherwise whatever the cache held before.  A put of a
    Step with [cache_results] false changes nothing, and a put never touches
    the entry of a Step with another id. *)
Theorem MemoryStepCache_get_after_put (c : MemoryStepCache) (s t : step)
    (v : value) :
  MemoryStepCache_getitem (snd (MemoryStepCache_setitem c s v)) t
  = (if cache_results (attrs s) && String.eqb (uid t) (uid s)
     then Ok v
     else fst (MemoryStepCache_getitem c t),
     snd (MemoryStepCache_setitem c s v)).
Proof.
  unfold MemoryStepCache_setitem, MemoryStepCache_getitem.
  destruct (cache_results (attrs s)); cbn [snd andb mem_cache].
  - destruct (String.eqb_spec (uid t) (uid s)) as [E|E].
    + rewrite E, lookup_insert_eq. reflexivity.
    + rewrite lookup_insert_ne by congruence.
      destruct (mem_cache c !! uid t); reflexivity.
  - destruct (mem_cache c !! uid t); reflexivity.
Qed.

(** X2. [len] counts the cached results: a put adds one exactly when the
    Step is to be cached and was not in the cache; putting again for a
    Step that is there replaces its value and leaves the count. *)
Theorem MemoryStepCache_len_after_put (c : MemoryStepCache) (s : step)
    (v : value) :
  MemoryStepCache_len (snd (MemoryStepCache_setitem c s v))
  = if cache_results (attrs s) && negb (MemoryStepCache_contains c (VStep s))
    then S (MemoryStepCache_len c)
    else MemoryStepCache_len c.
Proof.
  unfold MemoryStepCache_setitem, MemoryStepCache_len, MemoryStepCache_contains.
  destruct (cache_results (attrs s)); cbn [snd andb mem_cache]; [|reflexivity].
  rewrite map_size_insert.
  destruct (mem_cache c !! uid s) as [x|] eqn:E.
  - rewrite bool_decide_eq_true_2 by eauto. reflexivity.
  - rewrite bool_decide_eq_false_2 by (intros [x Hx]; discriminate).
    reflexivity.
Qed.

(** X3. The membership test of [MemoryStepCache] answers what the generic
    test of the base class would answer with this cache's lookup: true
    when the lookup returns, false when it raises [KeyError]; neither
    raises nor changes the cache. *)
Theorem MemoryStepCache_contains_generic (c : MemoryStepCache) (o : value) :
  StepCache_contains c o = (Ok (MemoryStepCache_contains c o), c).
Proof.
  destruct o; try reflexivity.
  unfold StepCache_contains.
  change (getitem c s) with (MemoryStepCache_getitem c s).
  unfold MemoryStepCache_getitem, MemoryStepCache_contains.
  destruct (mem_cache c !! uid s) as [x|] eqn:E.
  - rewrite bool_decide_eq_true_2 by eauto. reflexivity.
  - rewrite bool_decide_eq_false_2 by (intros [x Hx]; discriminate).
    reflexivity.
Qed.

(** ** The directory cache: what a put leaves for a later lookup *)

Lemma DirectoryStepCache_write_dir (io : io_faults) (c c' : DirectoryStepCache)
    (s : step) (v : value) (loc tmp meta : list string) (r : pyresult unit) :
  DirectoryStepCache_write io c s v loc tmp meta = (r, c') -> dir c' = dir c.
Proof.
  unfold DirectoryStepCache_write.
  destruct (format_write io) as [|[part|]]; [|intros [= _ <-]; reflexivity..].
  destruct (checksum_fails io); [intros [= _ <-]; reflexivity|].
  destruct (open_temp_fails io); [intros [= _ <-]; reflexivity|].
  destruct (json_dump_fails io); [intros [= _ <-]; reflexivity|].
  destruct (weak_insert _ _ _) as [m|e]; [|intros [= _ <-]; reflexivity].
  destruct (rename_fails io); intros [= _ <-]; reflexivity.
Qed.

Lemma DirectoryStepCache_setitem_dir (io : io_faults)
    (c c' : DirectoryStepCache) (s : step) (v : value) (r : pyresult unit) :
  DirectoryStepCache_setitem io c s v = (r, c') -> dir c' = dir c.
Proof.
  unfold DirectoryStepCache_setitem.
  destruct (mkdir_fails io); [intros [= _ <-]; reflexivity|].
  destruct (mkdir_parents _ _ _) as [disk1|e]; [|intros [= _ <-]; reflexivity].
  destruct (path_exists _ _); [intros [= _ <-]; reflexivity|].
  destruct (DirectoryStepCache_write _ _ _ _ _ _ _) as [[[]|e] c2] eqn:Hw;
    apply DirectoryStepCache_write_dir in Hw; cbn [dir] in Hw.
  - intros [= _ <-]. exact Hw.
  - destruct (unlink_fails io); intros [= _ <-]; exact Hw.
Qed.

(** A put that succeeds has stored the value in the weak layer, which
    takes only objects that can be weakly referenced. *)
Lemma DirectoryStepCache_setitem_ok (io : io_faults)
    (c c' : DirectoryStepCache) (s : step) (v : value) :
  DirectoryStepCache_setitem io c s v = (Ok tt, c') ->
  cache c' !! uid s = Some v /\ weakly_referenceable v = true.
Proof.
  unfold DirectoryStepCache_setitem.
  destruct (mkdir_fails io); [discriminate|].
  destruct (mkdir_parents _ _ _) as [disk1|e]; [|discriminate].
  destruct (path_exists _ _); [discriminate|].
  destruct (DirectoryStepCache_write _ _ _ _ _ _ _) as [[[]|e] c2] eqn:Hw.
  - intros [= <-]. split.
    + apply DirectoryStepCache_write_ok in Hw. apply Hw.
    + revert Hw. unfold DirectoryStepCache_write, weak_insert.
      destruct (format_write io) as [|[part|]]; [|discriminate..].
      destruct (checksum_fails io); [discriminate|].
      destruct (open_temp_fails io); [discriminate|].
      destruct (json_dump_fails io); [discriminate|].
      destruct (weakly_referenceable v); [reflexivity|discriminate].
  - destruct (unlink_fails io); discriminate.
Qed.

(** X4. Round trip through the weak layer: after a successful put, and
    for as long as the value that was put is alive (whatever else the
    garbage collector has dropped from the weak layer), the lookup of the
    same Step returns that value, without reading the disk and without
    changing the cache. *)
Theorem DirectoryStepCache_get_after_put (io : io_faults)
    (c c' : DirectoryStepCache) (s : step) (v : value) (dead : gset string) :
  DirectoryStepCache_setitem io c s v = (Ok tt, c') ->
  uid s ∉ dead ->
  DirectoryStepCache_getitem (collect dead c') s = (Ok v, collect dead c').
Proof.
  intros Hput Halive. apply DirectoryStepCache_setitem_ok in Hput as [Hl _].
  unfold DirectoryStepCache_getitem.
  assert (Hc : cache (collect dead c') !! uid s = Some v).
  { cbn [collect cache]. apply map_lookup_filter_Some. split; [exact Hl|].
    exact Halive. }
  rewrite Hc. reflexivity.
Qed.

(** X5. Round trip through the disk: when the Format reads back what it
    wrote, a lookup after a successful put returns the value that was put
    whatever the garbage collector has dropped from the weak layer in
    between, and never writes to the disk. *)
Theorem DirectoryStepCache_get_after_collect (io : io_faults)
    (c c' : DirectoryStepCache) (s : step) (v : value) (dead : gset string) :
  payload_name (format_of s) <> "metadata.json" ->
  payload_name (format_of s) <> "metadata.temp" ->
  loads (format_of s) (dumps (format_of s) v) = Ok v ->
  DirectoryStepCache_setitem io c s v = (Ok tt, c') ->
  fst (DirectoryStepCache_getitem (collect dead c') s) = Ok v
  /\ disk (snd (DirectoryStepCache_getitem (collect dead c') s)) = disk c'.
Proof.
  intros Hp1 Hp2 Hrt Hput.
  destruct (put_outcomes io c c' s v (Ok tt) Hp1 Hp2 Hput)
    as (_ & _ & _ & H4).
  destruct (H4 eq_refl) as (_ & Hmeta & Hpay & _).
  pose proof (DirectoryStepCache_setitem_dir _ _ _ _ _ _ Hput) as Hdir.
  apply DirectoryStepCache_setitem_ok in Hput as [Hl Hwr].
  unfold DirectoryStepCache_getitem.
  destruct (cache (collect dead c') !! uid s) as [x|] eqn:Hx.
  - cbn [collect cache] in Hx. apply map_lookup_filter_Some in Hx as [Hx _].
    rewrite Hl in Hx. injection Hx as <-. split; reflexivity.
  - unfold DirectoryStepCache_contains. rewrite Hx.
    rewrite bool_decide_eq_false_2 by (intros [y Hy]; discriminate).
    unfold DirectoryStepCache_path_for_step, path_exists, format_read.
    cbn [collect dir disk]. rewrite Hdir.
    unfold DirectoryStepCache_path_for_step in Hmeta, Hpay.
    rewrite Hmeta, Hpay.
    rewrite bool_decide_eq_true_2 by eauto. cbn [negb].
    rewrite Hrt. unfold weak_insert. rewrite Hwr. split; reflexivity.
Qed.

(** X6. With the directory cache, a Step that is to be cached and is not
    in the cache yet cannot deliver [None], a bool, a number, a string, a
    list or a dict, nor an iterator: the put stores the result in a
    [WeakValueDictionary], which refuses such objects with a [TypeError],
    and an iterator has been copied into a list by then. *)
Theorem directory_result_is_weakly_referenceable (io : io_faults) (s : step)
    (st st' : exec_state DirectoryStepCache) (v : value) :
  cache_results (attrs s) = true ->
  DirectoryStepCache_contains (st_cache st) (VStep s) = false ->
  @result DirectoryStepCache (DirectoryStepCache_ops io) s st = (Ok v, st') ->
  match v with
  | VNone | VBool _ | VInt _ | VStr _ | VList _ | VDict _ | VIter _ => False
  | _ => True
  end.
Proof.
  intros Hcr Hnot. destruct s as [a kw]. cbn [result]. cbn [attrs] in Hcr.
  change (contains (st_cache st) (VStep (MkStep a kw)))
    with (DirectoryStepCache_contains (st_cache st) (VStep (MkStep a kw))).
  rewrite Hnot.
  destruct (traverse _ kw st) as [[kw'|e] st1]; [|discriminate].
  destruct (_run_with_temp_dir _ _ _) as [[[v0|e] self'] st2]; [|discriminate].
  rewrite Hcr.
  change (setitem (st_cache st2) (MkStep a kw) (materialize v0))
    with (DirectoryStepCache_setitem io (st_cache st2) (MkStep a kw)
            (materialize v0)).
  destruct (DirectoryStepCache_setitem _ _ _ _) as [[[]|e] c'] eqn:Hs;
    [|discriminate].
  apply DirectoryStepCache_setitem_ok in Hs as [_ Hwr].
  intros [= <- _]. destruct v0; cbn in Hwr |- *; try discriminate; exact I.
Qed.

(** X22. The membership test of [DirectoryStepCache] looks for the commit
    marker and never reads the payload.  Where it says no, the generic
    test of the base class says no as well, without touching the cache;
    and where the generic test says yes, it says yes.  (It can say yes
    where the lookup, and with it the generic test, fails on the
    payload.) *)
Theorem DirectoryStepCache_contains_generic (io : io_faults)
    (c : DirectoryStepCache) (o : value) :
  (DirectoryStepCache_contains c o = false ->
   @StepCache_contains DirectoryStepCache (DirectoryStepCache_ops io) c o
   = (Ok false, c))
  /\ (fst (@StepCache_contains DirectoryStepCache (DirectoryStepCache_ops io)
             c o) = Ok true ->
      DirectoryStepCache_contains c o = true).
Proof.
  destruct o; try (split; [reflexivity|discriminate]).
  unfold StepCache_contains.
  change (@getitem DirectoryStepCache (DirectoryStepCache_ops io) c s)
    with (DirectoryStepCache_getitem c s).
  unfold DirectoryStepCache_getitem.
  destruct (DirectoryStepCache_contains c (VStep s)) eqn:Hin.
  - split; [discriminate|reflexivity].
  - assert (Hx : cache c !! uid s = None).
    { revert Hin. unfold DirectoryStepCache_contains.
      destruct (cache c !! uid s) as [x|]; [|reflexivity].
      rewrite bool_decide_eq_true_2 by eauto. discriminate. }
    rewrite Hx. cbn [negb fst]. split; [reflexivity|discriminate].
Qed.

(** ** The directory cache: counting and framing *)

Lemma filter_length_perm {A : Type} (f : A -> bool) (l l' : list A) :
  l ≡ₚ l' -> length (List.filter f l) = length (List.filter f l').
Proof.
  induction 1 as [|x l l' _ IH|x y l|l l' l'' _ IH1 _ IH2]; cbn [List.filter].
  - reflexivity.
  - destruct (f x); cbn [length]; congruence.
  - destruct (f x), (f y); reflexivity.
  - congruence.
Qed.

Lemma commits_delete_other (d p : list string) (m : gmap (list string) fnode) :
  is_metadata_of d p = false -> commits d (delete p m) = commits d m.
Proof.
  intros Hp. destruct (m !! p) as [x|] eqn:E.
  - unfold commits.
    rewrite <- (filter_length_perm _ _ _ (map_to_list_delete m p x E)).
    cbn [List.filter fst]. rewrite Hp. reflexivity.
  - rewrite delete_id by exact E. reflexivity.
Qed.

Lemma commits_insert_other (d p : list string) (n : fnode)
    (m : gmap (list string) fnode) :
  is_metadata_of d p = false -> commits d (<[p := n]> m) = commits d m.
Proof.
  intros Hp. rewrite <- insert_delete_eq.
  rewrite <- (commits_delete_other d p m Hp). unfold commits.
  rewrite (filter_length_perm _ _ _
             (map_to_list_insert (delete p m) p n (lookup_delete_eq m p))).
  cbn [List.filter fst]. rewrite Hp. reflexivity.
Qed.

Lemma commits_insert_new (d p : list string) (n : fnode)
    (m : gmap (list string) fnode) :
  is_metadata_of d p = true -> m !! p = None ->
  commits d (<[p := n]> m) = S (commits d m).
Proof.
  intros Hp E. unfold commits.
  rewrite (filter_length_perm _ _ _ (map_to_list_insert m p n E)).
  cbn [List.filter fst]. rewrite Hp. reflexivity.
Qed.

Lemma is_metadata_of_length (d p : list string) :
  is_metadata_of d p = true -> length p = length d + 2.
Proof.
  unfold is_metadata_of. destruct (rev p) as [|n [|x rd]] eqn:E; try discriminate.
  intros H. apply andb_true_iff in H as [_ H].
  apply bool_decide_eq_true_1 in H. subst d.
  rewrite <- (length_rev p), E, length_rev. cbn [length]. lia.
Qed.

Lemma is_metadata_of_slot (d : list string) (u n : string) :
  is_metadata_of d (path_join (path_join d u) n) = String.eqb n "metadata.json".
Proof.
  unfold is_metadata_of, path_join. rewrite !rev_app_distr. cbn [rev app].
  rewrite rev_involutive, bool_decide_eq_true_2 by reflexivity.
  apply andb_true_r.
Qed.

Lemma mkdir_parents_commits (d todo done : list string)
    (m m' : gmap (list string) fnode) :
  mkdir_parents m done todo = Ok m' ->
  length done + length todo <= length d + 1 ->
  commits d m' = commits d m.
Proof.
  revert done m. induction todo as [|c r IH]; intros done m; cbn [mkdir_parents].
  - intros [= <-] _. reflexivity.
  - intros Hm Hlen. cbn [length] in Hlen.
    assert (Hp : is_metadata_of d (done ++ [c]) = false).
    { destruct (is_metadata_of d (done ++ [c])) eqn:E; [|reflexivity].
      apply is_metadata_of_length in E. rewrite length_app in E.
      cbn [length] in E. lia. }
    destruct (m !! (done ++ [c])) as [[|f]|]; [| discriminate |].
    + apply IH in Hm; [exact Hm|]. rewrite length_app. cbn [length]. lia.
    + apply IH in Hm; [|rewrite length_app; cbn [length]; lia].
      rewrite Hm. apply commits_insert_other. exact Hp.
Qed.

(** X7. [len] counts commits: a put that succeeds adds exactly one to the
    number of [metadata.json] files the cache finds under its directory,
    and a put that fails, at whatever point, adds none (the payload and
    the temporary file it may leave behind are not counted). *)
Theorem DirectoryStepCache_len_after_put (io : io_faults)
    (c c' : DirectoryStepCache) (s : step) (v : value) (r : pyresult unit) :
  payload_name (format_of s) <> "metadata.json" ->
  DirectoryStepCache_setitem io c s v = (r, c') ->
  DirectoryStepCache_len c'
  = match r with
    | Ok _ => S (DirectoryStepCache_len c)
    | Raise _ => DirectoryStepCache_len c
    end.
Proof.
  intros Hp Hput.
  pose proof (DirectoryStepCache_setitem_dir _ _ _ _ _ _ Hput) as Hdir.
  change (commits (dir c') (disk c')
          = match r with
            | Ok _ => S (commits (dir c) (disk c))
            | Raise _ => commits (dir c) (disk c)
            end).
  rewrite Hdir. clear Hdir. revert Hput. unfold DirectoryStepCache_setitem.
  rewrite temp_metadata_location_name.
  unfold DirectoryStepCache_path_for_step.
  set (loc := path_join (dir c) (uid s)).
  assert (Hpay : is_metadata_of (dir c)
                   (path_join loc (payload_name (format_of s))) = false).
  { unfold loc. rewrite is_metadata_of_slot. apply String.eqb_neq. exact Hp. }
  assert (Htmp : is_metadata_of (dir c) (path_join loc "metadata.temp") = false).
  { unfold loc. rewrite is_metadata_of_slot. reflexivity. }
  assert (Hmeta : is_metadata_of (dir c) (path_join loc "metadata.json") = true).
  { unfold loc. rewrite is_metadata_of_slot. reflexivity. }
  destruct (mkdir_fails io); [intros [= <- <-]; reflexivity|].
  destruct (mkdir_parents (disk c) [] loc) as [disk1|e] eqn:Hmk;
    [|intros [= <- <-]; reflexivity].
  assert (H1 : commits (dir c) disk1 = commits (dir c) (disk c)).
  { eapply mkdir_parents_commits; [exact Hmk|].
    unfold loc, path_join. rewrite length_app. cbn [length]. lia. }
  unfold path_exists.
  destruct (bool_decide (is_Some (disk1 !! path_join loc "metadata.json")))
    eqn:Hex; [intros [= <- <-]; exact H1|].
  apply bool_decide_eq_false_1 in Hex.
  assert (Hnone : disk1 !! path_join loc "metadata.json" = None).
  { destruct (disk1 !! path_join loc "metadata.json") eqn:E; [|reflexivity].
    exfalso. apply Hex. eauto. }
  unfold DirectoryStepCache_write. cbn [dir cache disk].
  destruct (format_write io) as [|[part|]].
  - destruct (checksum_fails io).
    { destruct (unlink_fails io); intros [= <- <-]; cbn [disk];
        rewrite ?commits_delete_other, ?commits_insert_other by assumption;
        exact H1. }
    destruct (open_temp_fails io).
    { destruct (unlink_fails io); intros [= <- <-]; cbn [disk];
        rewrite ?commits_delete_other, ?commits_insert_other by assumption;
        exact H1. }
    destruct (json_dump_fails io).
    { destruct (unlink_fails io); intros [= <- <-]; cbn [disk];
        rewrite ?commits_delete_other, ?commits_insert_other by assumption;
        exact H1. }
    destruct (weak_insert _ _ _) as [m|e].
    2:{ destruct (unlink_fails io); intros [= <- <-]; cbn [disk];
        rewrite ?commits_delete_other, ?commits_insert_other by assumption;
        exact H1. }
    destruct (rename_fails io).
    { destruct (unlink_fails io); intros [= <- <-]; cbn [disk];
        rewrite ?commits_delete_other, ?commits_insert_other by assumption;
        exact H1. }
    intros [= <- <-]. cbn [disk]. unfold fs_rename.
    rewrite lookup_insert_eq.
    rewrite commits_insert_new.
    + rewrite commits_delete_other, !commits_insert_other by assumption.
      rewrite H1. reflexivity.
    + exact Hmeta.
    + rewrite lookup_delete_ne
        by (intros E; apply path_join_inj in E; discriminate).
      rewrite !lookup_insert_ne
        by (intros E; apply path_join_inj in E; congruence).
      exact Hnone.
  - destruct (unlink_fails io); intros [= <- <-]; cbn [disk];
      rewrite ?commits_delete_other, ?commits_insert_other by assumption;
      exact H1.
  - destruct (unlink_fails io); intros [= <- <-]; cbn [disk];
      rewrite ?commits_delete_other, ?commits_insert_other by assumption;
      exact H1.
Qed.

(** The [try] block of a put writes only into the directory of the Step,
    and only to the entry of the Step in the weak layer. *)
Lemma DirectoryStepCache_write_elsewhere (io : io_faults)
    (c c' : DirectoryStepCache) (s : step) (v : value)
    (loc p : list string) (r : pyresult unit) :
  DirectoryStepCache_write io c s v loc (path_join loc "metadata.temp")
    (path_join loc "metadata.json") = (r, c') ->
  (forall n, path_join loc n <> p) ->
  disk c' !! p = disk c !! p.
Proof.
  intros Hw Hp. revert Hw. unfold DirectoryStepCache_write.
  destruct (format_write io) as [|[part|]].
  - destruct (checksum_fails io);
      [intros [= _ <-]; cbn [disk]; rewrite ?lookup_insert_ne by apply Hp;
       reflexivity|].
    destruct (open_temp_fails io);
      [intros [= _ <-]; cbn [disk]; rewrite ?lookup_insert_ne by apply Hp;
       reflexivity|].
    destruct (json_dump_fails io);
      [intros [= _ <-]; cbn [disk]; rewrite ?lookup_insert_ne by apply Hp;
       reflexivity|].
    destruct (weak_insert _ _ _) as [m|e];
      [|intros [= _ <-]; cbn [disk]; rewrite ?lookup_insert_ne by apply Hp;
        reflexivity].
    destruct (rename_fails io);
      [intros [= _ <-]; cbn [disk]; rewrite ?lookup_insert_ne by apply Hp;
       reflexivity|].
    intros [= _ <-]. cbn [disk]. unfold fs_rename. rewrite lookup_insert_eq.
    rewrite lookup_insert_ne by apply Hp.
    rewrite lookup_delete_ne by apply Hp.
    rewrite !lookup_insert_ne by apply Hp. reflexivity.
  - intros [= _ <-]. cbn [disk]. rewrite lookup_insert_ne by apply Hp.
    reflexivity.
  - intros [= _ <-]. reflexivity.
Qed.

Lemma DirectoryStepCache_write_cache (io : io_faults)
    (c c' : DirectoryStepCache) (s : step) (v : value)
    (loc tmp meta : list string) (r : pyresult unit) (k : string) :
  DirectoryStepCache_write io c s v loc tmp meta = (r, c') ->
  uid s <> k -> cache c' !! k = cache c !! k.
Proof.
  intros Hw Hk. revert Hw. unfold DirectoryStepCache_write, weak_insert.
  destruct (format_write io) as [|[part|]]; [|intros [= _ <-]; reflexivity..].
  destruct (checksum_fails io); [intros [= _ <-]; reflexivity|].
  destruct (open_temp_fails io); [intros [= _ <-]; reflexivity|].
  destruct (json_dump_fails io); [intros [= _ <-]; reflexivity|].
  destruct (weakly_referenceable v); [|intros [= _ <-]; reflexivity].
  destruct (rename_fails io); intros [= _ <-]; cbn [cache];
    apply lookup_insert_ne; exact Hk.
Qed.

(** A put, however it ends, has at most created the directory of the Step
    and written inside it. *)
Lemma DirectoryStepCache_setitem_elsewhere (io : io_faults)
    (c c' : DirectoryStepCache) (s : step) (v : value) (r : pyresult unit) :
  DirectoryStepCache_setitem io c s v = (r, c') ->
  (forall k, uid s <> k -> cache c' !! k = cache c !! k)
  /\ (disk c' = disk c
      \/ exists disk1,
           mkdir_parents (disk c) [] (DirectoryStepCache_path_for_step c s)
           = Ok disk1
           /\ forall p,
                (forall n,
                   path_join (DirectoryStepCache_path_for_step c s) n <> p) ->
                disk c' !! p = disk1 !! p).
Proof.
  unfold DirectoryStepCache_setitem. rewrite temp_metadata_location_name.
  set (loc := DirectoryStepCache_path_for_step c s).
  destruct (mkdir_fails io); [intros [= _ <-]; auto|].
  destruct (mkdir_parents (disk c) [] loc) as [disk1|e] eqn:Hmk;
    [|intros [= _ <-]; auto].
  destruct (path_exists _ _).
  { intros [= _ <-]. cbn [cache disk]. split; [reflexivity|].
    right. exists disk1. split; reflexivity. }
  destruct (DirectoryStepCache_write _ _ _ _ _ _ _) as [r2 c2] eqn:Hw.
  pose proof (fun p => DirectoryStepCache_write_elsewhere _ _ _ _ _ _ p _ Hw)
    as Hd.
  pose proof (fun k => DirectoryStepCache_write_cache _ _ _ _ _ _ _ _ _ k Hw)
    as Hc.
  cbn [cache disk] in Hd, Hc.
  destruct r2 as [[]|e].
  - intros [= _ <-]. split; [exact Hc|]. right. exists disk1.
    split; [reflexivity|exact Hd].
  - destruct (unlink_fails io); intros [= _ <-]; cbn [cache disk].
    + split; [exact Hc|]. right. exists disk1. split; [reflexivity|exact Hd].
    + split; [exact Hc|]. right. exists disk1. split; [reflexivity|].
      intros p Hp. rewrite lookup_delete_ne by apply Hp. apply Hd, Hp.
Qed.

(** X8. A put for one Step leaves every Step with another unique id
    alone, however the put ends: whether such a Step is in the cache, and
    what a lookup of it returns, are as before. *)
Theorem DirectoryStepCache_put_frame (io : io_faults)
    (c c' : DirectoryStepCache) (s t : step) (v : value) (r : pyresult unit) :
  uid t <> uid s ->
  DirectoryStepCache_setitem io c s v = (r, c') ->
  DirectoryStepCache_contains c' (VStep t)
  = DirectoryStepCache_contains c (VStep t)
  /\ fst (DirectoryStepCache_getitem c' t)
     = fst (DirectoryStepCache_getitem c t).
Proof.
  intros Hne Hput.
  pose proof (DirectoryStepCache_setitem_dir _ _ _ _ _ _ Hput) as Hdir.
  apply DirectoryStepCache_setitem_elsewhere in Hput as [Hc Hd].
  assert (Hdisk : forall n,
            disk c' !! path_join (path_join (dir c) (uid t)) n
            = disk c !! path_join (path_join (dir c) (uid t)) n).
  { intros n. destruct Hd as [->|(disk1 & Hmk & Hd)]; [reflexivity|].
    rewrite Hd.
    - eapply mkdir_parents_beyond; [exact Hmk|].
      unfold DirectoryStepCache_path_for_step, path_join.
      rewrite !length_app. cbn [length]. lia.
    - intros n' E. unfold DirectoryStepCache_path_for_step, path_join in E.
      apply app_inj_tail in E as [E _]. apply app_inj_tail in E as [_ E].
      congruence. }
  assert (Hin : DirectoryStepCache_contains c' (VStep t)
                = DirectoryStepCache_contains c (VStep t)).
  { unfold DirectoryStepCache_contains, DirectoryStepCache_path_for_step,
      path_exists.
    rewrite Hdir, Hc by congruence. rewrite Hdisk. reflexivity. }
  split; [exact Hin|].
  unfold DirectoryStepCache_getitem. rewrite Hin, Hc by congruence.
  destruct (cache c !! uid t); [reflexivity|].
  destruct (negb _); [reflexivity|].
  unfold format_read, DirectoryStepCache_path_for_step.
  rewrite Hdir, Hdisk.
  destruct (disk c !! _) as [[|[b|j]]|]; try reflexivity.
  destruct (loads _ _) as [x|e]; [|reflexivity].
  unfold weak_insert. destruct (weakly_referenceable x); reflexivity.
Qed.

(** ** The directory cache: opening the directory again *)

Lemma mkdir_parents_keeps (todo done p : list string) (x : fnode)
    (m m' : gmap (list string) fnode) :
  mkdir_parents m done todo = Ok m' -> m !! p = Some x -> m' !! p = Some x.
Proof.
  revert done m. induction todo as [|c r IH]; intros done m; cbn [mkdir_parents].
  - intros [= <-] Hp. exact Hp.
  - intros Hm Hp.
    destruct (m !! (done ++ [c])) as [[|f]|] eqn:E; [| discriminate |].
    + eapply IH; [exact Hm|exact Hp].
    + eapply IH; [exact Hm|]. rewrite lookup_insert_ne; [exact Hp|].
      intros E'. rewrite E' in E. congruence.
Qed.

Lemma mkdir_parents_all_dirs (todo done : list string)
    (m m' : gmap (list string) fnode) :
  mkdir_parents m done todo = Ok m' -> all_dirs m' done todo.
Proof.
  revert done m. induction todo as [|c r IH]; intros done m;
    cbn [mkdir_parents all_dirs]; [intros _; exact I|].
  intros Hm.
  destruct (m !! (done ++ [c])) as [[|f]|] eqn:E; [| discriminate |].
  - split; [|eapply IH; exact Hm].
    eapply mkdir_parents_keeps; [exact Hm|exact E].
  - split; [|eapply IH; exact Hm].
    eapply mkdir_parents_keeps; [exact Hm|]. apply lookup_insert_eq.
Qed.

Lemma all_dirs_mkdir (todo done : list string) (m : gmap (list string) fnode) :
  all_dirs m done todo -> mkdir_parents m done todo = Ok m.
Proof.
  revert done. induction todo as [|c r IH]; intros done;
    cbn [mkdir_parents all_dirs]; [reflexivity|].
  intros [E Hr]. rewrite E. apply IH. exact Hr.
Qed.

Lemma all_dirs_app (t1 t2 done : list string) (m : gmap (list string) fnode) :
  all_dirs m done (t1 ++ t2) -> all_dirs m done t1.
Proof.
  revert done. induction t1 as [|c r IH]; intros done; cbn [app all_dirs];
    [intros _; exact I|].
  intros [E Hr]. split; [exact E|]. apply IH. exact Hr.
Qed.

Lemma all_dirs_agree (todo done : list string)
    (m m' : gmap (list string) fnode) :
  (forall p, length p <= length done + length todo -> m' !! p = m !! p) ->
  all_dirs m done todo -> all_dirs m' done todo.
Proof.
  revert done. induction todo as [|c r IH]; intros done Hag;
    cbn [all_dirs]; [intros _; exact I|].
  intros [E Hr]. split.
  - rewrite Hag; [exact E|]. rewrite length_app. cbn [length]. lia.
  - apply IH; [|exact Hr]. intros p Hp. apply Hag.
    rewrite length_app in Hp. cbn [length] in Hp |- *. lia.
Qed.

(** A lookup that has to go to the disk. *)
Lemma DirectoryStepCache_getitem_from_disk (c : DirectoryStepCache) (s : step)
    (b : string) (v : value) (n : fnode) :
  cache c !! uid s = None ->
  disk c !! path_join (DirectoryStepCache_path_for_step c s) "metadata.json"
  = Some n ->
  disk c !! path_join (DirectoryStepCache_path_for_step c s)
              (payload_name (format_of s))
  = Some (File (Bytes b)) ->
  loads (format_of s) b = Ok v ->
  weakly_referenceable v = true ->
  DirectoryStepCache_getitem c s
  = (Ok v, {| dir := dir c; cache := <[uid s := v]> (cache c);
              disk := disk c |}).
Proof.
  intros Hc Hm Hp Hl Hw.
  unfold DirectoryStepCache_getitem, DirectoryStepCache_contains, path_exists,
    format_read, weak_insert.
  rewrite Hc, Hm, Hp, Hl, Hw.
  rewrite bool_decide_eq_false_2 by (intros [y Hy]; discriminate).
  rewrite bool_decide_eq_true_2 by eauto. reflexivity.
Qed.

(** X9. The cache survives the process: after a successful put, a new
    [DirectoryStepCache] opened on the same directory finds the directory
    in place and leaves the disk as it is; it starts with an empty weak
    layer, contains the Step and, when the Format reads back what it
    wrote, its lookup returns the value that was put. *)
Theorem DirectoryStepCache_reopen (io : io_faults)
    (c c' : DirectoryStepCache) (s : step) (v : value) :
  payload_name (format_of s) <> "metadata.json" ->
  payload_name (format_of s) <> "metadata.temp" ->
  loads (format_of s) (dumps (format_of s) v) = Ok v ->
  DirectoryStepCache_setitem io c s v = (Ok tt, c') ->
  let reopened := {| dir := dir c; cache := ∅; disk := disk c' |} in
  DirectoryStepCache_init (dir c) (disk c') = Ok reopened
  /\ DirectoryStepCache_contains reopened (VStep s) = true
  /\ fst (DirectoryStepCache_getitem reopened s) = Ok v.
Proof.
  intros Hp1 Hp2 Hrt Hput reopened.
  destruct (put_outcomes io c c' s v (Ok tt) Hp1 Hp2 Hput)
    as (_ & _ & _ & H4).
  destruct (H4 eq_refl) as (Hnone & Hmeta & Hpay & _).
  pose proof (DirectoryStepCache_setitem_ok _ _ _ _ _ Hput) as [_ Hwr].
  apply DirectoryStepCache_setitem_elsewhere in Hput as [_ Hd].
  split; [|split].
  - unfold DirectoryStepCache_init.
    destruct Hd as [E|(disk1 & Hmk & Hd)]; [rewrite E in Hmeta; congruence|].
    rewrite (all_dirs_mkdir (dir c) [] (disk c')); [reflexivity|].
    apply (all_dirs_agree (dir c) [] disk1).
    + intros p Hlen. apply Hd. intros n <-.
      unfold DirectoryStepCache_path_for_step, path_join in Hlen.
      rewrite !length_app in Hlen. cbn [length] in Hlen. lia.
    + apply mkdir_parents_all_dirs in Hmk.
      apply (all_dirs_app (dir c) [uid s]). exact Hmk.
  - assert (Hm : disk reopened
                   !! path_join (DirectoryStepCache_path_for_step reopened s)
                        "metadata.json" = Some (metadata_json s v))
      by exact Hmeta.
    unfold DirectoryStepCache_contains, path_exists. rewrite Hm.
    destruct (bool_decide (is_Some (cache reopened !! uid s)));
      [reflexivity|].
    apply bool_decide_eq_true_2. eauto.
  - rewrite (DirectoryStepCache_getitem_from_disk reopened s
               (dumps (format_of s) v) v (metadata_json s v)).
    + reflexivity.
    + apply lookup_empty.
    + exact Hmeta.
    + exact Hpay.
    + exact Hrt.
    + exact Hwr.
Qed.

(** X23. With the directory cache too, a second call of [result] returns
    the value of the first.  When the first call computed the result of a
    Step that is to be cached and put it, and the Format reads back what it
    wrote, a later call returns that value whatever the garbage collector
    has dropped from the weak layer in between (the value is then read
    from the disk); it enters no [run], and leaves the world and the disk
    as they are. *)
Theorem directory_result_again_same_value (io : io_faults) (s : step)
    (st st' : exec_state DirectoryStepCache) (v : value)
    (dead : gset string) :
  cache_results (attrs s) = true ->
  DirectoryStepCache_contains (st_cache st) (VStep s) = false ->
  payload_name (format_of s) <> "metadata.json" ->
  payload_name (format_of s) <> "metadata.temp" ->
  loads (format_of s) (dumps (format_of s) v) = Ok v ->
  @result DirectoryStepCache (DirectoryStepCache_ops io) s st = (Ok v, st') ->
  let later := with_cache (collect dead (st_cache st')) st' in
  fst (@result DirectoryStepCache (DirectoryStepCache_ops io) s later) = Ok v
  /\ run_log (snd (@result DirectoryStepCache (DirectoryStepCache_ops io)
                     s later)) = run_log st'
  /\ st_world (snd (@result DirectoryStepCache (DirectoryStepCache_ops io)
                      s later)) = st_world st'
  /\ disk (st_cache (snd (@result DirectoryStepCache
                            (DirectoryStepCache_ops io) s later)))
     = disk (st_cache st').
Proof.
  intros Hcr Hnot Hp1 Hp2 Hrt Hres later.
  assert (Hput : exists c0,
            DirectoryStepCache_setitem io c0 s v = (Ok tt, st_cache st')).
  { revert Hres. destruct s as [a kw]. cbn [result]. cbn [attrs] in Hcr.
    change (contains (st_cache st) (VStep (MkStep a kw)))
      with (DirectoryStepCache_contains (st_cache st) (VStep (MkStep a kw))).
    rewrite Hnot.
    destruct (traverse _ kw st) as [[kw'|e] st1]; [|discriminate].
    destruct (_run_with_temp_dir _ _ _) as [[[v0|e] self'] st2];
      [|discriminate].
    rewrite Hcr.
    change (setitem (st_cache st2) (MkStep a kw) (materialize v0))
      with (DirectoryStepCache_setitem io (st_cache st2) (MkStep a kw)
              (materialize v0)).
    destruct (DirectoryStepCache_setitem _ _ _ _) as [[[]|e] c'] eqn:Hs;
      [|discriminate].
    intros [= <- <-]. exists (st_cache st2). exact Hs. }
  destruct Hput as [c0 Hput].
  destruct (put_outcomes io c0 (st_cache st') s v (Ok tt) Hp1 Hp2 Hput)
    as (_ & _ & _ & H4).
  destruct (H4 eq_refl) as (_ & Hmeta & Hpay & _).
  pose proof (DirectoryStepCache_setitem_dir _ _ _ _ _ _ Hput) as Hdir.
  apply DirectoryStepCache_setitem_ok in Hput as [Hl Hwr].
  unfold DirectoryStepCache_path_for_step in Hmeta, Hpay.
  rewrite <- Hdir in Hmeta, Hpay.
  assert (Hin : @contains DirectoryStepCache (DirectoryStepCache_ops io)
                  (st_cache later) (VStep s) = true).
  { apply committed_survives_collect.
    unfold path_exists, DirectoryStepCache_path_for_step. rewrite Hmeta.
    apply bool_decide_eq_true_2. eauto. }
  rewrite (@result_when_cached DirectoryStepCache (DirectoryStepCache_ops io)
             s later Hin).
  cbn [fst snd with_cache run_log st_world st_cache later].
  split; [|split; [reflexivity|split; [reflexivity|]]].
  - change (fst (DirectoryStepCache_getitem (collect dead (st_cache st')) s)
            = Ok v).
    destruct (cache (collect dead (st_cache st')) !! uid s) as [x|] eqn:Hx.
    + unfold DirectoryStepCache_getitem. rewrite Hx. cbn [fst].
      cbn [collect cache] in Hx.
      apply map_lookup_filter_Some in Hx as [Hx _]. congruence.
    + rewrite (DirectoryStepCache_getitem_from_disk
                 (collect dead (st_cache st')) s (dumps (format_of s) v) v
                 (metadata_json s v) Hx Hmeta Hpay Hrt Hwr).
      reflexivity.
  - change (disk (snd (DirectoryStepCache_getitem
                         (collect dead (st_cache st')) s))
            = disk (st_cache st')).
    destruct (cache (collect dead (st_cache st')) !! uid s) as [x|] eqn:Hx.
    + unfold DirectoryStepCache_getitem. rewrite Hx. reflexivity.
    + rewrite (DirectoryStepCache_getitem_from_disk
                 (collect dead (st_cache st')) s (dumps (format_of s) v) v
                 (metadata_json s v) Hx Hmeta Hpay Hrt Hwr).
      reflexivity.
Qed.

(** ** Materialization with the memory cache *)

Lemma traverse_snd_rel {A B S : Type} (R : S -> S -> Prop)
    (f : A -> S -> pyresult B * S) (items : list A) :
  (forall st, R st st) ->
  (forall a b c, R a b -> R b c -> R a c) ->
  Forall (fun i => forall st, R st (snd (f i st))) items ->
  forall st, R st (snd (traverse f items st)).
Proof.
  intros Hr Ht. induction 1 as [|i r Hi _ IH]; intros st; cbn [traverse].
  - apply Hr.
  - specialize (Hi st). destruct (f i st) as [[b|e] st1]; cbn [snd] in Hi |- *.
    + specialize (IH st1).
      destruct (traverse f r st1) as [[bs|e] st2]; cbn [snd] in IH |- *;
        eapply Ht; eauto.
    + exact Hi.
Qed.

Lemma run_with_temp_dir_cache {C} `{StepCache C} (self : step)
    (kw : list (string * value)) (st : exec_state C) :
  st_cache (snd (_run_with_temp_dir self kw st)) = st_cache st.
Proof.
  unfold _run_with_temp_dir.
  destruct (temp_dir_for_run (attrs self)); [reflexivity|].
  destruct (path_for_step (st_cache st) self) as [step_dir|].
  - destruct (mkdir _ _) as [[[]|e] w]; [|reflexivity].
    destruct (run _ _ _) as [r w1]. reflexivity.
  - destruct (TemporaryDirectory _ _ _) as [[d|e] w]; [|reflexivity].
    destruct (run _ _ _) as [r w1]. destruct (cleanup _ _) as [rc w2].
    reflexivity.
Qed.

Lemma cache_grows_traverse {A B : Type}
    (f : A -> exec_state MemoryStepCache
         -> pyresult B * exec_state MemoryStepCache)
    (items : list A) :
  Forall (fun i => forall st, cache_grows st (snd (f i st))) items ->
  forall st, cache_grows st (snd (traverse f items st)).
Proof.
  apply traverse_snd_rel.
  - intros st. unfold cache_grows. reflexivity.
  - intros a b c Hab Hbc. unfold cache_grows in Hab, Hbc |- *.
    etransitivity; eassumption.
Qed.

Lemma cache_grows_spec :
  (forall v (st : exec_state MemoryStepCache),
     cache_grows st (snd (_replace_steps_with_results v st)))
  /\ (forall s (st : exec_state MemoryStepCache),
        cache_grows st (snd (result s st))).
Proof.
  apply value_step_mutind;
    try (intros; cbn [_replace_steps_with_results snd]; unfold cache_grows;
         reflexivity).
  - intros l Hl st. cbn [_replace_steps_with_results].
    pose proof (cache_grows_traverse _ l Hl st) as Ht.
    destruct (traverse _ l st) as [rl st1]. exact Ht.
  - intros l Hl st. cbn [_replace_steps_with_results].
    match goal with
    | |- context [traverse ?f l st] =>
        assert (Ht : cache_grows st (snd (traverse f l st)))
    end.
    { apply cache_grows_traverse. eapply List.Forall_impl; [|exact Hl].
      intros i Hi st0. specialize (Hi st0).
      destruct (_replace_steps_with_results i st0) as [[b|e] st2];
        cbn [set_add]; [destruct (py_hashable b)|]; exact Hi. }
    destruct (traverse _ l st) as [rl st1]. exact Ht.
  - intros l Hl st. cbn [_replace_steps_with_results].
    assert (Ht := cache_grows_traverse
                    (fun '(k, v) st =>
                       with_key k (_replace_steps_with_results v st)) l).
    destruct (traverse _ l st) as [rl st1] eqn:E.
    specialize (Ht ltac:(eapply List.Forall_impl; [|exact Hl];
                         intros [k v] [_ Hv] st0; specialize (Hv st0);
                         cbn [snd] in Hv;
                         destruct (_replace_steps_with_results v st0)
                           as [[b|e] st2]; exact Hv) st).
    rewrite E in Ht. exact Ht.
  - intros s Hs st. exact (Hs st).
  - intros a kw Hkw st. cbn [result].
    change (contains (st_cache st) (VStep (MkStep a kw)))
      with (MemoryStepCache_contains (st_cache st) (VStep (MkStep a kw))).
    unfold MemoryStepCache_contains.
    destruct (mem_cache (st_cache st) !! uid (MkStep a kw)) as [x|] eqn:Hx.
    + rewrite bool_decide_eq_true_2 by eauto.
      change (getitem (st_cache st) (MkStep a kw))
        with (MemoryStepCache_getitem (st_cache st) (MkStep a kw)).
      unfold MemoryStepCache_getitem. rewrite Hx. unfold cache_grows.
      reflexivity.
    + rewrite bool_decide_eq_false_2 by (intros [y Hy]; discriminate).
      match goal with
      | |- context [traverse ?f kw st] =>
          assert (Ht : cache_grows st (snd (traverse f kw st)))
      end.
      { apply cache_grows_traverse. eapply List.Forall_impl; [|exact Hkw].
        intros [k v] Hv st0. specialize (Hv st0). cbn [snd] in Hv.
        change (cache_grows st0
                  (snd (with_key k (_replace_steps_with_results v st0)))).
        destruct (_replace_steps_with_results v st0) as [[b|e] st2];
          exact Hv. }
      destruct (traverse _ kw st) as [rk st1]. cbn [snd] in Ht.
      destruct rk as [kw'|e]; [|exact Ht].
      pose proof (run_with_temp_dir_cache (MkStep a kw) kw' st1) as Hc.
      destruct (_run_with_temp_dir _ _ _) as [[r self'] st2].
      cbn [snd] in Hc.
      assert (H2 : cache_grows st st2).
      { unfold cache_grows in Ht |- *. rewrite Hc. exact Ht. }
      destruct r as [v|e]; [|exact H2].
      destruct (cache_results a) eqn:Hcr; [|exact H2].
      change (setitem (st_cache st2) (MkStep a kw) (materialize v))
        with (MemoryStepCache_setitem (st_cache st2) (MkStep a kw)
                (materialize v)).
      unfold MemoryStepCache_setitem. cbn [attrs]. rewrite Hcr.
      unfold cache_grows. cbn [snd with_cache st_cache mem_cache].
      apply insert_subseteq_r; [exact Hx|exact H2].
Qed.

(** X10. A materialization never drops or replaces a result the memory
    cache holds: whatever [result] does, and whether it returns or raises,
    every entry of the cache it started with is still there afterwards,
    with the same value. *)
Theorem result_keeps_cached_results (s : step)
    (st : exec_state MemoryStepCache) :
  mem_cache (st_cache st) ⊆ mem_cache (st_cache (snd (result s st))).
Proof. exact (proj2 cache_grows_spec s st). Qed.

(** *** What [dry_run] reports and what [result] runs *)

Lemma runs_as_reported_nothing (st : exec_state MemoryStepCache) :
  runs_as_reported st st ([], dom (mem_cache (st_cache st))).
Proof.
  exists []. rewrite app_nil_r. split; [reflexivity|]. split; reflexivity.
Qed.

Lemma runs_as_reported_traverse {A B : Type}
    (f : A -> exec_state MemoryStepCache
         -> pyresult B * exec_state MemoryStepCache)
    (walk : A -> gset string -> list (step * bool) * gset string)
    (items : list A) :
  Forall (fun i => forall st b st',
            f i st = (Ok b, st') ->
            runs_as_reported st st'
              (walk i (dom (mem_cache (st_cache st))))) items ->
  forall st bs st',
    traverse f items st = (Ok bs, st') ->
    runs_as_reported st st'
      (chain_from_iterable walk items (dom (mem_cache (st_cache st)))).
Proof.
  induction 1 as [|i r Hi _ IH]; intros st bs st';
    cbn [traverse chain_from_iterable].
  - intros [= _ <-]. apply runs_as_reported_nothing.
  - destruct (f i st) as [[b|e] st1] eqn:E1; [|discriminate].
    destruct (traverse f r st1) as [[bs1|e] st2] eqn:E2; [|discriminate].
    intros [= _ <-].
    destruct (Hi _ _ _ E1) as (n1 & L1 & M1 & D1).
    destruct (IH _ _ _ E2) as (n2 & L2 & M2 & D2).
    destruct (walk i _) as [o1 cs1]. cbn [fst snd] in M1, D1.
    rewrite D1 in M2, D2.
    destruct (chain_from_iterable walk r cs1) as [o2 cs2].
    cbn [fst snd] in M2, D2 |- *.
    exists (n1 ++ n2). split; [rewrite L2, L1, app_assoc; reflexivity|].
    split; [|exact D2].
    cbn [fst]. rewrite map_app, M1, M2, false_steps_app. reflexivity.
Qed.

Lemma runs_as_reported_spec :
  (forall v,
     (forall t, In t (steps_in v) -> cache_results (attrs t) = true) ->
     forall (st : exec_state MemoryStepCache) r st',
       _replace_steps_with_results v st = (Ok r, st') ->
       runs_as_reported st st'
         (visits_from_inputs v (dom (mem_cache (st_cache st)))))
  /\ (forall s,
        (forall t, In t (steps_of s) -> cache_results (attrs t) = true) ->
        forall (st : exec_state MemoryStepCache) r st',
          result s st = (Ok r, st') ->
          runs_as_reported st st'
            (dry_run_visits s (dom (mem_cache (st_cache st))))).
Proof.
  apply value_step_mutind;
    try (intros; match goal with
                 | H : _ = (Ok _, _) |- _ =>
                     cbn [_replace_steps_with_results] in H;
                     injection H as _ <-
                 end; apply runs_as_reported_nothing).
  - intros l Hl Hall st r st'.
    cbn [_replace_steps_with_results visits_from_inputs].
    destruct (traverse _ l st) as [[l'|e] st1] eqn:E; [|discriminate].
    intros [= _ <-]. eapply runs_as_reported_traverse; [|exact E].
    apply List.Forall_forall. intros i Hi.
    apply (proj1 (List.Forall_forall _ _) Hl i Hi).
    intros t Ht. apply Hall. cbn [steps_in]. apply in_flat_map. eauto.
  - intros l Hl Hall st r st'.
    cbn [_replace_steps_with_results visits_from_inputs].
    destruct (traverse _ l st) as [[l'|e] st1] eqn:E; [|discriminate].
    intros [= _ <-]. eapply runs_as_reported_traverse; [|exact E].
    apply List.Forall_forall. intros i Hi st0 b st0'.
    destruct (_replace_steps_with_results i st0) as [[y|e] st2] eqn:E0;
      cbn [set_add]; [|discriminate].
    destruct (py_hashable y); [|discriminate]. intros [= _ <-].
    eapply (proj1 (List.Forall_forall _ _) Hl i Hi); [|exact E0].
    intros t Ht. apply Hall. cbn [steps_in]. apply in_flat_map. eauto.
  - intros l Hl Hall st r st'.
    cbn [_replace_steps_with_results visits_from_inputs].
    destruct (traverse _ l st) as [[l'|e] st1] eqn:E; [|discriminate].
    intros [= _ <-].
    eapply (runs_as_reported_traverse _ (fun '(_, v) => visits_from_inputs v));
      [|exact E].
    apply List.Forall_forall. intros [k v] Hi st0 b st0'.
    destruct (_replace_steps_with_results v st0) as [[y|e] st2] eqn:E0;
      cbn [with_key]; [|discriminate].
    intros [= _ <-].
    eapply (proj2 (proj1 (List.Forall_forall _ _) Hl (k, v) Hi)); [|exact E0].
    intros t Ht. apply Hall. cbn [steps_in]. apply in_flat_map.
    exists (k, v). split; [exact Hi|exact Ht].
  - intros s Hs Hall. exact (Hs Hall).
  - intros a kw Hkw Hall st r st'.
    assert (Hcr : cache_results a = true).
    { apply (Hall (MkStep a kw)). cbn [steps_of]. left. reflexivity. }
    cbn [result dry_run_visits].
    change (contains (st_cache st) (VStep (MkStep a kw)))
      with (MemoryStepCache_contains (st_cache st) (VStep (MkStep a kw))).
    unfold MemoryStepCache_contains.
    destruct (mem_cache (st_cache st) !! uid (MkStep a kw)) as [x|] eqn:Hx.
    + rewrite bool_decide_eq_true_2 by eauto.
      change (getitem (st_cache st) (MkStep a kw))
        with (MemoryStepCache_getitem (st_cache st) (MkStep a kw)).
      unfold MemoryStepCache_getitem. rewrite Hx. intros [= _ <-].
      destruct (decide _) as [Hin|Hnin].
      * exists []. cbn [with_cache run_log st_cache fst snd].
        rewrite app_nil_r. split; [reflexivity|]. split; reflexivity.
      * exfalso. apply Hnin. apply elem_of_dom. eauto.
    + rewrite bool_decide_eq_false_2 by (intros [y Hy]; discriminate).
      destruct (decide _) as [Hin|Hnin];
        [apply elem_of_dom in Hin as [y Hy]; congruence|].
      match goal with
      | |- context [traverse ?f kw st] =>
          destruct (traverse f kw st) as [[kw'|e] st1] eqn:E
      end; [|discriminate].
      match goal with
      | |- context [chain_from_iterable ?w kw ?cs] =>
          assert (H1 : runs_as_reported st st1 (chain_from_iterable w kw cs))
      end.
      { eapply runs_as_reported_traverse; [|exact E].
        apply List.Forall_forall. intros [k v] Hi st0 b st0'.
        change (with_key k (_replace_steps_with_results v st0) = (Ok b, st0')
                -> runs_as_reported st0 st0'
                     (visits_from_inputs v (dom (mem_cache (st_cache st0))))).
        destruct (_replace_steps_with_results v st0) as [[y|e] st2] eqn:E0;
          cbn [with_key]; [|discriminate].
        intros [= _ <-].
        eapply (proj1 (List.Forall_forall _ _) Hkw (k, v) Hi); [|exact E0].
        intros t Ht. apply Hall. cbn [steps_of]. right. apply in_flat_map.
        exists (k, v). split; [exact Hi|exact Ht]. }
      destruct (chain_from_iterable _ kw _) as [out cs1].
      destruct H1 as (n1 & L1 & M1 & D1). cbn [fst snd] in M1, D1.
      unfold _run_with_temp_dir.
      destruct (temp_dir_for_run (attrs (MkStep a kw))) eqn:Hg;
        [discriminate|].
      change (path_for_step (st_cache st1) (MkStep a kw))
        with (@None (list string)).
      destruct (TemporaryDirectory _ _ _) as [[d|e] w]; [|discriminate].
      destruct (run _ _ _) as [rr w1]. destruct (cleanup _ _) as [rc w2].
      destruct rc as [[]|e]; [|discriminate].
      destruct rr as [v|e]; [|discriminate].
      rewrite Hcr.
      change (setitem ?c (MkStep a kw) ?x)
        with (MemoryStepCache_setitem c (MkStep a kw) x).
      unfold MemoryStepCache_setitem. cbn [attrs]. rewrite Hcr.
      intros [= _ <-].
      exists (n1 ++ [with_temp_dir (Some d) (MkStep a kw)]).
      cbn [with_cache run_log st_cache mem_cache fst snd].
      split; [rewrite L1, app_assoc; reflexivity|]. split.
      * rewrite map_app, M1, false_steps_app. cbn [map].
        rewrite with_temp_dir_restore by exact Hg. reflexivity.
      * rewrite dom_insert_L, D1. apply union_comm_L.
Qed.

Lemma false_steps_labels (vis : list (step * bool)) :
  map (fun t => (name (attrs t), false)) (false_steps vis)
  = List.filter (fun e => negb (snd e)) (map label vis).
Proof.
  unfold false_steps. induction vis as [|[t b] r IH]; [reflexivity|].
  cbn [map List.filter snd label fst]. destruct b; cbn [negb map fst].
  - exact IH.
  - rewrite IH. reflexivity.
Qed.

(** X11. [dry_run] predicts [result].  When every Step under [s] is to be
    cached and [result] returns, with the memory cache, then the runs it
    entered are, in order, exactly the Steps that [dry_run], started on the
    set of the Steps the cache held, reports with flag false (so the names
    logged are the names yielded with false), and the cache holds
    afterwards exactly the ids [dry_run] leaves in its set. *)
Theorem result_runs_what_dry_run_reports (s : step)
    (st st' : exec_state MemoryStepCache) (v : value) :
  forallb (fun t => cache_results (attrs t)) (steps_of s) = true ->
  result s st = (Ok v, st') ->
  let cached_steps := dom (mem_cache (st_cache st)) in
  exists entered,
    run_log st' = run_log st ++ entered
    /\ map (fun t => (name (attrs t), false)) entered
       = List.filter (fun e => negb (snd e)) (fst (dry_run s cached_steps))
    /\ map (with_temp_dir None) entered
       = false_steps (fst (dry_run_visits s cached_steps))
    /\ dom (mem_cache (st_cache st')) = snd (dry_run s cached_steps).
Proof.
  intros Hall Hres cached_steps.
  destruct (proj2 runs_as_reported_spec s
              (proj1 (forallb_forall _ _) Hall) st v st' Hres)
    as (n & L & M & D).
  fold cached_steps in M, D.
  rewrite (proj2 dry_run_names s cached_steps). cbn [fst snd].
  exists n. split; [exact L|]. split; [|split; [exact M|exact D]].
  rewrite <- false_steps_labels, <- M, map_map. apply map_ext.
  intros [a kw]. reflexivity.
Qed.

(** ** [ensure_result] *)

(** X13. [ensure_result] is [result] without the value: it refuses a Step
    that is not to be cached with a [ValueError], before it looks at
    anything; it does nothing at all when the Step is in the cache (it does
    not even read the cached value); and otherwise it ends as [result]
    does, in the same state, returning nothing where [result] returns the
    value. *)
Theorem ensure_result_is_result {C} `{StepCache C} (s : step)
    (st : exec_state C) :
  ensure_result s st
  = if negb (cache_results (attrs s)) then
      (Raise (ValueError
                "It does not make sense to call ensure_result() on a step that's not cacheable."),
       st)
    else if contains (st_cache st) (VStep s) then (Ok tt, st)
    else (match fst (result s st) with
          | Ok _ => Ok tt
          | Raise e => Raise e
          end, snd (result s st)).
Proof.
  destruct s as [a kw]. unfold ensure_result. cbn [result attrs kwargs].
  destruct (cache_results a); cbn [negb]; [|reflexivity].
  destruct (contains (st_cache st) (VStep (MkStep a kw))); [reflexivity|].
  destruct (traverse _ kw st) as [[kw'|e] st1]; [|reflexivity].
  destruct (_run_with_temp_dir _ _ _) as [[[v|e] self'] st2]; [|reflexivity].
  destruct (setitem _ _ _) as [[[]|e] c']; reflexivity.
Qed.


(** ** Construction *)

(** X15. How [__init__] ends, for every class and every argument.  An
    invalid [VERSION] fails the assertion before anything else.  Otherwise
    the construction fails, with a configuration error, only for an
    explicit [cache_results=True] on a class whose [CACHEABLE] is not true
    and for a [cache_results] that is neither a bool nor [None].  When it
    succeeds, an explicit bool is taken as given and a missing one resolves
    to [CACHEABLE] when the class sets it and to [DETERMINISTIC] when not;
    so no Step of a class with [CACHEABLE = False] is ever to be cached. *)
Theorem Step_init_outcomes (c : StepClass) (nonce : Z)
    (step_name : option string) (cache_results_arg : value)
    (step_format : option string) (produce : bool)
    (kw : list (string * value)) :
  match Step_init c nonce step_name cache_results_arg step_format produce kw
  with
  | Ok s =>
      version_valid c = true
      /\ cache_results (attrs s)
         = match cache_results_arg with
           | VBool b => b
           | _ => match CACHEABLE c with
                  | Some k => k
                  | None => DETERMINISTIC c
                  end
           end
      /\ match cache_results_arg with
         | VNone | VBool _ => True
         | _ => False
         end
      /\ (cache_results (attrs s) = true -> CACHEABLE c <> Some false)
  | Raise e =>
      (version_valid c = false /\ exists m, e = AssertionError m)
      \/ (version_valid c = true
          /\ (exists m, e = ConfigurationError m)
          /\ match cache_results_arg with
             | VBool true => CACHEABLE c <> Some true
             | VBool false | VNone => False
             | _ => True
             end)
  end.
Proof.
  unfold Step_init, version_valid.
  destruct (VERSION c) as [ver|]; [destruct (version_re_match ver)|];
    cbn [negb];
    try (left; split; [reflexivity|eexists; reflexivity]).
  all: destruct cache_results_arg as [|[]| | | | | | |];
    try (right; split; [reflexivity|]; split; [eexists; reflexivity|exact I]).
  all: destruct (CACHEABLE c) as [[]|], (DETERMINISTIC c);
    cbn [py_not_optbool cache_results attrs];
    try (right; split; [reflexivity|]; split;
         [eexists; reflexivity|discriminate]);
    (split; [reflexivity|]; split; [reflexivity|]; split; [exact I|]);
    intros; discriminate.
Qed.

Lemma alnum_run_spec (s : string) :
  alnum_run s = true
  <-> all_alnum s = true
      \/ exists w, all_alnum w = true /\ s = w +:+ String "010"%char "".
Proof.
  induction s as [|c r IH].
  - split; [left; reflexivity|reflexivity].
  - destruct r as [|c' r'].
    + cbn [alnum_run all_alnum]. rewrite andb_true_r, orb_true_iff. split.
      * intros [H|H]; [left; exact H|].
        right. exists "". split; [reflexivity|].
        apply Ascii.eqb_eq in H. subst c. reflexivity.
      * intros [H|[w [Hw E]]]; [left; exact H|].
        destruct w as [|d w']; cbn [String.append] in E.
        -- injection E as ->. right. reflexivity.
        -- injection E as -> E. destruct w'; discriminate E.
    + change (alnum_run (String c (String c' r')))
        with (is_alnum c && alnum_run (String c' r')).
      change (all_alnum (String c (String c' r')))
        with (is_alnum c && all_alnum (String c' r')).
      rewrite !andb_true_iff, IH. split.
      * intros [Hc [H|[w [Hw E]]]].
        -- left. split; assumption.
        -- right. exists (String c w). cbn [all_alnum String.append].
           rewrite Hc, Hw, E. split; reflexivity.
      * intros [[Hc H]|[w [Hw E]]].
        -- split; [exact Hc|]. left. exact H.
        -- destruct w as [|d w']; cbn [String.append] in E; [discriminate E|].
           injection E as -> E. cbn [all_alnum] in Hw.
           apply andb_true_iff in Hw as [Hc Hw]. split; [exact Hc|].
           right. exists w'. split; [exact Hw|exact E].
Qed.

(** X24. The strings [_version_re] matches, and with them the values of
    [VERSION] that pass the assertion of [__init__]: one or more letters
    and digits, and such a string followed by a single newline ([$]
    matches before a newline that ends the string). *)
Theorem version_re_match_spec (v : string) :
  version_re_match v = true
  <-> exists w,
        w <> "" /\ all_alnum w = true
        /\ (v = w \/ v = w +:+ String "010"%char "").
Proof.
  unfold version_re_match. destruct v as [|c r].
  - split; [discriminate|]. intros [w [Hne [_ [E|E]]]].
    + congruence.
    + destruct w; [congruence|discriminate E].
  - rewrite andb_true_iff, alnum_run_spec. split.
    + intros [Hc [H|[w [Hw E]]]].
      * exists (String c r). split; [discriminate|]. split; [exact H|].
        left. reflexivity.
      * exists w. split; [|split; [exact Hw|right; exact E]].
        intros ->. cbn [String.append] in E. injection E as -> _.
        discriminate Hc.
    + intros [w [Hne [Hw [E|E]]]].
      * subst w. split; [|left; exact Hw].
        cbn [all_alnum] in Hw. apply andb_true_iff in Hw. apply Hw.
      * destruct w as [|d w']; [congruence|].
        cbn [String.append] in E. injection E as -> E. split.
        -- cbn [all_alnum] in Hw. apply andb_true_iff in Hw. apply Hw.
        -- right. exists (String d w'). split; [exact Hw|].
           cbn [String.append]. rewrite E. reflexivity.
Qed.

Lemma uid_fresh (a a' : StepAttrs) (kw : list (string * value)) :
  unique_id_cache a = None -> unique_id_cache a' = None ->
  step_class a = step_class a' -> rand_bits a = rand_bits a' ->
  uid (MkStep a kw) = uid (MkStep a' kw).
Proof.
  intros Hc Hc' Hk Hr. unfold uid. cbn [unique_id].
  rewrite Hc, Hc', Hk, Hr.
  destruct (DETERMINISTIC (step_class a')); [|reflexivity].
  destruct (comprehension _ kw) as [h kw']. reflexivity.
Qed.

(** X16. What a constructed Step is called and what identifies it.  Its
    name is the given one, or its unique id when none is given; its unique
    id is the one of its class, its random bits and its kwargs alone, so
    that neither the name nor the cache policy nor the format takes part
    in it; and it is not running. *)
Theorem Step_init_name_and_id (c : StepClass) (nonce : Z)
    (step_name : option string) (cache_results_arg : value)
    (step_format : option string) (produce : bool)
    (kw : list (string * value)) (s : step) :
  Step_init c nonce step_name cache_results_arg step_format produce kw = Ok s ->
  name (attrs s) = default (uid s) step_name
  /\ class_of s = c
  /\ temp_dir s = None
  /\ forall a,
       step_class a = c -> rand_bits a = nonce -> unique_id_cache a = None ->
       uid s = uid (MkStep a kw).
Proof.
  unfold Step_init.
  destruct (match VERSION c with Some v => _ | None => _ end); [discriminate|].
  set (a0 := {| step_class := c; name := ""; unique_id_cache := None;
                rand_bits := nonce; cache_results := false;
                produce_results := produce;
                format := default (FORMAT c) step_format;
                temp_dir_for_run := None |}).
  assert (Hfin : forall b,
            let s1 := match step_name with
                      | Some n => MkStep (set_name n a0) kw
                      | None =>
                          let '(u, s') := unique_id (MkStep a0 kw) in
                          MkStep (set_name u (attrs s')) (kwargs s')
                      end in
            let s := MkStep {| step_class := c; name := name (attrs s1);
                               unique_id_cache := unique_id_cache (attrs s1);
                               rand_bits := nonce; cache_results := b;
                               produce_results := produce;
                               format := default (FORMAT c) step_format;
                               temp_dir_for_run := None |} (kwargs s1) in
            name (attrs s) = default (uid s) step_name
            /\ class_of s = c
            /\ temp_dir s = None
            /\ forall a,
                 step_class a = c -> rand_bits a = nonce ->
                 unique_id_cache a = None ->
                 uid s = uid (MkStep a kw)).
  { intros b. destruct step_name as [n|]; cbn zeta.
    - cbn [set_name attrs kwargs name unique_id_cache default].
      split; [reflexivity|]. split; [reflexivity|]. split; [reflexivity|].
      intros a Hk Hr Hc. apply uid_fresh; cbn; congruence.
    - assert (Hu : exists kw',
                unique_id (MkStep a0 kw)
                = (uid (MkStep a0 kw),
                   MkStep (set_unique_id_cache (Some (uid (MkStep a0 kw))) a0)
                     kw')).
      { unfold uid. cbn [unique_id unique_id_cache a0].
        destruct (DETERMINISTIC _).
        - destruct (comprehension _ kw) as [h kw']. eexists. reflexivity.
        - eexists. reflexivity. }
      destruct Hu as [kw' Hu]. rewrite Hu.
      cbn [set_name set_unique_id_cache attrs kwargs name unique_id_cache
           default].
      assert (Hs : forall a1,
                unique_id_cache a1 = Some (uid (MkStep a0 kw)) ->
                uid (MkStep a1 kw') = uid (MkStep a0 kw)).
      { intros a1 H1. unfold uid at 1. cbn [unique_id]. rewrite H1.
        reflexivity. }
      split; [symmetry; apply Hs; reflexivity|].
      split; [reflexivity|]. split; [reflexivity|].
      intros a Hk Hr Hc. rewrite Hs by reflexivity.
      apply uid_fresh; cbn; congruence. }
  destruct cache_results_arg as [|[]| | | | | | |]; try discriminate.
  - destruct (CACHEABLE c) as [[]|], (DETERMINISTIC c);
      intros [= <-]; apply Hfin.
  - destruct (py_not_optbool (CACHEABLE c)); [discriminate|].
    intros [= <-]. apply Hfin.
  - intros [= <-]. apply Hfin.
Qed.

(** ** Dry run, again *)

(** X17. A walk leaves its root in the set: a second [dry_run] of the same
    Step on the set the first one left yields the root alone, with flag
    true, walks nothing and leaves the set as it is. *)
Theorem dry_run_again (s : step) (cached_steps : gset string) :
  dry_run s (snd (dry_run s cached_steps))
  = ([(name (attrs s), true)], snd (dry_run s cached_steps)).
Proof.
  assert (Hin : uid s ∈ snd (dry_run s cached_steps)).
  { destruct s as [a kw]. cbn [dry_run].
    destruct (decide _) as [Hin|Hnin]; [exact Hin|].
    destruct (chain_from_iterable _ kw cached_steps) as [out cs'].
    cbn [snd]. apply elem_of_union. right. apply elem_of_singleton.
    reflexivity. }
  revert Hin. generalize (snd (dry_run s cached_steps)). intros cs Hin.
  destruct s as [a kw]. cbn [dry_run attrs].
  destruct (decide _) as [_|Hnin]; [reflexivity|contradiction].
Qed.

(** ** The resolver: names *)

Lemma dict_contains_false {V} (k : string) (d : list (string * V)) :
  ~ In k (map fst d) -> dict_contains k d = false.
Proof.
  unfold dict_contains. induction d as [|[k' v'] r IH]; cbn [existsb map fst];
    [reflexivity|].
  intros Hn. destruct (String.eqb_spec k' k) as [E|E].
  - exfalso. apply Hn. left. exact E.
  - cbn [orb]. apply IH. intros Hin. apply Hn. right. exact Hin.
Qed.

Lemma dict_set_new {V} (k : string) (v : V) (d : list (string * V)) :
  ~ In k (map fst d) -> dict_set k v d = d ++ [(k, v)].
Proof.
  induction d as [|[k' v'] r IH]; cbn [dict_set map fst app]; [reflexivity|].
  intros Hn. destruct (String.eqb_spec k' k) as [E|E].
  - exfalso. apply Hn. left. exact E.
  - rewrite IH; [reflexivity|]. intros Hin. apply Hn. right. exact Hin.
Qed.

Lemma dict_popitem_last {V} (d rest : list (string * V)) (kv : string * V) :
  dict_popitem d = Some (kv, rest) -> d = rest ++ [kv].
Proof.
  unfold dict_popitem. destruct (rev d) as [|x r] eqn:E; [discriminate|].
  intros [= <- <-]. apply (f_equal (@rev _)) in E.
  rewrite rev_involutive in E. exact E.
Qed.

Lemma popped_name_is_new (st : resolver_state) (n : string) (p : Params)
    (rest : list (string * Params)) :
  List.NoDup (resolver_keys st) ->
  dict_popitem (unparsed_steps st) = Some ((n, p), rest) ->
  ~ In n (map fst rest)
  /\ ~ In n (map fst (next_unparsed_steps st))
  /\ ~ In n (map fst (parsed_steps st)).
Proof.
  intros Hnd Hpop. apply dict_popitem_last in Hpop.
  unfold resolver_keys in Hnd. rewrite Hpop, map_app in Hnd.
  cbn [map fst] in Hnd. rewrite <- app_assoc in Hnd.
  apply NoDup_remove_2 in Hnd.
  split; [|split]; intros Hin; apply Hnd; apply in_or_app.
  - left. exact Hin.
  - right. apply in_or_app. left. exact Hin.
  - right. apply in_or_app. right. exact Hin.
Qed.

Lemma parse_one_keys (st st' : resolver_state) :
  List.NoDup (resolver_keys st) -> parse_one st = Ok st' ->
  resolver_keys st' ≡ₚ resolver_keys st.
Proof.
  intros Hnd. unfold parse_one.
  destruct (dict_popitem (unparsed_steps st)) as [[[n p] rest]|] eqn:E;
    [|discriminate].
  destruct (popped_name_is_new st n p rest Hnd E) as (_ & Hn & Hp).
  apply dict_popitem_last in E.
  destruct (dict_contains n (parsed_steps st)); [discriminate|].
  destruct (from_params p (parsed_steps st) n) as [s|e].
  - intros [= <-]. unfold resolver_keys.
    cbn [unparsed_steps next_unparsed_steps parsed_steps].
    rewrite E, (dict_set_new n s _ Hp), !map_app. cbn [map fst].
    rewrite <- !app_assoc. apply Permutation_app_head.
    rewrite app_assoc. symmetry. apply Permutation_cons_append.
  - destruct e; try discriminate. intros [= <-]. unfold resolver_keys.
    cbn [unparsed_steps next_unparsed_steps parsed_steps].
    rewrite E, (dict_set_new n p _ Hn), !map_app. cbn [map fst].
    rewrite <- !app_assoc. apply Permutation_app_head.
    cbn [app]. symmetry. apply Permutation_middle.
Qed.

Lemma refill_keys (st st1 : resolver_state) :
  refill st = Ok st1 -> resolver_keys st1 = resolver_keys st.
Proof.
  unfold refill. destruct (unparsed_steps st) as [|kv r] eqn:E.
  - destruct (Nat.leb (steps_parsed st) 0); [discriminate|].
    intros [= <-]. unfold resolver_keys.
    cbn [unparsed_steps next_unparsed_steps parsed_steps]. rewrite E.
    reflexivity.
  - intros [= <-]. reflexivity.
Qed.

Lemma resolver_reaches_keys (params : list (string * Params))
    (st : resolver_state) :
  List.NoDup (map fst params) -> resolver_reaches params st ->
  resolver_keys st ≡ₚ map fst params.
Proof.
  intros Hnd. induction 1 as [|st st' _ IH Hb].
  - unfold resolver_keys, resolver_start.
    cbn [unparsed_steps next_unparsed_steps parsed_steps map app].
    rewrite app_nil_r. reflexivity.
  - revert Hb. unfold loop_body.
    destruct (refill st) as [st1|e] eqn:Hr; [|discriminate].
    apply refill_keys in Hr. intros Hp. apply parse_one_keys in Hp.
    + rewrite Hp, Hr. exact IH.
    + rewrite Hr. eapply Permutation_NoDup; [symmetry; exact IH|exact Hnd].
Qed.

Lemma resolver_loop_reaches (params : list (string * Params)) (fuel : nat)
    (st : resolver_state) (g : list (string * step)) :
  resolver_reaches params st -> resolver_loop fuel st = Some (Ok g) ->
  exists st',
    resolver_reaches params st' /\ unparsed_steps st' = []
    /\ next_unparsed_steps st' = [] /\ parsed_steps st' = g.
Proof.
  revert st. induction fuel as [|fuel IH]; intros st Hre; cbn [resolver_loop].
  - destruct (unparsed_steps st) eqn:Hu, (next_unparsed_steps st) eqn:Hn;
      try discriminate.
    intros [= <-]. exists st. auto.
  - destruct (unparsed_steps st) eqn:Hu, (next_unparsed_steps st) eqn:Hn;
      try (intros [= <-]; exists st; auto; fail).
    all: destruct (loop_body st) as [st'|e] eqn:Hb; [|discriminate];
      apply IH; eapply reaches_round; eauto.
Qed.

(** X19. The resolver works on the names it was given and on no others.
    For a dict of configurations (its keys are distinct), a graph the
    resolver returns has a Step for every configured name and for nothing
    else; and in every round the name taken from the queue is not among
    the parsed ones, so that the duplicate-name check cannot fire. *)
Theorem resolver_names (params : list (string * Params)) :
  List.NoDup (map fst params) ->
  (forall g,
     step_graph_from_params params = Some (Ok g) ->
     map fst g ≡ₚ map fst params)
  /\ (forall st,
        resolver_reaches params st ->
        match refill st with
        | Ok st1 =>
            match dict_popitem (unparsed_steps st1) with
            | Some ((n, _), _) => dict_contains n (parsed_steps st1) = false
            | None => True
            end
        | Raise _ => True
        end).
Proof.
  intros Hnd. split.
  - intros g Hg. unfold step_graph_from_params in Hg.
    apply (resolver_loop_reaches params) in Hg; [|apply reaches_start].
    destruct Hg as (st' & Hre & Hu & Hn & <-).
    apply (resolver_reaches_keys params st' Hnd) in Hre.
    unfold resolver_keys in Hre. rewrite Hu, Hn in Hre. exact Hre.
  - intros st Hre. apply (resolver_reaches_keys params st Hnd) in Hre.
    destruct (refill st) as [st1|e] eqn:Hr; [|exact I].
    apply refill_keys in Hr.
    destruct (dict_popitem (unparsed_steps st1)) as [[[n p] rest]|] eqn:E;
      [|exact I].
    apply dict_contains_false.
    eapply popped_name_is_new; [|exact E].
    rewrite Hr. eapply Permutation_NoDup; [symmetry; exact Hre|exact Hnd].
Qed.

(** ** Sets of Steps and recursive dependencies *)

Lemma existsb_step_eqb (t : step) (seen : list step) :
  existsb (step_eqb t) seen = true <-> In (uid t) (map uid seen).
Proof.
  rewrite existsb_exists, in_map_iff. unfold step_eqb.
  split; intros [x [H1 H2]]; exists x.
  - apply String.eqb_eq in H2. auto.
  - split; [exact H2|]. apply String.eqb_eq. symmetry. exact H1.
Qed.

Lemma dedup_by_step_spec (l seen : list step) :
  incl (dedup_by step_eqb seen l) l
  /\ List.NoDup (map uid (dedup_by step_eqb seen l))
  /\ (forall t, In t (dedup_by step_eqb seen l) -> ~ In (uid t) (map uid seen))
  /\ (forall t, In t l ->
        In (uid t) (map uid seen)
        \/ In (uid t) (map uid (dedup_by step_eqb seen l))).
Proof.
  revert seen. induction l as [|x r IH]; intros seen; cbn [dedup_by].
  - split; [intros t []|]. split; [constructor|].
    split; [intros t []|intros t []].
  - destruct (existsb (step_eqb x) seen) eqn:E.
    + destruct (IH seen) as (H1 & H2 & H3 & H4).
      split; [intros t Ht; right; apply H1, Ht|]. split; [exact H2|].
      split; [exact H3|]. intros t [<-|Ht]; [|apply H4, Ht].
      left. apply existsb_step_eqb. exact E.
    + destruct (IH (x :: seen)) as (H1 & H2 & H3 & H4).
      assert (Hx : ~ In (uid x) (map uid seen)).
      { intros Hin. apply existsb_step_eqb in Hin. congruence. }
      split; [intros t [<-|Ht]; [left; reflexivity|right; apply H1, Ht]|].
      split.
      { cbn [map]. constructor; [|exact H2].
        intros Hin. apply in_map_iff in Hin as [y [Hy1 Hy2]].
        apply (H3 y Hy2). left. symmetry. exact Hy1. }
      split.
      { intros t [<-|Ht]; [exact Hx|].
        intros Hin. apply (H3 t Ht). right. exact Hin. }
      intros t [<-|Ht]; [right; left; reflexivity|].
      destruct (H4 t Ht) as [[Hu|Hu]|Hu].
      * right. left. exact Hu.
      * left. exact Hu.
      * right. right. exact Hu.
Qed.

(** X21. [dependencies] is a set of Steps under the equality and the hash
    of [Step], which look only at the unique id: its members are Steps the
    walk over the kwargs found, no two of them have the same unique id, and
    every Step the walk found is represented by a member with its id. *)
Theorem dependencies_is_a_set (s : step) :
  let found := flat_map (fun '(_, v) => dependencies_internal v) (kwargs s) in
  incl (dependencies s) found
  /\ List.NoDup (map uid (dependencies s))
  /\ forall t, In t found -> In (uid t) (map uid (dependencies s)).
Proof.
  intros found. unfold dependencies, step_set. fold found.
  destruct (dedup_by_step_spec found []) as (H1 & H2 & _ & H4).
  split; [exact H1|]. split; [exact H2|].
  intros t Ht. destruct (H4 t Ht) as [[]|Hu]. exact Hu.
Qed.

Lemma dependencies_internal_below :
  (forall v, incl (dependencies_internal v) (below_in v))
  /\ (forall s : step, True).
Proof.
  apply value_step_mutind; try (intros; exact I);
    try (intros; cbn [dependencies_internal below_in]; intros t Ht;
         contradiction).
  - intros l Hl t. cbn [dependencies_internal below_in].
    rewrite !in_flat_map. intros [i [Hi Ht]]. exists i. split; [exact Hi|].
    exact (proj1 (List.Forall_forall _ _) Hl i Hi t Ht).
  - intros l Hl t. cbn [dependencies_internal below_in].
    rewrite !in_flat_map. intros [i [Hi Ht]]. exists i. split; [exact Hi|].
    exact (proj1 (List.Forall_forall _ _) Hl i Hi t Ht).
  - intros l Hl t. cbn [dependencies_internal below_in].
    rewrite !in_flat_map. intros [[k v] [Hi Ht]]. exists (k, v).
    split; [exact Hi|].
    exact (proj1 (proj1 (List.Forall_forall _ _) Hl (k, v) Hi) t Ht).
  - intros l Hl t. cbn [dependencies_internal below_in].
    rewrite !in_flat_map. intros [i [Hi Ht]]. exists i. split; [exact Hi|].
    exact (proj1 (List.Forall_forall _ _) Hl i Hi t Ht).
  - intros s _ t. cbn [dependencies_internal below_in].
    intros [<-|[]]. left. reflexivity.
Qed.

Lemma dependencies_below (s : step) : incl (dependencies s) (below s).
Proof.
  intros t Ht. unfold dependencies, step_set in Ht.
  apply (proj1 (dedup_by_step_spec _ [])) in Ht.
  destruct s as [a kw]. cbn [kwargs below] in Ht |- *.
  apply in_flat_map in Ht as [[k v] [Hi Ht]]. apply in_flat_map.
  exists (k, v). split; [exact Hi|].
  apply (proj1 dependencies_internal_below v t Ht).
Qed.

Lemma below_closed :
  (forall v t, In t (below_in v) -> incl (below t) (below_in v))
  /\ (forall s t, In t (below s) -> incl (below t) (below s)).
Proof.
  apply value_step_mutind;
    try (intros;
         match goal with
         | H : In _ (below_in _) |- _ => cbn [below_in] in H; contradiction
         end).
  - intros l Hl t. cbn [below_in]. rewrite in_flat_map.
    intros [i [Hi Ht]] x Hx. apply in_flat_map. exists i.
    split; [exact Hi|].
    exact (proj1 (List.Forall_forall _ _) Hl i Hi t Ht x Hx).
  - intros l Hl t. cbn [below_in]. rewrite in_flat_map.
    intros [i [Hi Ht]] x Hx. apply in_flat_map. exists i.
    split; [exact Hi|].
    exact (proj1 (List.Forall_forall _ _) Hl i Hi t Ht x Hx).
  - intros l Hl t. cbn [below_in]. rewrite in_flat_map.
    intros [[k v] [Hi Ht]] x Hx. apply in_flat_map. exists (k, v).
    split; [exact Hi|].
    exact (proj1 (proj1 (List.Forall_forall _ _) Hl (k, v) Hi) t Ht x Hx).
  - intros l Hl t. cbn [below_in]. rewrite in_flat_map.
    intros [i [Hi Ht]] x Hx. apply in_flat_map. exists i.
    split; [exact Hi|].
    exact (proj1 (List.Forall_forall _ _) Hl i Hi t Ht x Hx).
  - intros s Hs t. cbn [below_in]. intros [<-|Ht] x Hx.
    + right. exact Hx.
    + right. exact (Hs t Ht x Hx).
  - intros a kw Hkw t. cbn [below]. rewrite in_flat_map.
    intros [[k v] [Hi Ht]] x Hx. apply in_flat_map. exists (k, v).
    split; [exact Hi|].
    exact (proj1 (List.Forall_forall _ _) Hkw (k, v) Hi t Ht x Hx).
Qed.

Lemma uid_count_le (l R : list step) :
  List.NoDup (map uid l) -> incl l R -> length l <= length R.
Proof.
  intros Hnd Hin. rewrite <- (length_map uid l), <- (length_map uid R).
  apply NoDup_incl_length; [exact Hnd|]. apply incl_map. exact Hin.
Qed.

Lemma recursive_dependencies_loop_spec (self : step) (fuel : nat)
    (seen steps : list step) :
  rd_inv self seen steps ->
  length steps
  + (length (below self) - length seen) * (length (below self) + 1) < fuel ->
  exists r,
    recursive_dependencies_loop fuel seen steps = Some r /\ rd_post self r.
Proof.
  set (n := length (below self)).
  revert seen steps. induction fuel as [|fuel IH]; intros seen steps; [lia|].
  intros (Hseen & Hsteps & Hnd & Hob) Hlt.
  destruct steps as [|t rest]; cbn [recursive_dependencies_loop].
  - exists seen. split; [reflexivity|]. split; [exact Hseen|].
    split; [exact Hnd|]. split.
    + intros d Hd. destruct (Hob d) as [H|[]]; [|exact H].
      apply in_or_app. left. exact Hd.
    + intros t d Ht Hd. destruct (Hob d) as [H|[]]; [|exact H].
      apply in_or_app. right. apply in_flat_map. exists t. auto.
  - assert (Ht : In t (below self)) by (apply Hsteps; left; reflexivity).
    assert (Hrest : incl rest (below self))
      by (intros x Hx; apply Hsteps; right; exact Hx).
    destruct (existsb (step_eqb t) seen) eqn:E.
    + apply IH.
      * split; [exact Hseen|]. split; [exact Hrest|]. split; [exact Hnd|].
        intros d Hd. destruct (Hob d Hd) as [H|[H|H]].
        -- left. exact H.
        -- left. rewrite <- H. apply existsb_step_eqb. exact E.
        -- right. exact H.
      * cbn [length] in Hlt. fold n in Hlt |- *. lia.
    + assert (Hnew : ~ In (uid t) (map uid seen)).
      { intros Hin. apply existsb_step_eqb in Hin. congruence. }
      assert (Hnd' : List.NoDup (map uid (seen ++ [t]))).
      { rewrite map_app. cbn [map].
        eapply Permutation_NoDup; [apply Permutation_cons_append|].
        constructor; assumption. }
      assert (Hseen' : incl (seen ++ [t]) (below self)).
      { apply incl_app; [exact Hseen|]. intros x [<-|[]]. exact Ht. }
      assert (Hdeps : incl (dependencies t) (below self)).
      { intros x Hx. apply (proj2 below_closed self t Ht).
        apply dependencies_below. exact Hx. }
      apply IH.
      * split; [exact Hseen'|]. split.
        { apply incl_app; [|exact Hrest].
          intros x Hx. apply Hdeps. apply in_rev. exact Hx. }
        split; [exact Hnd'|].
        intros d Hd. rewrite flat_map_app in Hd. cbn [flat_map] in Hd.
        rewrite app_nil_r, app_assoc in Hd.
        rewrite !map_app. cbn [map].
        apply in_app_or in Hd as [Hd|Hd].
        -- destruct (Hob d Hd) as [H|[H|H]].
           ++ left. apply in_or_app. left. exact H.
           ++ left. apply in_or_app. right. left. exact H.
           ++ right. apply in_or_app. right. exact H.
        -- right. apply in_or_app. left. apply in_map.
           apply in_rev. rewrite rev_involutive. exact Hd.
      * assert (H1 : length (seen ++ [t]) <= n)
          by (apply uid_count_le; assumption).
        assert (H2 : length (dependencies t) <= n).
        { apply uid_count_le; [|exact Hdeps].
          unfold dependencies, step_set.
          apply (proj1 (proj2 (dedup_by_step_spec _ []))). }
        rewrite length_app in H1 |- *. rewrite length_app, length_rev.
        cbn [length] in H1, Hlt |- *. fold n in Hlt |- *.
        replace (n - length seen) with (S (n - (length seen + 1))) in Hlt
          by lia.
        cbn [Nat.mul] in Hlt. lia.
Qed.

(** X20. [recursive_dependencies] returns, for every Step.  The set it
    returns holds only Steps that sit below the Step along [dependencies],
    no two with the same unique id; it represents every dependency of the
    Step, and every dependency of each of its members, by a member with
    that id. *)
Theorem recursive_dependencies_spec (self : step) :
  exists r,
    recursive_dependencies self = Some r
    /\ incl r (below self)
    /\ List.NoDup (map uid r)
    /\ (forall d, In d (dependencies self) -> In (uid d) (map uid r))
    /\ (forall t d,
          In t r -> In d (dependencies t) -> In (uid d) (map uid r)).
Proof.
  unfold recursive_dependencies.
  apply recursive_dependencies_loop_spec.
  - split; [intros x []|]. split.
    { intros x Hx. apply dependencies_below. apply in_rev. exact Hx. }
    split; [constructor|].
    intros d Hd. cbn [flat_map] in Hd. rewrite app_nil_r in Hd.
    right. apply in_map. apply in_rev. rewrite rev_involutive. exact Hd.
  - assert (H : length (dependencies self) <= length (below self)).
    { apply uid_count_le; [|apply dependencies_below].
      unfold dependencies, step_set.
      apply (proj1 (proj2 (dedup_by_step_spec _ []))). }
    rewrite length_rev. cbn [length]. rewrite Nat.sub_0_r.
    set (n := length (below self)) in *.
    replace (n * (n + 2)) with (n + n * (n + 1)) by lia. lia.
Qed.

(** *** Cached Steps are not run *)

Lemma uid_with_temp_dir (d : option (list string)) (s : step) :
  uid (with_temp_dir d s) = uid s.
Proof.
  destruct s as [a kw]. unfold uid, with_temp_dir.
  cbn [attrs kwargs unique_id set_temp_dir_for_run unique_id_cache step_class
       rand_bits].
  destruct (unique_id_cache a); [reflexivity|].
  destruct (DETERMINISTIC (step_class a)); [|reflexivity].
  destruct (comprehension _ kw) as [h kw']. reflexivity.
Qed.

Lemma run_with_temp_dir_log {C} `{StepCache C} (self : step)
    (kw : list (string * value)) (st : exec_state C) :
  run_log (snd (_run_with_temp_dir self kw st)) = run_log st
  \/ exists d,
       run_log (snd (_run_with_temp_dir self kw st))
       = run_log st ++ [with_temp_dir (Some d) self].
Proof.
  unfold _run_with_temp_dir.
  destruct (temp_dir_for_run (attrs self)); [left; reflexivity|].
  destruct (path_for_step (st_cache st) self) as [step_dir|].
  - destruct (mkdir _ _) as [[[]|e] w]; [|left; reflexivity].
    destruct (run _ _ _) as [r w1]. right. eexists. reflexivity.
  - destruct (TemporaryDirectory _ _ _) as [[d|e] w]; [|left; reflexivity].
    destruct (run _ _ _) as [r w1]. destruct (cleanup _ _) as [rc w2].
    right. eexists. reflexivity.
Qed.

Lemma runs_only_uncached_refl (st : exec_state MemoryStepCache) :
  runs_only_uncached st st.
Proof.
  split; [unfold cache_grows; reflexivity|].
  exists []. rewrite app_nil_r. split; [reflexivity|constructor].
Qed.

Lemma runs_only_uncached_trans (a b c : exec_state MemoryStepCache) :
  runs_only_uncached a b -> runs_only_uncached b c -> runs_only_uncached a c.
Proof.
  intros [Gab (e1 & L1 & F1)] [Gbc (e2 & L2 & F2)]. split.
  - unfold cache_grows in Gab, Gbc |- *. etransitivity; eassumption.
  - exists (e1 ++ e2). split; [rewrite L2, L1, app_assoc; reflexivity|].
    apply List.Forall_app. split; [exact F1|].
    eapply List.Forall_impl; [|exact F2]. intros t Ht. cbn beta in Ht |- *.
    destruct (mem_cache (st_cache a) !! uid t) as [x|] eqn:E; [|reflexivity].
    eapply lookup_weaken in E; [|exact Gab]. congruence.
Qed.

Lemma runs_only_uncached_traverse {A B : Type}
    (f : A -> exec_state MemoryStepCache
         -> pyresult B * exec_state MemoryStepCache)
    (items : list A) :
  Forall (fun i => forall st, runs_only_uncached st (snd (f i st))) items ->
  forall st, runs_only_uncached st (snd (traverse f items st)).
Proof.
  apply traverse_snd_rel.
  - apply runs_only_uncached_refl.
  - apply runs_only_uncached_trans.
Qed.

Lemma runs_only_uncached_spec :
  (forall v (st : exec_state MemoryStepCache),
     runs_only_uncached st (snd (_replace_steps_with_results v st)))
  /\ (forall s (st : exec_state MemoryStepCache),
        runs_only_uncached st (snd (result s st))).
Proof.
  apply value_step_mutind;
    try (intros; cbn [_replace_steps_with_results snd];
         apply runs_only_uncached_refl).
  - intros l Hl st. cbn [_replace_steps_with_results].
    pose proof (runs_only_uncached_traverse _ l Hl st) as Ht.
    destruct (traverse _ l st) as [rl st1]. exact Ht.
  - intros l Hl st. cbn [_replace_steps_with_results].
    match goal with
    | |- context [traverse ?f l st] =>
        assert (Ht : runs_only_uncached st (snd (traverse f l st)))
    end.
    { apply runs_only_uncached_traverse.
      eapply List.Forall_impl; [|exact Hl].
      intros i Hi st0. specialize (Hi st0).
      destruct (_replace_steps_with_results i st0) as [[b|e] st2];
        cbn [set_add]; [destruct (py_hashable b)|]; exact Hi. }
    destruct (traverse _ l st) as [rl st1]. exact Ht.
  - intros l Hl st. cbn [_replace_steps_with_results].
    match goal with
    | |- context [traverse ?f l st] =>
        assert (Ht : runs_only_uncached st (snd (traverse f l st)))
    end.
    { apply runs_only_uncached_traverse.
      eapply List.Forall_impl; [|exact Hl].
      intros [k v] [_ Hv] st0. specialize (Hv st0). cbn [snd] in Hv.
      destruct (_replace_steps_with_results v st0) as [[b|e] st2]; exact Hv. }
    destruct (traverse _ l st) as [rl st1]. exact Ht.
  - intros s Hs st. exact (Hs st).
  - intros a kw Hkw st. cbn [result].
    change (contains (st_cache st) (VStep (MkStep a kw)))
      with (MemoryStepCache_contains (st_cache st) (VStep (MkStep a kw))).
    unfold MemoryStepCache_contains.
    destruct (mem_cache (st_cache st) !! uid (MkStep a kw)) as [x|] eqn:Hx.
    + rewrite bool_decide_eq_true_2 by eauto.
      change (getitem (st_cache st) (MkStep a kw))
        with (MemoryStepCache_getitem (st_cache st) (MkStep a kw)).
      unfold MemoryStepCache_getitem. rewrite Hx.
      destruct st as [c w l]. apply runs_only_uncached_refl.
    + rewrite bool_decide_eq_false_2 by (intros [y Hy]; discriminate).
      match goal with
      | |- context [traverse ?f kw st] =>
          assert (Ht : runs_only_uncached st (snd (traverse f kw st)))
      end.
      { apply runs_only_uncached_traverse.
        eapply List.Forall_impl; [|exact Hkw].
        intros [k v] Hv st0. specialize (Hv st0). cbn [snd] in Hv.
        change (runs_only_uncached st0
                  (snd (with_key k (_replace_steps_with_results v st0)))).
        destruct (_replace_steps_with_results v st0) as [[b|e] st2];
          exact Hv. }
      destruct (traverse _ kw st) as [rk st1]. cbn [snd] in Ht.
      destruct rk as [kw'|e]; [|exact Ht].
      pose proof (run_with_temp_dir_cache (MkStep a kw) kw' st1) as Hc.
      pose proof (run_with_temp_dir_log (MkStep a kw) kw' st1) as Hlog.
      destruct (_run_with_temp_dir _ _ _) as [[r self'] st2].
      cbn [snd] in Hc, Hlog.
      destruct Ht as [G1 (e1 & L1 & F1)].
      assert (H2 : runs_only_uncached st st2).
      { split.
        - unfold cache_grows in G1 |- *. rewrite Hc. exact G1.
        - destruct Hlog as [Hl|[d Hl]].
          + exists e1. split; [rewrite Hl; exact L1|exact F1].
          + exists (e1 ++ [with_temp_dir (Some d) (MkStep a kw)]).
            split; [rewrite Hl, L1, app_assoc; reflexivity|].
            apply List.Forall_app. split; [exact F1|].
            constructor; [|constructor].
            rewrite uid_with_temp_dir. exact Hx. }
      destruct r as [v|e]; [|exact H2].
      destruct (cache_results a) eqn:Hcr; [|exact H2].
      change (setitem (st_cache st2) (MkStep a kw) (materialize v))
        with (MemoryStepCache_setitem (st_cache st2) (MkStep a kw)
                (materialize v)).
      unfold MemoryStepCache_setitem. cbn [attrs]. rewrite Hcr.
      destruct H2 as [G2 (e2 & L2 & F2)]. split.
      * unfold cache_grows in G2 |- *.
        cbn [snd with_cache st_cache mem_cache].
        apply insert_subseteq_r; [exact Hx|exact G2].
      * exists e2. split; [exact L2|exact F2].
Qed.

(** X25. [result] runs no Step the cache holds.  With the memory cache,
    whatever a call of [result] does and however it ends, it only adds to
    the log of the entries into [run], and no Step it entered had its
    unique id in the cache the call started with: a Step whose result is
    cached is not run again, wherever it sits in the graph. *)
Theorem result_runs_only_uncached_steps (s : step)
    (st : exec_state MemoryStepCache) :
  exists entered,
    run_log (snd (result s st)) = run_log st ++ entered
    /\ Forall (fun t => mem_cache (st_cache st) !! uid t = None) entered.
Proof. exact (proj2 (proj2 runs_only_uncached_spec s st)). Qed.

End Engine.

Arguments mk_exec_state {World C} _ _ _.
Arguments st_cache {World C} _.
Arguments st_world {World C} _.
Arguments run_log {World C} _.

(** * Examples

    A printing function stands in for [hash_object], so that the
    definitions can be run. *)

Fixpoint repr (v : value) : string :=
  match v with
  | VNone => "None"
  | VBool true => "True"
  | VBool false => "False"
  | VInt n => pretty n
  | VStr s => "'" +:+ s +:+ "'"
  | VList l => "[" +:+ String.concat "," (map repr l) +:+ "]"
  | VSet l => "{" +:+ String.concat "," (map repr l) +:+ "}"
  | VDict l =>
      "{" +:+ String.concat ","
                (map (fun '(k, x) => repr k +:+ ":" +:+ repr x) l) +:+ "}"
  | VIter _ => "<generator>"
  | VStep s => "<" +:+ cls_name (class_of s) +:+ ">"
  end.

Definition sample_class (n : string) (cacheable : option bool) : StepClass :=
  {| cls_name := n; DETERMINISTIC := true; CACHEABLE := cacheable;
     VERSION := Some "v2"; FORMAT := "dill.gz" |}.

Definition sample_step (c : StepClass) (n : string) (cached : bool)
    (kw : list (string * value)) : step :=
  MkStep {| step_class := c; name := n; unique_id_cache := None;
            rand_bits := 0; cache_results := cached;
            produce_results := false; format := FORMAT c;
            temp_dir_for_run := None |} kw.

(** A diamond: [r] needs [a] and [b], and both need [d]. *)
Definition step_d : step := sample_step (sample_class "D" None) "d" true [].
Definition step_a : step :=
  sample_step (sample_class "A" None) "a" true [("x", VStep step_d)].
Definition step_b : step :=
  sample_step (sample_class "B" None) "b" true [("x", VStep step_d)].
Definition step_r : step :=
  sample_step (sample_class "R" None) "r" true
    [("left", VStep step_a); ("right", VStep step_b)].

Example step_d_unique_id : uid repr step_d = "D-v2-{}".
Proof. reflexivity. Qed.

Example step_r_unique_id :
  uid repr step_r = "R-v2-{'left':'A-v2-{'x':'D-v2-{}'}','".
Proof. vm_compute. reflexivity. Qed.

Example step_r_dependencies :
  dependencies repr step_r = [step_a; step_b].
Proof. vm_compute. reflexivity. Qed.

(** C4, counterexample. In the diamond [d] is reachable along two paths
    and is emitted twice, the second time with flag true; and when the
    root is in the set at the start, nothing below it is emitted at all. *)
Lemma dry_run_emits_shared_step_twice :
  fst (dry_run repr step_r ∅)
  = [("d", false); ("a", false); ("d", true); ("b", false); ("r", false)]
  /\ fst (dry_run repr step_r {[uid repr step_r]}) = [("r", true)].
Proof. split; vm_compute; reflexivity. Qed.

(** The diamond is a graph whose fingerprints do not collide; [d] is
    emitted once with flag false. *)
Lemma dry_run_emits_false_once_witness :
  fingerprints_faithful repr step_r = true
  /\ fst (dry_run repr step_r ∅)
     = map (label) (fst (dry_run_visits repr step_r ∅))
  /\ count_occ string_dec
       (map (uid repr) (false_steps (fst (dry_run_visits repr step_r ∅))))
       (uid repr step_d) = 1.
Proof.
  assert (Hf : fingerprints_faithful repr step_r = true)
    by (vm_compute; reflexivity).
  split; [exact Hf|].
  destruct (dry_run_emits_false_once repr step_r ∅ Hf)
    as (Hn & _ & _ & _ & Hc & _).
  split.
  - rewrite Hn. reflexivity.
  - apply Hc; [reflexivity|]. vm_compute. auto.
Defined.

(** ** Construction *)

(** C3, the failing input. A class that is deterministic and leaves
    [CACHEABLE] unset cannot be constructed with [cache_results=True],
    although its Steps are cached when [cache_results] is left out. *)
Lemma init_with_unset_cacheable_fails :
  CACHEABLE (sample_class "D" None) = None
  /\ Step_init repr (sample_class "D" None) 0 (Some "d") (VBool true) None
       false []
     = Raise (ConfigurationError
                "Step d is configured to use the cache, but it's not a cacheable step.")
  /\ exists s,
       Step_init repr (sample_class "D" None) 0 (Some "d") VNone None false []
       = Ok s
       /\ cache_results (attrs s) = true.
Proof.
  split; [reflexivity|]. split; [reflexivity|].
  eexists. split; reflexivity.
Qed.

(** A class that sets [CACHEABLE] to true can be constructed with
    [cache_results=True]. *)
Lemma explicit_cache_results_requires_cacheable_witness :
  version_valid (sample_class "D" (Some true)) = true
  /\ exists s,
       Step_init repr (sample_class "D" (Some true)) 0 None (VBool true) None
         false []
       = Ok s
       /\ cache_results (attrs s) = true.
Proof.
  split; [reflexivity|].
  exact (explicit_cache_results_requires_cacheable repr
           (sample_class "D" (Some true)) 0 None None false [] eq_refl).
Defined.

Example init_default_name :
  Step_init repr (sample_class "D" None) 0 None VNone None false []
  = Ok (MkStep {| step_class := sample_class "D" None; name := "D-v2-{}";
                  unique_id_cache := Some "D-v2-{}"; rand_bits := 0;
                  cache_results := true; produce_results := false;
                  format := "dill.gz"; temp_dir_for_run := None |} []).
Proof. reflexivity. Qed.

(** ** Fingerprints *)

(** The unique id of the root of the diamond, asked for three times. *)
Lemma unique_id_deterministic_format_witness :
  memo_ok repr step_r = true
  /\ DETERMINISTIC (class_of step_r) = true
  /\ fst (unique_id repr step_r)
     = (("R" +:+ "-" +:+ "v2") +:+ "-") +:+
       substring 0 32 (repr (canonical repr (str_dict (kwargs step_r))))
  /\ Forall (eq (fst (unique_id repr step_r))) (unique_id_calls repr 3 step_r).
Proof.
  split; [reflexivity|]. split; [reflexivity|].
  destruct (unique_id_deterministic_format repr step_r) as [Hfmt Hcalls].
  split; [exact (Hfmt eq_refl eq_refl) | exact (Hcalls 3)].
Defined.

(** C6, counterexample. The tag in front of the id is the name of the
    class and not the name it is registered under: a deterministic class
    [TrainStep] registered as ["train"] gives ids that start with
    ["TrainStep"], and the Steps of [_RefStep], which the module registers
    as ["ref"], have ids that start with ["_RefStep-"]. *)
Definition sample_registry : list (string * StepClass) :=
  ("train", sample_class "TrainStep" None) :: Step_registry.

Lemma unique_id_tag_is_the_class_name :
  (In ("train", sample_class "TrainStep" None) sample_registry
   /\ DETERMINISTIC (sample_class "TrainStep" None) = true
   /\ uid repr (sample_step (sample_class "TrainStep" None) "t" true [])
      = "TrainStep-v2-{}"
   /\ String.prefix "train"
        (uid repr (sample_step (sample_class "TrainStep" None) "t" true []))
      = false)
  /\ In ("ref", _RefStep) sample_registry
  /\ uid repr (sample_step _RefStep "r" false [("ref", VStr "d")])
     = "_RefStep-0"
  /\ String.prefix "ref"
       (uid repr (sample_step _RefStep "r" false [("ref", VStr "d")]))
     = false.
Proof.
  split; [split; [left; reflexivity|]; split; [reflexivity|];
          split; vm_compute; reflexivity|].
  split; [right; left; reflexivity|]. split; vm_compute; reflexivity.
Qed.

(** ** Materialization *)

Definition sum_ints (kw : list (string * value)) : Z :=
  fold_right (fun '(_, v) acc =>
                match v with VInt n => (n + acc)%Z | _ => acc end) 0%Z kw.

(** [D] produces 7; every other class adds one to the sum of its inputs. *)
Definition sample_run (self : step) (kw : list (string * value)) (w : nat)
    : pyresult value * nat :=
  if String.eqb (cls_name (class_of self)) "D" then (Ok (VInt 7), w)
  else (Ok (VInt (sum_ints kw + 1)), w).

Definition sample_TemporaryDirectory (prefix suffix : string) (w : nat)
    : pyresult (list string) * nat :=
  (Ok ["tmp"; prefix +:+ pretty w +:+ suffix], S w).

Definition sample_cleanup (d : list string) (w : nat) : pyresult unit * nat :=
  (Ok tt, w).

Definition sample_result {C : Type} `{StepCache C} (s : step)
    (st : exec_state nat C) : pyresult value * exec_state nat C :=
  result repr nat sample_run sample_TemporaryDirectory sample_cleanup
    sample_cleanup s st.

Definition memory_start : exec_state nat MemoryStepCache :=
  mk_exec_state MemoryStepCache_init 0 [].

Example result_of_diamond :
  let '(r, st) := sample_result (H := MemoryStepCache_ops repr) step_r memory_start in
  r = Ok (VInt 17) /\ map (fun t => name (attrs t)) (run_log st) = ["d"; "a"; "b"; "r"].
Proof. vm_compute. auto. Qed.

Definition step_u : step := sample_step (sample_class "D" None) "u" false [].


(** A set comprehension stops at the first result that cannot be hashed:
    the Step [l] returns a list, and [d], which comes after it in the set,
    is not run. *)
Definition list_run (self : step) (kw : list (string * value)) (w : nat)
    : pyresult value * nat :=
  if String.eqb (cls_name (class_of self)) "L" then (Ok (VList []), w)
  else sample_run self kw w.

Example set_of_results_stops_at_unhashable :
  let l := sample_step (sample_class "L" None) "l" false [] in
  let s := sample_step (sample_class "S" None) "s" false
             [("items", VSet [VStep l; VStep step_d])] in
  let '(r, st) :=
    result repr nat list_run sample_TemporaryDirectory sample_cleanup
      sample_cleanup (H := MemoryStepCache_ops repr) s memory_start in
  r = Raise (TypeError "unhashable type: 'list'")
  /\ map (fun t => name (attrs t)) (run_log st) = ["l"].
Proof. vm_compute. auto. Qed.


(** ** The run guard *)

(** A [run] that tries to run its own Step again. *)
Definition reentering_run (self : step) (kw : list (string * value)) (w : nat)
    : pyresult value * nat :=
  let '(r, _, st) :=
    _run_with_temp_dir repr nat sample_run sample_TemporaryDirectory
      sample_cleanup sample_cleanup (H := MemoryStepCache_ops repr)
      self kw (mk_exec_state MemoryStepCache_init w []) in
  (r, st_world st).

Example reentry_is_rejected :
  let '(r, self', st) :=
    _run_with_temp_dir repr nat reentering_run sample_TemporaryDirectory
      sample_cleanup sample_cleanup (H := MemoryStepCache_ops repr)
      step_d [] memory_start in
  r = Raise one_run_at_a_time
  /\ self' = step_d
  /\ map (fun t => temp_dir_for_run (attrs t)) (run_log st)
     = [Some ["tmp"; "D-v2-{}-0.temp"]].
Proof. vm_compute. auto. Qed.

(** Once a run is over, the same instance can be run again. *)
Example second_run_is_admitted :
  let '(r1, self1, st1) :=
    _run_with_temp_dir repr nat sample_run sample_TemporaryDirectory
      sample_cleanup sample_cleanup (H := MemoryStepCache_ops repr)
      step_d [] memory_start in
  let '(r2, self2, st2) :=
    _run_with_temp_dir repr nat sample_run sample_TemporaryDirectory
      sample_cleanup sample_cleanup (H := MemoryStepCache_ops repr)
      self1 [] st1 in
  r1 = Ok (VInt 7) /\ self1 = step_d
  /\ r2 = Ok (VInt 7) /\ self2 = step_d
  /\ map (fun t => temp_dir_for_run (attrs t)) (run_log st2)
     = [Some ["tmp"; "D-v2-{}-0.temp"]; Some ["tmp"; "D-v2-{}-1.temp"]].
Proof. vm_compute. auto 10. Qed.

(** ** The directory cache *)

Definition sample_formats (n : string) : FormatImpl :=
  {| payload_name := "data." +:+ n; dumps := repr;
     loads := fun _ => Raise (ValueError "cannot unpickle");
     checksum_of := fun b => pretty (String.length b) |}.

Definition sample_directory_cache : DirectoryStepCache :=
  {| dir := ["cache"]; cache := ∅; disk := {[ ["cache"] := Dir ]} |}.

Definition rename_fault : io_faults :=
  {| mkdir_fails := false; format_write := WriteCompletes;
     checksum_fails := false; open_temp_fails := false;
     json_dump_fails := false; rename_fails := true;
     unlink_fails := false |}.

Definition rename_and_unlink_fault : io_faults :=
  {| mkdir_fails := false; format_write := WriteCompletes;
     checksum_fails := false; open_temp_fails := false;
     json_dump_fails := false; rename_fails := true;
     unlink_fails := true |}.

Definition sample_put (io : io_faults) (v : value)
    : pyresult unit * DirectoryStepCache :=
  DirectoryStepCache_setitem repr sample_formats io sample_directory_cache
    step_d v.

Example put_without_faults :
  let '(r, c) := sample_put no_faults (VSet [VInt 1]) in
  r = Ok tt
  /\ disk c !! ["cache"; "D-v2-{}"; "data.dill.gz"] = Some (File (Bytes "{1}"))
  /\ disk c !! ["cache"; "D-v2-{}"; "metadata.json"]
     = Some (File (Json [("step", "D-v2-{}"); ("checksum", "3")]))
  /\ DirectoryStepCache_len c = 1
  /\ DirectoryStepCache_contains repr c (VStep step_d) = true.
Proof. vm_compute. auto. Qed.

(** A list cannot be weakly referenced: the put fails after the payload
    has been written, and nothing is committed. *)
Example put_of_a_list_fails :
  let '(r, c) := sample_put no_faults (VList [VInt 1]) in
  r = Raise (TypeError "cannot create weak reference to 'list' object")
  /\ disk c !! ["cache"; "D-v2-{}"; "metadata.json"] = None
  /\ DirectoryStepCache_contains repr c (VStep step_d) = false.
Proof. vm_compute. auto. Qed.

(** C2, counterexample. A list cannot be weakly referenced, so the put
    of a list fails after the result has been fully serialized and leaves
    no [metadata.json]: the one exists without the other.  And when it is
    the rename that fails, the slot has no [metadata.json] but satisfies
    [contains] all the same, through the in-memory layer that was filled
    before the rename. *)
Lemma failed_put_breaks_commit_equivalence :
  (let '(r, c) := sample_put no_faults (VList [VInt 1]) in
   r = Raise (TypeError "cannot create weak reference to 'list' object")
   /\ disk c !! ["cache"; "D-v2-{}"; "data.dill.gz"]
      = Some (File (Bytes (dumps (sample_formats "dill.gz") (VList [VInt 1]))))
   /\ disk c !! ["cache"; "D-v2-{}"; "metadata.json"] = None)
  /\ (let '(r, c) := sample_put rename_fault (VSet [VInt 1]) in
      r = Raise (OSError "rename failed")
      /\ disk c !! ["cache"; "D-v2-{}"; "data.dill.gz"]
         = Some (File (Bytes (dumps (sample_formats "dill.gz") (VSet [VInt 1]))))
      /\ disk c !! ["cache"; "D-v2-{}"; "metadata.json"] = None
      /\ DirectoryStepCache_contains repr c (VStep step_d) = true).
Proof. vm_compute. auto 10. Qed.

(** A put whose rename fails leaves neither [metadata.json] nor
    [metadata.temp]. *)
Lemma put_commit_marker_discipline_witness :
  let r := fst (sample_put rename_fault (VSet [VInt 1])) in
  let c := snd (sample_put rename_fault (VSet [VInt 1])) in
  payload_name (format_of sample_formats step_d) <> "metadata.json"
  /\ payload_name (format_of sample_formats step_d) <> "metadata.temp"
  /\ sample_put rename_fault (VSet [VInt 1]) = (r, c)
  /\ disk c !! ["cache"; "D-v2-{}"; "metadata.json"] = None
  /\ disk c !! ["cache"; "D-v2-{}"; "metadata.temp"] = None.
Proof.
  intros r c.
  assert (H1 : payload_name (format_of sample_formats step_d) <> "metadata.json")
    by (vm_compute; discriminate).
  assert (H2 : payload_name (format_of sample_formats step_d) <> "metadata.temp")
    by (vm_compute; discriminate).
  assert (H3 : sample_put rename_fault (VSet [VInt 1]) = (r, c))
    by (vm_compute; reflexivity).
  split; [exact H1|]. split; [exact H2|]. split; [exact H3|].
  destruct (put_commit_marker_discipline repr sample_formats rename_fault
              sample_directory_cache c step_d (VSet [VInt 1]) r H1 H2 H3)
    as (_ & Hkeep & Htemp & _).
  split.
  - refine (eq_trans (Hkeep (OSError "rename failed") _) _);
      vm_compute; reflexivity.
  - refine (proj1 (Htemp (OSError "rename failed")
                     {[ ["cache"] := Dir; ["cache"; "D-v2-{}"] := Dir ]}
                     _ _ _ _ _)); vm_compute; reflexivity.
Defined.

(** C5, counterexample. The temporary file is [metadata.temp]; no file
    named [metadata.json.temp] is ever written.  (The rename and the
    unlink both fail here, so the temporary file can still be seen.) *)
Lemma temp_file_is_metadata_temp :
  with_suffix ["cache"; "D-v2-{}"; "metadata.json"] ".temp"
  = ["cache"; "D-v2-{}"; "metadata.temp"]
  /\ let c := snd (sample_put rename_and_unlink_fault (VSet [VInt 1])) in
     disk c !! ["cache"; "D-v2-{}"; "metadata.temp"]
     = Some (File (Json [("step", "D-v2-{}"); ("checksum", "3")]))
     /\ disk c !! ["cache"; "D-v2-{}"; "metadata.json.temp"] = None.
Proof. vm_compute. auto. Qed.

(** A put without faults, and the same put stopped at the rename. *)
Lemma put_writes_temp_then_renames_witness :
  let c := snd (sample_put no_faults (VSet [VInt 1])) in
  let at_rename := snd (sample_put rename_and_unlink_fault (VSet [VInt 1])) in
  sample_put no_faults (VSet [VInt 1]) = (Ok tt, c)
  /\ disk at_rename !! ["cache"; "D-v2-{}"; "metadata.temp"]
     = Some (metadata_json repr sample_formats step_d (VSet [VInt 1]))
  /\ disk at_rename !! ["cache"; "D-v2-{}"; "metadata.json"] = None
  /\ disk c = fs_rename ["cache"; "D-v2-{}"; "metadata.temp"]
                ["cache"; "D-v2-{}"; "metadata.json"] (disk at_rename)
  /\ disk c !! ["cache"; "D-v2-{}"; "metadata.json"]
     = Some (metadata_json repr sample_formats step_d (VSet [VInt 1]))
  /\ disk c !! ["cache"; "D-v2-{}"; "metadata.temp"] = None.
Proof.
  intros c at_rename.
  assert (H : sample_put no_faults (VSet [VInt 1]) = (Ok tt, c))
    by (vm_compute; reflexivity).
  split; [exact H|].
  split; [vm_compute; reflexivity|]. split; [vm_compute; reflexivity|].
  destruct (put_writes_temp_then_renames repr sample_formats no_faults
              sample_directory_cache c step_d (VSet [VInt 1]) H)
    as (_ & disk1 & mid & Hmk & Hstop & _ & _ & Hd & Hm & Ht).
  split; [|split; [exact Hm | exact Ht]].
  assert (E : disk mid = disk at_rename).
  { assert (E1 : disk1 = {[ ["cache"] := Dir; ["cache"; "D-v2-{}"] := Dir ]}).
    { apply (f_equal (fun r => match r with Ok d => d | Raise _ => disk1 end))
        in Hmk.
      rewrite <- Hmk. vm_compute. reflexivity. }
    subst disk1.
    apply (f_equal (fun p => disk (snd p))) in Hstop. cbn [snd] in Hstop.
    rewrite <- Hstop. vm_compute. reflexivity. }
  rewrite <- E. exact Hd.
Defined.

(** ** The resolver *)

(** Raw parameters for the examples: a class name and, for every keyword
    argument, the name of the step it refers to.  The constructor raises
    [MissingStepError] for the first reference that is not parsed yet. *)
Record sample_params : Type := {
  sp_type : string;
  sp_refs : list (string * string)
}.

Fixpoint lookup_refs (refs : list (string * string))
    (existing : list (string * step)) : pyresult (list (string * value)) :=
  match refs with
  | [] => Ok []
  | (k, n) :: r =>
      match List.find (fun e => String.eqb (fst e) n) existing with
      | None => Raise (MissingStepError n)
      | Some (_, s) =>
          match lookup_refs r existing with
          | Raise e => Raise e
          | Ok kw => Ok ((k, VStep s) :: kw)
          end
      end
  end.

Definition sample_from_params (p : sample_params)
    (existing : list (string * step)) (step_name : string) : pyresult step :=
  match lookup_refs (sp_refs p) existing with
  | Raise e => Raise e
  | Ok kw => Ok (sample_step (sample_class (sp_type p) None) step_name true kw)
  end.

Definition ref_to (t : string) : sample_params :=
  {| sp_type := "Id"; sp_refs := [("x", t)] |}.

Definition cannot_parse_message (names : string) : string :=
  "Cannot parse steps " +:+ names +:+
  ". Do you have a circle in your steps, or are you referring to a step that doesn't exist?".

(** Two steps that refer to each other. *)
Example resolver_rejects_cycle :
  step_graph_from_params sample_params sample_from_params
    [("a", ref_to "b"); ("b", ref_to "a")]
  = Some (Raise (ConfigurationError (cannot_parse_message "b,a"))).
Proof. reflexivity. Qed.

(** A reference to a step that is not defined. *)
Example resolver_rejects_missing_reference :
  step_graph_from_params sample_params sample_from_params
    [("a", {| sp_type := "A"; sp_refs := [] |}); ("b", ref_to "zzz")]
  = Some (Raise (ConfigurationError (cannot_parse_message "b"))).
Proof. reflexivity. Qed.

(** A forward reference is resolved in the second pass. *)
Example resolver_resolves_forward_reference :
  exists a b,
    step_graph_from_params sample_params sample_from_params
      [("a", {| sp_type := "A"; sp_refs := [] |}); ("b", ref_to "a")]
    = Some (Ok [("a", a); ("b", b)])
    /\ dependencies repr b = [a].
Proof. eexists _, _. split; reflexivity. Qed.

Definition stuck_state : resolver_state sample_params :=
  {| unparsed_steps := []; next_unparsed_steps := [("b", ref_to "a"); ("a", ref_to "b")];
     parsed_steps := []; steps_parsed := 0 |}.

(** Both entries are deferred and nothing was parsed. *)
Lemma resolver_stuck_or_swaps_witness :
  unparsed_steps sample_params stuck_state = []
  /\ next_unparsed_steps sample_params stuck_state <> []
  /\ resolver_loop sample_params sample_from_params 1 stuck_state
     = Some (Raise (ConfigurationError (cannot_parse_message "b,a"))).
Proof.
  assert (H1 : unparsed_steps sample_params stuck_state = []) by reflexivity.
  assert (H2 : next_unparsed_steps sample_params stuck_state <> [])
    by (vm_compute; discriminate).
  split; [exact H1|]. split; [exact H2|].
  exact (proj1 (resolver_stuck_or_swaps sample_params sample_from_params
                  stuck_state H1 H2) eq_refl 0).
Defined.

(** ** The directory cache, continued *)

(** A Format that can read back the payload these examples write. *)
Definition roundtrip_formats (n : string) : FormatImpl :=
  {| payload_name := "data." +:+ n; dumps := repr;
     loads := fun b => if String.eqb b "{1}" then Ok (VSet [VInt 1])
                       else Raise (ValueError "cannot unpickle");
     checksum_of := fun b => pretty (String.length b) |}.

Definition roundtrip_put : pyresult unit * DirectoryStepCache :=
  DirectoryStepCache_setitem repr roundtrip_formats no_faults
    sample_directory_cache step_d (VSet [VInt 1]).

(** The value is there after the put, while it is alive: here the
    garbage collector has dropped the entry of another value. *)
Lemma DirectoryStepCache_get_after_put_witness :
  let c := snd (sample_put no_faults (VSet [VInt 1])) in
  sample_put no_faults (VSet [VInt 1]) = (Ok tt, c)
  /\ (uid repr step_d ∉ ({["A-v2-{}"]} : gset string))
  /\ DirectoryStepCache_getitem repr sample_formats
       (collect {["A-v2-{}"]} c) step_d
     = (Ok (VSet [VInt 1]), collect {["A-v2-{}"]} c).
Proof.
  intros c.
  assert (H : sample_put no_faults (VSet [VInt 1]) = (Ok tt, c))
    by (vm_compute; reflexivity).
  assert (Ha : uid repr step_d ∉ ({["A-v2-{}"]} : gset string)).
  { intros Hin. apply elem_of_singleton in Hin. vm_compute in Hin.
    discriminate Hin. }
  split; [exact H|]. split; [exact Ha|].
  exact (DirectoryStepCache_get_after_put repr sample_formats no_faults
           sample_directory_cache c step_d (VSet [VInt 1]) {["A-v2-{}"]}
           H Ha).
Defined.

(** The value is read back from the disk once the weak layer has lost
    it. *)
Lemma DirectoryStepCache_get_after_collect_witness :
  let c := snd roundtrip_put in
  payload_name (format_of roundtrip_formats step_d) <> "metadata.json"
  /\ payload_name (format_of roundtrip_formats step_d) <> "metadata.temp"
  /\ roundtrip_put = (Ok tt, c)
  /\ cache (collect {["D-v2-{}"]} c) !! "D-v2-{}" = None
  /\ fst (DirectoryStepCache_getitem repr roundtrip_formats
            (collect {["D-v2-{}"]} c) step_d)
     = Ok (VSet [VInt 1]).
Proof.
  intros c.
  assert (H1 : payload_name (format_of roundtrip_formats step_d)
               <> "metadata.json") by (vm_compute; discriminate).
  assert (H2 : payload_name (format_of roundtrip_formats step_d)
               <> "metadata.temp") by (vm_compute; discriminate).
  assert (H3 : roundtrip_put = (Ok tt, c)) by (vm_compute; reflexivity).
  split; [exact H1|]. split; [exact H2|]. split; [exact H3|].
  split; [vm_compute; reflexivity|].
  exact (proj1 (DirectoryStepCache_get_after_collect repr roundtrip_formats
                  no_faults sample_directory_cache c step_d (VSet [VInt 1])
                  {["D-v2-{}"]} H1 H2 eq_refl H3)).
Defined.

(** A put counts once. *)
Lemma DirectoryStepCache_len_after_put_witness :
  let c := snd (sample_put no_faults (VSet [VInt 1])) in
  payload_name (format_of sample_formats step_d) <> "metadata.json"
  /\ sample_put no_faults (VSet [VInt 1]) = (Ok tt, c)
  /\ DirectoryStepCache_len sample_directory_cache = 0
  /\ DirectoryStepCache_len c = 1.
Proof.
  intros c.
  assert (H1 : payload_name (format_of sample_formats step_d)
               <> "metadata.json") by (vm_compute; discriminate).
  assert (H2 : sample_put no_faults (VSet [VInt 1]) = (Ok tt, c))
    by (vm_compute; reflexivity).
  split; [exact H1|]. split; [exact H2|]. split; [reflexivity|].
  refine (eq_trans
            (DirectoryStepCache_len_after_put repr sample_formats no_faults
               sample_directory_cache c step_d (VSet [VInt 1]) (Ok tt) H1 H2)
            _).
  reflexivity.
Defined.

(** The put for [d] leaves [a] out of the cache. *)
Lemma DirectoryStepCache_put_frame_witness :
  let c := snd (sample_put no_faults (VSet [VInt 1])) in
  uid repr step_a <> uid repr step_d
  /\ sample_put no_faults (VSet [VInt 1]) = (Ok tt, c)
  /\ DirectoryStepCache_contains repr c (VStep step_a) = false.
Proof.
  intros c.
  assert (H1 : uid repr step_a <> uid repr step_d)
    by (vm_compute; discriminate).
  assert (H2 : sample_put no_faults (VSet [VInt 1]) = (Ok tt, c))
    by (vm_compute; reflexivity).
  split; [exact H1|]. split; [exact H2|].
  refine (eq_trans
            (proj1 (DirectoryStepCache_put_frame repr sample_formats no_faults
                      sample_directory_cache c step_d step_a (VSet [VInt 1])
                      (Ok tt) H1 H2))
            _).
  vm_compute. reflexivity.
Defined.

(** The directory is opened again after the put. *)
Lemma DirectoryStepCache_reopen_witness :
  let c := snd roundtrip_put in
  let reopened := {| dir := ["cache"]; cache := ∅; disk := disk c |} in
  payload_name (format_of roundtrip_formats step_d) <> "metadata.json"
  /\ payload_name (format_of roundtrip_formats step_d) <> "metadata.temp"
  /\ roundtrip_put = (Ok tt, c)
  /\ DirectoryStepCache_init ["cache"] (disk c) = Ok reopened
  /\ DirectoryStepCache_contains repr reopened (VStep step_d) = true
  /\ fst (DirectoryStepCache_getitem repr roundtrip_formats reopened step_d)
     = Ok (VSet [VInt 1]).
Proof.
  intros c reopened.
  assert (H1 : payload_name (format_of roundtrip_formats step_d)
               <> "metadata.json") by (vm_compute; discriminate).
  assert (H2 : payload_name (format_of roundtrip_formats step_d)
               <> "metadata.temp") by (vm_compute; discriminate).
  assert (H3 : roundtrip_put = (Ok tt, c)) by (vm_compute; reflexivity).
  split; [exact H1|]. split; [exact H2|]. split; [exact H3|].
  exact (DirectoryStepCache_reopen repr roundtrip_formats no_faults
           sample_directory_cache c step_d (VSet [VInt 1]) H1 H2 eq_refl H3).
Defined.

(** ** Materialization, continued *)

(** A [run] that returns a set. *)
Definition set_run (self : step) (kw : list (string * value)) (w : nat)
    : pyresult value * nat :=
  (Ok (VSet [VInt 1]), w).

Definition set_result (s : step) (st : exec_state nat DirectoryStepCache)
    : pyresult value * exec_state nat DirectoryStepCache :=
  result repr nat set_run sample_TemporaryDirectory sample_cleanup
    sample_cleanup
    (H := DirectoryStepCache_ops repr roundtrip_formats no_faults) s st.

Definition directory_start : exec_state nat DirectoryStepCache :=
  mk_exec_state sample_directory_cache 0 [].

(** With the directory cache, a Step that returns a number cannot be
    cached: the put fails. *)
Example directory_cache_refuses_a_number :
  fst (sample_result (H := DirectoryStepCache_ops repr sample_formats no_faults)
         step_d directory_start)
  = Raise (TypeError "cannot create weak reference to 'int' object").
Proof. vm_compute. reflexivity. Qed.

(** A Step that returns a set gets through. *)
Lemma directory_result_is_weakly_referenceable_witness :
  let st1 := snd (set_result step_d directory_start) in
  cache_results (attrs step_d) = true
  /\ DirectoryStepCache_contains repr (st_cache directory_start) (VStep step_d)
     = false
  /\ set_result step_d directory_start = (Ok (VSet [VInt 1]), st1)
  /\ match VSet [VInt 1] with
     | VNone | VBool _ | VInt _ | VStr _ | VList _ | VDict _ | VIter _ => False
     | _ => True
     end.
Proof.
  intros st1.
  assert (H2 : DirectoryStepCache_contains repr (st_cache directory_start)
                 (VStep step_d) = false) by (vm_compute; reflexivity).
  assert (H3 : set_result step_d directory_start = (Ok (VSet [VInt 1]), st1))
    by (vm_compute; reflexivity).
  split; [reflexivity|]. split; [exact H2|]. split; [exact H3|].
  exact (directory_result_is_weakly_referenceable repr roundtrip_formats nat
           set_run sample_TemporaryDirectory sample_cleanup sample_cleanup
           no_faults step_d directory_start st1 (VSet [VInt 1])
           eq_refl H2 H3).
Defined.

(** A second call, after the garbage collector has dropped the set from
    the weak layer, reads it back from the disk. *)
Lemma directory_result_again_same_value_witness :
  let st1 := snd (set_result step_d directory_start) in
  let later := with_cache nat (collect {["D-v2-{}"]} (st_cache st1)) st1 in
  cache_results (attrs step_d) = true
  /\ DirectoryStepCache_contains repr (st_cache directory_start) (VStep step_d)
     = false
  /\ payload_name (format_of roundtrip_formats step_d) <> "metadata.json"
  /\ payload_name (format_of roundtrip_formats step_d) <> "metadata.temp"
  /\ set_result step_d directory_start = (Ok (VSet [VInt 1]), st1)
  /\ cache (st_cache later) !! "D-v2-{}" = None
  /\ fst (set_result step_d later) = Ok (VSet [VInt 1])
  /\ run_log (snd (set_result step_d later)) = run_log st1.
Proof.
  intros st1 later.
  assert (H2 : DirectoryStepCache_contains repr (st_cache directory_start)
                 (VStep step_d) = false) by (vm_compute; reflexivity).
  assert (Hp1 : payload_name (format_of roundtrip_formats step_d)
                <> "metadata.json") by (vm_compute; discriminate).
  assert (Hp2 : payload_name (format_of roundtrip_formats step_d)
                <> "metadata.temp") by (vm_compute; discriminate).
  assert (H3 : set_result step_d directory_start = (Ok (VSet [VInt 1]), st1))
    by (vm_compute; reflexivity).
  split; [reflexivity|]. split; [exact H2|]. split; [exact Hp1|].
  split; [exact Hp2|]. split; [exact H3|].
  split; [vm_compute; reflexivity|].
  destruct (directory_result_again_same_value repr roundtrip_formats nat
              set_run sample_TemporaryDirectory sample_cleanup sample_cleanup
              no_faults step_d directory_start st1 (VSet [VInt 1])
              {["D-v2-{}"]} eq_refl H2 Hp1 Hp2 eq_refl H3)
    as (Hv & Hlog & _ & _).
  split; [exact Hv|exact Hlog].
Defined.

(** The diamond: what runs is what the dry run reports. *)
Lemma result_runs_what_dry_run_reports_witness :
  let st1 :=
    snd (sample_result (H := MemoryStepCache_ops repr) step_r memory_start) in
  forallb (fun t => cache_results (attrs t)) (steps_of step_r) = true
  /\ sample_result (H := MemoryStepCache_ops repr) step_r memory_start
     = (Ok (VInt 17), st1)
  /\ exists entered,
       run_log st1 = run_log memory_start ++ entered
       /\ map (fun t => (name (attrs t), false)) entered
          = [("d", false); ("a", false); ("b", false); ("r", false)].
Proof.
  intros st1.
  assert (Hres : sample_result (H := MemoryStepCache_ops repr) step_r
                   memory_start = (Ok (VInt 17), st1))
    by (vm_compute; reflexivity).
  split; [reflexivity|]. split; [exact Hres|].
  destruct (result_runs_what_dry_run_reports repr nat sample_run
              sample_TemporaryDirectory sample_cleanup sample_cleanup
              step_r memory_start st1 (VInt 17) eq_refl Hres)
    as (entered & L & N & _ & _).
  exists entered. split; [exact L|].
  refine (eq_trans N _). vm_compute. reflexivity.
Defined.

(** The second call returns what the first returned. *)
Lemma result_again_same_value_witness :
  let st1 :=
    snd (sample_result (H := MemoryStepCache_ops repr) step_r memory_start) in
  cache_results (attrs step_r) = true
  /\ sample_result (H := MemoryStepCache_ops repr) step_r memory_start
     = (Ok (VInt 17), st1)
  /\ sample_result (H := MemoryStepCache_ops repr) step_r st1
     = (Ok (VInt 17), st1).
Proof.
  intros st1.
  assert (Hres : sample_result (H := MemoryStepCache_ops repr) step_r
                   memory_start = (Ok (VInt 17), st1))
    by (vm_compute; reflexivity).
  split; [reflexivity|]. split; [exact Hres|].
  exact (result_again_same_value repr nat sample_run
           sample_TemporaryDirectory sample_cleanup sample_cleanup
           step_r memory_start st1 (VInt 17) eq_refl Hres).
Defined.

Definition sample_ensure_result (s : step)
    (st : exec_state nat MemoryStepCache)
    : pyresult unit * exec_state nat MemoryStepCache :=
  ensure_result repr nat sample_run sample_TemporaryDirectory sample_cleanup
    sample_cleanup (H := MemoryStepCache_ops repr) s st.


(** An uncacheable Step is refused. *)
Example ensure_result_refuses_uncacheable :
  fst (sample_ensure_result step_u memory_start)
  = Raise (ValueError
             "It does not make sense to call ensure_result() on a step that's not cacheable.").
Proof. reflexivity. Qed.

(** ** Construction, continued *)

(** A Step constructed without a name is called by its unique id. *)
Lemma Step_init_name_and_id_witness :
  exists s,
    Step_init repr (sample_class "D" None) 0 None VNone None false [] = Ok s
    /\ name (attrs s) = "D-v2-{}"
    /\ uid repr s = "D-v2-{}".
Proof.
  eexists. split; [reflexivity|].
  split; [|reflexivity].
  exact (proj1 (Step_init_name_and_id repr (sample_class "D" None) 0 None
                  VNone None false [] _ eq_refl)).
Defined.

(** ** The resolver, continued *)

(** The graph has the two names of the configuration. *)
Lemma resolver_names_witness :
  let params := [("a", {| sp_type := "A"; sp_refs := [] |}); ("b", ref_to "a")] in
  List.NoDup (map fst params)
  /\ exists g,
       step_graph_from_params sample_params sample_from_params params
       = Some (Ok g)
       /\ map fst g ≡ₚ ["a"; "b"].
Proof.
  intros params.
  assert (Hnd : List.NoDup (map fst params))
    by (repeat (constructor;
                [cbn; intros H;
                 repeat (destruct H as [H|H]; [discriminate H|]); exact H|]);
        constructor).
  split; [exact Hnd|].
  eexists. split; [reflexivity|].
  apply (proj1 (resolver_names sample_params sample_from_params params Hnd)).
  reflexivity.
Defined.

(** ** Recursive dependencies *)

(** In the diamond the root depends on [a] and [b], and through either
    of them on [d], which is counted once. *)
Example recursive_dependencies_of_diamond :
  option_map (map (fun t => name (attrs t))) (recursive_dependencies repr step_r)
  = Some ["b"; "d"; "a"].
Proof. vm_compute. reflexivity. Qed.
